(** * Natron node collections (Engine/NodeGroup.cpp)

    A shallow embedding of [NodeCollection], [NodeGroup] and the graph
    restorer of Engine/NodeGroup.cpp, and the properties of the
    natural-language specification checked against it.

    Conventions of the embedding:
    - a [NodePtr] is the address of the node object ([NodeId]); a null
      pointer, or an expired weak pointer, is [None];
    - the mutex of a collection plays no part in the sequential
      behaviour and is not modelled;
    - a member function that mutates [this] takes the collection and
      returns the updated one; an output parameter is returned;
    - a C++ exception is a value of type [NameError];
    - a nested collection is part of the value of its group node:
      containment is a tree, and where a statement needs every node
      object to occur once it says so with [NoDup] on the addresses. *)

From Stdlib Require Import ZArith Lia Ascii Sorted.
From stdpp Require Import base list strings pretty.

Local Open Scope Z_scope.

(** ** Data model *)

(** The address of a node object: pointer identity. *)
Definition NodeId := nat.
Bind Scope nat_scope with NodeId.

(** A possibly null [NodePtr] / [const Node*], or a [NodeWPtr] once locked. *)
Definition NodePtr := option NodeId.

(** [NodeGroupPrivate] with the part of the effect a group collection reads:
    the script-names of the knobs of the group ([getKnobs()]). *)
Record NodeGroupPrivate := mkNodeGroupPrivate {
  inputs : list NodePtr;
  outputs : list NodePtr;
  isDeactivatingGroup : bool;
  isActivatingGroup : bool;
  knobs : list string
}.

(** [NodeCollectionPrivate]: the members, whether a node-graph pointer is
    set, and the [NodeGroup] part when [dynamic_cast<NodeGroup*>(this)]
    succeeds. *)
Record NodeCollectionOf (N : Type) := mkNodeCollection {
  nodes : list N;
  graph : bool;
  isNodeGroup : option NodeGroupPrivate
}.
Arguments mkNodeCollection {N} _ _ _.
Arguments nodes {N} _.
Arguments graph {N} _.
Arguments isNodeGroup {N} _.

#[local] Set Warnings "-register-all".

(** What the collection reads of a node: its address, its script-name,
    whether its effect is a reader, a group input or a group output, the
    result of [getFrameRange_public] ([None] for a failure code, frame
    bounds being integral) and, for a group node, the nested collection
    ([isEffectNodeGroup]). *)
Inductive Node : Type := mkNode {
  nodeAddr : NodeId;
  getScriptName_mt_safe : string;
  isReader : bool;
  isEffectGroupInput : bool;
  isGroupOutput : bool;
  getFrameRange_public : option (Z * Z);
  isEffectNodeGroup : option (NodeCollectionOf Node)
}.

Definition NodeCollection := NodeCollectionOf Node.
Definition NodesList := list Node.

Definition isGroupNode (n : Node) : bool :=
  match isEffectNodeGroup n with Some _ => true | None => false end.

(** Every node nested in a list of nodes, the nodes of the list included. *)
Fixpoint subtree (n : Node) : list Node :=
  n :: match isEffectNodeGroup n with
       | Some c => (fix all (l : list Node) : list Node :=
                      match l with
                      | [] => []
                      | m :: l' => subtree m ++ all l'
                      end) (nodes c)
       | None => []
       end.

Definition allNodes (l : list Node) : list Node := flat_map subtree l.

(** The nodes strictly inside a group node. *)
Definition nestedNodes (n : Node) : list Node :=
  match isEffectNodeGroup n with
  | Some c => allNodes (nodes c)
  | None => []
  end.

(** ** NodeCollection::getNodes_recursive *)

(** The body of the locked loop: one member. *)
Definition getNodes_snapshot_step (onlyActive : bool)
    (st : NodesList * list Node) (it : Node) : NodesList * list Node :=
  if onlyActive then st
  else
    let nodes' := st.1 ++ [it] in
    if isGroupNode it then (nodes', st.2 ++ [it]) else (nodes', st.2).

(** The recursive call [it->getNodes_recursive(nodes, onlyActive)] on a
    group member [g]. *)
Fixpoint getNodes_recursive_group (onlyActive : bool) (g : Node)
    (out : NodesList) : NodesList :=
  match isEffectNodeGroup g with
  | None => out
  | Some c =>
      (fix recurse (l : list Node) (out : NodesList) : NodesList :=
         match l with
         | [] => out
         | it :: l' =>
             recurse l'
               (if onlyActive then out
                else if isGroupNode it
                     then getNodes_recursive_group onlyActive it out
                     else out)
         end)
        (nodes c)
        (fold_left (getNodes_snapshot_step onlyActive) (nodes c) (out, [])).1
  end.

(** [NodeCollection::getNodes_recursive]: the snapshot under the lock, then
    the recursion over [groupToRecurse]. *)
Definition getNodes_recursive (c : NodeCollection) (onlyActive : bool)
    (out : NodesList) : NodesList :=
  let '(nodes', groupToRecurse) :=
    fold_left (getNodes_snapshot_step onlyActive) (nodes c) (out, []) in
  fold_left (fun out g => getNodes_recursive_group onlyActive g out)
    groupToRecurse nodes'.

(** [NodeCollection::getActiveNodes]: the sibling listing. *)
Definition getActiveNodes (c : NodeCollection) (out : NodesList) : NodesList :=
  fold_left (fun out it => out ++ [it]) (nodes c) out.

(** ** NodeCollection::recomputeFrameRangeForAllReaders *)

Definition INT_MIN : Z := -2147483648.
Definition INT_MAX : Z := 2147483647.

(** The reader branch of the loop, on [*firstFrame] and [*lastFrame]. *)
Definition readerFrameRange (setFrameRange : bool) (it : Node)
    (fl : Z * Z) : Z * Z :=
  match getFrameRange_public it with
  | None => fl
  | Some (tmin, tmax) =>
      let first :=
        if bool_decide (tmin ≠ INT_MIN)
        then (if setFrameRange then tmin else Z.min fl.1 tmin)
        else fl.1 in
      let last :=
        if bool_decide (tmax ≠ INT_MAX)
        then (if setFrameRange then tmax else Z.max fl.2 tmax)
        else fl.2 in
      (first, last)
  end.

(** [isGrp->recomputeFrameRangeForAllReadersInternal(first, last, false)]. *)
Fixpoint recomputeFrameRange_group (g : Node) (fl : Z * Z) : Z * Z :=
  match isEffectNodeGroup g with
  | None => fl
  | Some c =>
      (fix loop (l : list Node) (fl : Z * Z) : Z * Z :=
         match l with
         | [] => fl
         | it :: l' =>
             loop l'
               (if isReader it then readerFrameRange false it fl
                else if isGroupNode it then recomputeFrameRange_group it fl
                     else fl)
         end) (nodes c) fl
  end.

Definition recomputeFrameRange_step (setFrameRange : bool) (fl : Z * Z)
    (it : Node) : Z * Z :=
  if isReader it then readerFrameRange setFrameRange it fl
  else if isGroupNode it then recomputeFrameRange_group it fl
       else fl.

Definition recomputeFrameRangeForAllReadersInternal (c : NodeCollection)
    (fl : Z * Z) (setFrameRange : bool) : Z * Z :=
  fold_left (recomputeFrameRange_step setFrameRange) (nodes c) fl.

Definition recomputeFrameRangeForAllReaders (c : NodeCollection)
    (fl : Z * Z) : Z * Z :=
  recomputeFrameRangeForAllReadersInternal c fl true.

(** ** NodeCollection::clearNodesInternal *)

(** What teardown does to objects outside the collection itself:
    [destroyNode()] on a node, [onNodesCleared()] on the node-graph, and the
    clearing of the member list of a (nested) collection. *)
Inductive TeardownEvent :=
  | DestroyNode (a : NodeId)
  | OnNodesCleared
  | NodesCleared.

Definition killEffects (nodesToDelete : NodesList) : list TeardownEvent :=
  map (fun it => DestroyNode (nodeAddr it)) nodesToDelete.

Definition notifyGraph (hasGraph : bool) : list TeardownEvent :=
  if hasGraph then [OnNodesCleared] else [].

(** [isGrp->clearNodesInternal()] on a group member [g]. *)
Fixpoint clearNodes_group (g : Node) : list TeardownEvent :=
  match isEffectNodeGroup g with
  | None => []
  | Some c =>
      (fix recurse (l : list Node) : list TeardownEvent :=
         match l with
         | [] => []
         | it :: l' =>
             (if isGroupNode it then clearNodes_group it else []) ++ recurse l'
         end) (nodes c)
      ++ killEffects (nodes c) ++ notifyGraph (graph c) ++ [NodesCleared]
  end.

(** [NodeCollection::clearNodesInternal]: the events in the order they are
    issued, and the collection afterwards. *)
Definition clearNodesInternal (c : NodeCollection)
    : list TeardownEvent * NodeCollection :=
  let nodesToDelete := nodes c in
  let containers :=
    flat_map (fun it => if isGroupNode it then clearNodes_group it else [])
      nodesToDelete in
  (containers ++ killEffects nodesToDelete ++ notifyGraph (graph c)
     ++ [NodesCleared],
   mkNodeCollection [] (graph c) (isNodeGroup c)).

Definition clearNodesNonBlocking (c : NodeCollection)
    : list TeardownEvent * NodeCollection :=
  clearNodesInternal c.

(** ** NodeCollection::addNode, removeNode and NodeGroup::onNodeRemoved *)

Definition addNode (c : NodeCollection) (node : Node) : NodeCollection :=
  mkNodeCollection (nodes c ++ [node]) (graph c) (isNodeGroup c).

(** A loop that erases the first element passing a test and breaks. *)
Fixpoint eraseFirst {A : Type} (test : A -> bool) (l : list A) : list A :=
  match l with
  | [] => []
  | x :: l' => if test x then l' else x :: eraseFirst test l'
  end.

Definition NodeGroup_onNodeRemoved (g : NodeGroupPrivate) (node : NodeId)
    : NodeGroupPrivate :=
  mkNodeGroupPrivate
    (eraseFirst (fun it => bool_decide (it = Some node)) (inputs g))
    (eraseFirst (fun it => bool_decide (it = Some node)) (outputs g))
    (isDeactivatingGroup g) (isActivatingGroup g) (knobs g).

(** [NodeGroup::notifyNodeActivated], on the group's own lists; the calls
    it makes on the group node and on its consumers ([initializeInputs],
    [onInputChanged]) touch neither list. *)
Definition notifyNodeActivated (g : NodeGroupPrivate) (node : Node)
    : NodeGroupPrivate :=
  if isActivatingGroup g then g
  else
    mkNodeGroupPrivate
      (if isEffectGroupInput node
       then inputs g ++ [Some (nodeAddr node)] else inputs g)
      (if isGroupOutput node
       then outputs g ++ [Some (nodeAddr node)] else outputs g)
      (isDeactivatingGroup g) (isActivatingGroup g) (knobs g).

(** The virtual call [onNodeRemoved(node)]: [NodeGroup] overrides it, the
    base class leaves it empty. *)
Definition onNodeRemoved (c : NodeCollection) (node : NodeId)
    : NodeCollection :=
  mkNodeCollection (nodes c) (graph c)
    (match isNodeGroup c with
     | Some g => Some (NodeGroup_onNodeRemoved g node)
     | None => None
     end).

Definition removeNode (c : NodeCollection) (node : NodePtr)
    : NodeCollection :=
  match node with
  | None => c
  | Some p =>
      onNodeRemoved
        (mkNodeCollection
           (eraseFirst (fun it => bool_decide (nodeAddr it = p)) (nodes c))
           (graph c) (isNodeGroup c))
        p
  end.

(** A sequence of membership calls on one collection. *)
Inductive MembershipCall :=
  | CallAddNode (node : Node)
  | CallRemoveNode (node : NodePtr).

Definition runCall (c : NodeCollection) (call : MembershipCall)
    : NodeCollection :=
  match call with
  | CallAddNode node => addNode c node
  | CallRemoveNode node => removeNode c node
  end.

Definition runCalls (c : NodeCollection) (calls : list MembershipCall)
    : NodeCollection :=
  fold_left runCall calls c.

Definition emptyCollection : NodeCollection := mkNodeCollection [] false None.

Definition scriptNames (c : NodeCollection) : list string :=
  map getScriptName_mt_safe (nodes c).

(** ** NodeCollection::checkNodeName and initNodeName *)

(** The three [std::runtime_error]s of [checkNodeName]. *)
Inductive NameError :=
  | InvalidScriptName
  | KnobNameConflict (cpy : string)
  | NodeNameExists (nodeName : string).

(** Code of the repository that lives outside this translation unit:
    [NATRON_PYTHON_NAMESPACE::makeNameScriptFriendly] and the plug-in
    identifiers of the built-in Output and Stub nodes. *)
Class Externals := {
  makeNameScriptFriendly : string -> string;
  PLUGINID_NATRON_OUTPUT : string;
  PLUGINID_NATRON_STUB : string
}.

Section Naming.
Context `{!Externals}.

(** The inner [for] loop: is there a member other than [node] with that
    script-name? *)
Definition foundNodeWithName (members : NodesList) (node : NodePtr)
    (nodeName : string) : bool :=
  existsb
    (fun it => bool_decide (Some (nodeAddr it) ≠ node)
               && bool_decide (getScriptName_mt_safe it = nodeName))
    members.

(** The [do ... while (foundNodeWithName)] loop, one iteration per unit
    of fuel; [None] when the fuel runs out. *)
Fixpoint checkNodeName_loop (fuel : nat) (members : NodesList)
    (node : NodePtr) (cpy : string) (appendDigit errorIfExists : bool)
    (no : Z) (nodeName : string) : option (NameError + string) :=
  match fuel with
  | O => None
  | S fuel' =>
      if foundNodeWithName members node nodeName then
        if errorIfExists || negb appendDigit
        then Some (inl (NodeNameExists nodeName))
        else
          let no' := no + 1 in
          checkNodeName_loop fuel' members node cpy appendDigit
            errorIfExists no' (cpy +:+ pretty no')
      else Some (inr nodeName)
  end.

Definition knobNameClash (c : NodeCollection) (cpy : string) : bool :=
  match isNodeGroup c with
  | Some g => bool_decide (cpy ∈ knobs g)
  | None => false
  end.

(** [inl e]: the exception [e] is thrown; [inr s]: [*nodeName = s]. *)
Definition checkNodeName (c : NodeCollection) (node : NodePtr)
    (baseName : string) (appendDigit errorIfExists : bool)
    : option (NameError + string) :=
  if bool_decide (baseName = "") then Some (inl InvalidScriptName)
  else
    let cpy := makeNameScriptFriendly baseName in
    if bool_decide (cpy = "") then Some (inl InvalidScriptName)
    else if knobNameClash c cpy then Some (inl (KnobNameConflict cpy))
    else
      let no := 1 in
      let nodeName := if appendDigit then cpy +:+ pretty no else cpy in
      checkNodeName_loop (S (length (nodes c))) (nodes c) node cpy
        appendDigit errorIfExists no nodeName.

(** The base name [initNodeName] derives from the plug-in label. *)
Definition initNodeName_baseName (pluginLabel : string) : string :=
  let size := String.length pluginLabel in
  if (3 <? size)%nat
     && bool_decide (String.get (size - 1)%nat pluginLabel = Some "X"%char)
     && bool_decide (String.get (size - 2)%nat pluginLabel = Some "F"%char)
     && bool_decide (String.get (size - 3)%nat pluginLabel = Some "O"%char)
  then String.substring 0 (size - 3)%nat pluginLabel
  else pluginLabel.

Definition initNodeName (c : NodeCollection)
    (pluginID pluginLabel : string) : option (NameError + string) :=
  let baseName := initNodeName_baseName pluginLabel in
  let isOutputNode := bool_decide (pluginID = PLUGINID_NATRON_OUTPUT) in
  if negb isOutputNode then checkNodeName c None baseName true false
  else
    match checkNodeName c None baseName false false with
    | Some (inl _) => checkNodeName c None baseName true false
    | r => r
    end.
End Naming.

(** ** The node objects behind the pointers

    [autoConnectNodes] and the restorer act on nodes only through methods
    of [Node], [EffectInstance] and [AppManager], whose code is in other
    translation units.  They are taken as an interface over a state [G] of
    all node objects; every function below is generic in it. *)

(** The address of a collection object ([NodeCollectionPtr]). *)
Definition CollectionId := nat.
Bind Scope nat_scope with CollectionId.

(** [SERIALIZATION_NAMESPACE::NodeSerialization], the fields read here;
    [serAddr] is the address of the record, the key of the
    [std::map<NodeSerializationPtr, NodePtr>]; the two [std::map]s of
    strings are listed in iteration order. *)
Inductive NodeSerialization : Type := mkNodeSerialization {
  serAddr : nat;
  _pluginID : string;
  _pluginMajorVersion : Z;
  _pluginMinorVersion : Z;
  _nodeScriptName : string;
  _inputs : list (string * string);
  _masks : list (string * string);
  _children : list NodeSerialization
}.

Definition NodeSerializationList := list NodeSerialization.

(** [std::map<NodeSerializationPtr, NodePtr>]: the entries in iteration
    order, that is by increasing address of the record. *)
Definition CreatedNodesMap := list (NodeSerialization * NodeId).

(** The methods called on a node, on its effect and on the application;
    [swapInput], [disconnectInput], [restoreKnobsLinks] and the factory
    [createNodeForProjectLoading] change the node objects, the others read
    them.  The node the method is called on comes first.  [getNodes] is the
    member list of a collection object, and [toInt] is [QString::toInt],
    [None] when it reports failure. *)
Class NodeApi (G : Type) := {
  getMaxInputCount : G -> NodeId -> Z;
  isOutputNode : G -> NodeId -> bool;
  getPreferredInputForConnection : G -> NodeId -> Z;
  swapInput : NodeId -> NodePtr -> Z -> G -> G;
  disconnectInput : NodeId -> NodeId -> G -> G;
  getOutputs : G -> NodeId -> list (NodeId * list Z);
  getInputNumberFromLabel : G -> NodeId -> string -> Z;
  isInputMask : G -> NodeId -> Z -> bool;
  getGroup : G -> NodeId -> option CollectionId;
  getScriptName : G -> NodeId -> string;
  getPluginID : G -> NodeId -> string;
  getMajorVersion : G -> NodeId -> Z;
  toNodeGroup : G -> NodeId -> option CollectionId;
  restoreKnobsLinks :
    NodeId -> NodeSerialization -> CreatedNodesMap -> G -> G;
  getNodes : G -> CollectionId -> list NodeId;
  createNodeForProjectLoading :
    NodeSerialization -> CollectionId -> G -> NodePtr * G;
  toInt : string -> option Z
}.

(** Calls on the application: the load status and the error log. *)
Inductive AppEvent :=
  | StatusCreatingNodes
  | StatusRestoringLinks
  | LogNodeDoesNotExist (s : NodeSerialization)
  | LogReplacedByStub (s : NodeSerialization)
  | LogLoadedWithVersion (s : NodeSerialization) (node : NodeId)
  | LogCouldNotFindInput (node : NodeId) (inputNodeScriptName : string).

Section Wiring.
Context {G : Type} `{!NodeApi G} `{!Externals}.

(** ** NodeCollection::autoConnectNodes *)

(** The decision part: [true] to connect [created] as input of
    [selected], [false] to connect it as output. *)
Definition connectAsInput (g : G) (selected created : NodeId) : bool :=
  if isOutputNode g selected then true
  else if isOutputNode g created then false
  else if getMaxInputCount g created =? 0 then true
  else false.

(** The nodes that were connected to [selected] are connected to
    [created] instead. *)
Definition moveOutputs (selected created : NodeId) (g : G) : G :=
  fold_left
    (fun g (it : NodeId * list Z) =>
       fold_left (fun g it2 => swapInput it.1 (Some created) it2 g)
         it.2 (disconnectInput it.1 selected g))
    (getOutputs g selected) g.

Definition autoConnectNodes (g : G) (selected created : NodeId)
    : G * bool :=
  if (getMaxInputCount g selected =? 0)
     && (getMaxInputCount g created =? 0) then (g, false)
  else if isOutputNode g selected && isOutputNode g created
  then (g, false)
  else if connectAsInput g selected created then
    let selectedInput := getPreferredInputForConnection g selected in
    if bool_decide (selectedInput ≠ -1)
    then (swapInput selected (Some created) selectedInput g, true)
    else (g, false)
  else
    let g1 :=
      if negb (isOutputNode g created)
      then moveOutputs selected created g else g in
    let createdInput := getPreferredInputForConnection g1 created in
    if bool_decide (createdInput ≠ -1)
    then (swapInput created (Some selected) createdInput g1, true)
    else (g1, false).

(** ** The link restorer *)

(** [std::map::insert]: keeps the entries ordered by key and leaves an
    existing entry alone. *)
Fixpoint createdNodes_insert (k : NodeSerialization) (v : NodeId)
    (m : CreatedNodesMap) : CreatedNodesMap :=
  match m with
  | [] => [(k, v)]
  | e :: m' =>
      if (serAddr k <? serAddr e.1)%nat then (k, v) :: m
      else if (serAddr k =? serAddr e.1)%nat then m
      else e :: createdNodes_insert k v m'
  end.

Definition findSerializedNodeWithScriptName (g : G)
    (nodeScriptName : string) (createdNodes : CreatedNodesMap)
    (allNodesInGroup : list NodeId) (allowSearchInAllNodes : bool)
    : NodePtr :=
  match find (fun it : NodeSerialization * NodeId =>
                bool_decide (_nodeScriptName it.1 = nodeScriptName))
             createdNodes with
  | Some it => Some it.2
  | None =>
      if allowSearchInAllNodes
      then find (fun it => bool_decide (getScriptName g it = nodeScriptName))
             allNodesInGroup
      else None
  end.

(** [NodeCollection::getNodeByName], that is [findNodeInternal] with an
    empty [recurseName]. *)
Definition getNodeByName (g : G) (group : CollectionId) (name : string)
    : NodePtr :=
  find (fun it => bool_decide (getScriptName g it = name))
    (getNodes g group).

(** The search for the mask of a given index: the [for] loop of
    [restoreInput] from slot [i], with [steps] slots left. *)
Fixpoint findMaskIndex (isMask : Z -> bool) (steps : nat) (i : Z)
    (maskIndex : Z) (index : Z) : Z :=
  match steps with
  | O => index
  | S steps' =>
      if isMask i then
        if maskIndex =? index then i
        else index
      else findMaskIndex isMask steps' (i + 1) maskIndex index
  end.

(** The input number [restoreInput] computes from the label, and what it
    writes to the error log on the way. *)
Definition restoreInput_index (g : G) (node : NodeId)
    (inputLabel inputNodeScriptName : string) (isMaskInput : bool)
    : Z * list AppEvent :=
  let index :=
    if bool_decide (inputLabel = "") then -1
    else getInputNumberFromLabel g node inputLabel in
  if index =? -1 then
    let index := match toInt inputLabel with
                 | Some k => k
                 | None => -1
                 end in
    let log := if index =? -1
               then [LogCouldNotFindInput node inputNodeScriptName]
               else [] in
    if isMaskInput then
      let nInputs := getMaxInputCount g node in
      (findMaskIndex (isInputMask g node) (Z.to_nat nInputs) 0 0 index,
       log)
    else (index, log)
  else (index, []).

Definition restoreInput (node : NodeId)
    (inputLabel inputNodeScriptName : string)
    (createdNodes : CreatedNodesMap) (allNodesInGroup : list NodeId)
    (allowSearchInAllNodes isMaskInput : bool) (g : G)
    : G * list AppEvent :=
  if bool_decide (inputNodeScriptName = "") then (g, [])
  else
    let '(index, log) :=
      restoreInput_index g node inputLabel inputNodeScriptName
        isMaskInput in
    match getGroup g node with
    | None => (g, log)
    | Some _ =>
        match findSerializedNodeWithScriptName g inputNodeScriptName
                createdNodes allNodesInGroup allowSearchInAllNodes with
        | None => (g, log)
        | Some foundNode => (swapInput node (Some foundNode) index g, log)
        end
    end.

Definition restoreInputs (node : NodeId)
    (inputsMap : list (string * string)) (createdNodes : CreatedNodesMap)
    (allNodesInGroup : list NodeId)
    (allowSearchInAllNodes isMaskInputs : bool) (g : G)
    : G * list AppEvent :=
  fold_left
    (fun (st : G * list AppEvent) (it : string * string) =>
       let '(g', log) :=
         restoreInput node it.1 it.2 createdNodes allNodesInGroup
           allowSearchInAllNodes isMaskInputs st.1 in
       (g', st.2 ++ log))
    inputsMap (g, []).

(** One record of [restoreLinksRecursive]; [createdNodes] is [None] for
    the null pointer passed for sub-groups. *)
Fixpoint restoreLinks_record (group : CollectionId)
    (createdNodes : option CreatedNodesMap) (it : NodeSerialization)
    (g : G) : G :=
  let foundNode :=
    match createdNodes with
    | Some m =>
        findSerializedNodeWithScriptName g (_nodeScriptName it) m [] false
    | None => None
    end in
  let foundNode :=
    match foundNode with
    | Some n => Some n
    | None => getNodeByName g group (_nodeScriptName it)
    end in
  match foundNode with
  | None => g
  | Some n =>
      let g1 :=
        restoreKnobsLinks n it
          (match createdNodes with Some m => m | None => [] end) g in
      match toNodeGroup g1 n with
      | Some isGroup =>
          (fix children (l : list NodeSerialization) (g : G) : G :=
             match l with
             | [] => g
             | c :: l' => children l' (restoreLinks_record isGroup None c g)
             end) (_children it) g1
      | None => g1
      end
  end.

Definition restoreLinksRecursive (group : CollectionId)
    (nodes : NodeSerializationList)
    (createdNodes : option CreatedNodesMap) (g : G) : G :=
  fold_left (fun g it => restoreLinks_record group createdNodes it g)
    nodes g.

(** ** NodeCollection::createNodesFromSerialization *)

(** The variables of the first loop. *)
Record CreateState := mkCreateState {
  hasError : bool;
  createdNodesOut : option (list NodePtr);
  localCreatedNodes : CreatedNodesMap;
  appEvents : list AppEvent;
  world : G
}.

Definition createNode_step (thisShared : CollectionId) (st : CreateState)
    (it : NodeSerialization) : CreateState :=
  let '(node, g) := createNodeForProjectLoading it thisShared (world st) in
  let out := match createdNodesOut st with
             | Some l => Some (l ++ [node])
             | None => None
             end in
  match node with
  | None =>
      mkCreateState true out (localCreatedNodes st)
        (appEvents st ++ [LogNodeDoesNotExist it]) g
  | Some n =>
      let '(err, log) :=
        if bool_decide (getPluginID g n = PLUGINID_NATRON_STUB)
        then (true, [LogReplacedByStub it])
        else if bool_decide (_pluginMajorVersion it ≠ -1)
                && bool_decide (getMajorVersion g n
                                ≠ _pluginMajorVersion it)
        then (hasError st, [LogLoadedWithVersion it n])
        else (hasError st, []) in
      mkCreateState err out
        (createdNodes_insert it n (localCreatedNodes st))
        (appEvents st ++ log) g
  end.

(** The second loop: the inputs, then the masks, of one created node. *)
Definition connect_step (createdNodes : CreatedNodesMap)
    (allNodesInGroup : list NodeId) (connectToExternalNodes : bool)
    (st : G * list AppEvent) (it : NodeSerialization * NodeId)
    : G * list AppEvent :=
  let '(g1, log1) :=
    restoreInputs it.2 (_inputs it.1) createdNodes allNodesInGroup
      connectToExternalNodes false st.1 in
  let '(g2, log2) :=
    restoreInputs it.2 (_masks it.1) createdNodes allNodesInGroup
      connectToExternalNodes true g1 in
  (g2, st.2 ++ log1 ++ log2).

(** The result: the returned boolean, [*createdNodesOut], the calls on
    the application in order, and the node objects afterwards.
    [connectToExternalNodes] is the one flag of [flags] that is read. *)
Definition createNodesFromSerialization (thisShared : CollectionId)
    (serializedNodes : NodeSerializationList)
    (connectToExternalNodes : bool) (out : option (list NodePtr)) (g : G)
    : bool * option (list NodePtr) * list AppEvent * G :=
  let st :=
    fold_left (createNode_step thisShared) serializedNodes
      (mkCreateState false out [] [StatusCreatingNodes] g) in
  let allNodesInGroup := getNodes (world st) thisShared in
  let '(g2, log2) :=
    fold_left
      (connect_step (localCreatedNodes st) allNodesInGroup
         connectToExternalNodes)
      (localCreatedNodes st) (world st, []) in
  let g3 :=
    restoreLinksRecursive thisShared serializedNodes
      (Some (localCreatedNodes st)) g2 in
  (negb (hasError st), createdNodesOut st,
   appEvents st ++ [StatusRestoringLinks] ++ log2, g3).
End Wiring.

(** ** A concrete world of node objects

    The general results below hold for every implementation of [NodeApi]
    and [Externals]; the examples run on this one. *)

Module Simple.

(** Modelled from the spec: the normalisation of a base name into a
    script-safe identifier "stripping non-alphanumeric characters"
    ([makeNameScriptFriendly] is in the Python binding code). *)
Definition isAlnum (ch : ascii) : bool :=
  let n := nat_of_ascii ch in
  ((48 <=? n) && (n <=? 57) || (65 <=? n) && (n <=? 90)
   || (97 <=? n) && (n <=? 122))%nat.

Fixpoint stripNonAlnum (s : string) : string :=
  match s with
  | EmptyString => EmptyString
  | String ch s' =>
      if isAlnum ch then String ch (stripNonAlnum s') else stripNonAlnum s'
  end.

(** Modelled from the spec: "attempt to parse it as a numeric port index"
    ([QString::toInt] is Qt's): a non-empty string of decimal digits. *)
Fixpoint parseDigits (s : string) (acc : Z) : option Z :=
  match s with
  | EmptyString => Some acc
  | String ch s' =>
      let n := nat_of_ascii ch in
      if ((48 <=? n) && (n <=? 57))%nat
      then parseDigits s' (10 * acc + Z.of_nat (n - 48))
      else None
  end.

Definition parseInt (s : string) : option Z :=
  match s with
  | EmptyString => None
  | _ => parseDigits s 0
  end.

(** Modelled from the spec: the normalisation above, and the identifiers
of the built-in Output and Stub plug-ins (Engine/EngineFwd and the plug-in
headers). *)
#[global] Instance externals : Externals := {|
  makeNameScriptFriendly := stripNonAlnum;
  PLUGINID_NATRON_OUTPUT := "fr.inria.built-in.Output";
  PLUGINID_NATRON_STUB := "fr.inria.built-in.Stub"
|}.

(** Modelled from the spec: a node "has a script identifier, ... an ordered
    set of input slots (each optionally mask-flagged), an output set
    (multiple consumers per node), and a capability flag for being an
    output-terminal ... or a nested-group container" ([Node] is in
    Engine/Node.cpp). *)
Record InputSlot := mkInputSlot {
  slotLabel : string;
  slotIsMask : bool;
  slotSource : NodePtr
}.

Record NodeObject := mkNodeObject {
  objScriptName : string;
  objPluginID : string;
  objMajorVersion : Z;
  objIsOutput : bool;
  objSlots : list InputSlot;
  objGroup : option CollectionId;
  objNestedGroup : option CollectionId
}.

(** Modelled from the spec: a loaded plug-in, for the "external factory"
    of Phase 1: its version, whether instantiation succeeds, and the
    input slots of a fresh node. *)
Record PluginDesc := mkPluginDesc {
  plugMajorVersion : Z;
  plugCreates : bool;
  plugIsOutput : bool;
  plugSlots : list (string * bool)
}.

(** Modelled from the spec: the state the "external collaborators" hold,
    that is the node objects (a [NodeId] is a position in [objects]), the
    member lists of the collections and the loaded plug-ins. *)
Record World := mkWorld {
  objects : list NodeObject;
  members : list (list NodeId);
  plugins : list (string * PluginDesc)
}.

Definition object (w : World) (n : NodeId) : option NodeObject :=
  objects w !! n.

Definition slotsOf (w : World) (n : NodeId) : list InputSlot :=
  match object w n with Some o => objSlots o | None => [] end.

Definition setSlots (n : NodeId) (f : list InputSlot -> list InputSlot)
    (w : World) : World :=
  mkWorld
    (alter (fun o => mkNodeObject (objScriptName o) (objPluginID o)
                       (objMajorVersion o) (objIsOutput o)
                       (f (objSlots o)) (objGroup o) (objNestedGroup o))
       n (objects w))
    (members w) (plugins w).

(** The position of the first element passing a test, or -1. *)
Fixpoint firstIndex {A : Type} (test : A -> bool) (l : list A) (i : Z)
    : Z :=
  match l with
  | [] => -1
  | x :: l' => if test x then i else firstIndex test l' (i + 1)
  end.

(** The positions of the elements passing a test. *)
Fixpoint indices {A : Type} (test : A -> bool) (l : list A) (i : Z)
    : list Z :=
  match l with
  | [] => []
  | x :: l' =>
      if test x then i :: indices test l' (i + 1)
      else indices test l' (i + 1)
  end.

Definition isFree (s : InputSlot) : bool :=
  bool_decide (slotSource s = None).

Definition fedBy (n : NodeId) (s : InputSlot) : bool :=
  bool_decide (slotSource s = Some n).

Definition setSource (src : NodePtr) (s : InputSlot) : InputSlot :=
  mkInputSlot (slotLabel s) (slotIsMask s) src.

(** Modelled from the spec: "the callee's preferred (first free ...)
    slot; if no such slot exists" the answer is -1. *)
Definition preferredInput (w : World) (n : NodeId) : Z :=
  firstIndex isFree (slotsOf w n) 0.

(** Modelled from the spec: the slot [inputNumber] of [n] is now fed by
    [input]; a number that is no slot of the node changes nothing. *)
Definition swap (n : NodeId) (input : NodePtr) (inputNumber : Z)
    (w : World) : World :=
  if (0 <=? inputNumber) then
    setSlots n (alter (setSource input) (Z.to_nat inputNumber)) w
  else w.

(** Modelled from the spec: every slot of [n] fed by [input] is freed. *)
Definition disconnect (n input : NodeId) (w : World) : World :=
  setSlots n
    (map (fun s => if fedBy input s then setSource None s else s)) w.

(** Modelled from the spec: the "output set (multiple consumers per
    node)": each consumer of [n] with the slots [n] feeds. *)
Definition outputsOf (w : World) (n : NodeId) : list (NodeId * list Z) :=
  filter (fun e : NodeId * list Z => e.2 ≠ [])
    (imap (fun m o => (m, indices (fedBy n) (objSlots o) 0)) (objects w)).

Definition freshSlots (p : PluginDesc) : list InputSlot :=
  map (fun s : string * bool => mkInputSlot s.1 s.2 None) (plugSlots p).

Definition appendMember (coll : CollectionId) (n : NodeId)
    (w : World) (o : NodeObject) : World :=
  mkWorld (objects w ++ [o])
    (alter (fun l => l ++ [n]) coll (members w)) (plugins w).

(** Modelled from the spec, Phase 1: "Plugin not found -> substitute a
    pass-through stub node"; "Major version mismatch -> keep the created
    node"; "Node creation otherwise fails -> ... skip this record".  The
    node keeps the script-name of its record. *)
Definition createNode (s : NodeSerialization) (coll : CollectionId)
    (w : World) : NodePtr * World :=
  let n := length (objects w) in
  match list_find (fun e : string * PluginDesc => e.1 = _pluginID s)
          (plugins w) with
  | None =>
      (Some n,
       appendMember coll n w
         (mkNodeObject (_nodeScriptName s) PLUGINID_NATRON_STUB 1 false
            [mkInputSlot "Source" false None] (Some coll) None))
  | Some (_, (_, p)) =>
      if plugCreates p then
        (Some n,
         appendMember coll n w
           (mkNodeObject (_nodeScriptName s) (_pluginID s)
              (plugMajorVersion p) (plugIsOutput p) (freshSlots p)
              (Some coll) None))
      else (None, w)
  end.

(** Modelled from the spec: the methods of [Node], [EffectInstance] and
[AppManager] called by [autoConnectNodes] and the restorer (Engine/Node.cpp
and others), on the data model of the specification; parameter links are
left out ([restoreKnobsLinks] changes nothing). *)
#[global] Instance nodeApi : NodeApi World := {|
  getMaxInputCount w n := Z.of_nat (length (slotsOf w n));
  isOutputNode w n :=
    match object w n with Some o => objIsOutput o | None => false end;
  getPreferredInputForConnection := preferredInput;
  swapInput := swap;
  disconnectInput := disconnect;
  getOutputs := outputsOf;
  getInputNumberFromLabel w n label :=
    firstIndex (fun s => bool_decide (slotLabel s = label)) (slotsOf w n) 0;
  isInputMask w n i :=
    if 0 <=? i then
      match slotsOf w n !! Z.to_nat i with
      | Some s => slotIsMask s
      | None => false
      end
    else false;
  getGroup w n :=
    match object w n with Some o => objGroup o | None => None end;
  getScriptName w n :=
    match object w n with Some o => objScriptName o | None => "" end;
  getPluginID w n :=
    match object w n with Some o => objPluginID o | None => "" end;
  getMajorVersion w n :=
    match object w n with Some o => objMajorVersion o | None => 0 end;
  toNodeGroup w n :=
    match object w n with Some o => objNestedGroup o | None => None end;
  restoreKnobsLinks _ _ _ w := w;
  getNodes w coll := default [] (members w !! coll);
  createNodeForProjectLoading := createNode;
  toInt := parseInt
|}.

End Simple.

(** ** Vocabulary of the statements *)

(** A node that is neither a reader nor a group, for the examples. *)
Definition plainNode (a : NodeId) (name : string) : Node :=
  mkNode a name false false false None None.

(** A reader whose frame range is [first, last]. *)
Definition readerNode (a : NodeId) (name : string) (first last : Z) : Node :=
  mkNode a name true false false (Some (first, last)) None.

(** A group node holding [l], with no knobs and no ports. *)
Definition groupNode (a : NodeId) (name : string) (l : list Node) : Node :=
  mkNode a name false false false None
    (Some (mkNodeCollection l false
             (Some (mkNodeGroupPrivate [] [] false false [])))).

(** [x] comes before every occurrence of [y] in [l]. *)
Definition Precedes {A : Type} (x y : A) (l : list A) : Prop :=
  forall before after, l = before ++ y :: after -> x ∈ before.

(** What the teardown of one member contributes to the first phase. *)
Definition clearContainers (l : list Node) : list TeardownEvent :=
  flat_map (fun it => if isGroupNode it then clearNodes_group it else []) l.

(** The collection seen as the nested collection of a group node. *)
Definition asGroupNode (c : NodeCollection) : Node :=
  mkNode 0 "" false false false None (Some c).

(** A member other than [node] carries the script-name [name]. *)
Definition nameTaken (c : NodeCollection) (node : NodePtr) (name : string)
    : Prop :=
  exists it, it ∈ nodes c /\ Some (nodeAddr it) ≠ node
             /\ getScriptName_mt_safe it = name.

(** The collection is a group one of whose knobs is called [cpy]. *)
Definition knobNamed (c : NodeCollection) (cpy : string) : Prop :=
  exists g, isNodeGroup c = Some g /\ cpy ∈ knobs g.

(** The first name [checkNodeName] tries. *)
Definition firstCandidate (cpy : string) (appendDigit : bool) : string :=
  if appendDigit then cpy +:+ pretty 1 else cpy.

(** The base name as the specification words it: a trailing "FX" is
    stripped when the label is longer than that suffix. *)
Definition baseName_stripping_FX (pluginLabel : string) : string :=
  let size := String.length pluginLabel in
  if (2 <? size)%nat
     && bool_decide (String.get (size - 1)%nat pluginLabel = Some "X"%char)
     && bool_decide (String.get (size - 2)%nat pluginLabel = Some "F"%char)
  then String.substring 0 (size - 2)%nat pluginLabel
  else pluginLabel.

(** Every node added by [calls] carries a script-name that [checkNodeName]
    resolved against the collection the node is added to. *)
Fixpoint namesResolved `{!Externals} (c : NodeCollection)
    (calls : list MembershipCall) : Prop :=
  match calls with
  | [] => True
  | CallAddNode node :: rest =>
      (exists baseName appendDigit errorIfExists,
          checkNodeName c None baseName appendDigit errorIfExists
          = Some (inr (getScriptName_mt_safe node)))
      /\ namesResolved (addNode c node) rest
  | CallRemoveNode node :: rest => namesResolved (removeNode c node) rest
  end.

(** The failure conditions of [checkNodeName]. *)
Definition invalidName `{!Externals} (baseName : string) : Prop :=
  baseName = "" \/ makeNameScriptFriendly baseName = "".

Definition nameExists `{!Externals} (c : NodeCollection) (node : NodePtr)
    (baseName : string) (appendDigit errorIfExists : bool) : Prop :=
  nameTaken c node
    (firstCandidate (makeNameScriptFriendly baseName) appendDigit)
  /\ (errorIfExists = true \/ appendDigit = false).

(** A group-input node, for the examples. *)
Definition groupInputNode (a : NodeId) (name : string) : Node :=
  mkNode a name false true false None None.

(** An empty group, and the same group after [notifyNodeActivated] was
    called on it for the group-input node at address 7, which was never
    added to it. *)
Definition emptyGroupPrivate : NodeGroupPrivate :=
  mkNodeGroupPrivate [] [] false false [].

Definition groupWithStrayInput : NodeCollection :=
  mkNodeCollection [] false
    (Some (notifyNodeActivated emptyGroupPrivate (groupInputNode 7 "Input1"))).

(** [l'] is the list of weak pointers [l] without its first entry for the
    node [p]: the entries before and after that entry are kept, in their
    order, and a list without entry for [p] is kept as it is. *)
Definition firstEntryErased (p : NodeId) (l l' : list NodePtr) : Prop :=
  (Some p ∉ l -> l' = l)
  /\ (forall l1 l2, l = l1 ++ Some p :: l2 -> Some p ∉ l1 -> l' = l1 ++ l2).

(** A group of which the nodes 1 and 7 are inputs and the nodes 7 and 9
    outputs, as after [notifyNodeActivated] for each of them, and of which
    only the node 1 is a member. *)
Definition groupWithStrayPorts : NodeCollection :=
  mkNodeCollection [groupInputNode 1 "Input1"] false
    (Some (mkNodeGroupPrivate [Some 1%nat; Some 7%nat; Some 7%nat]
             [Some 9%nat; Some 7%nat] false false [])).

(** The first mask-capable slot among [steps] slots from slot [i]. *)
Fixpoint firstMaskSlot (isMask : Z -> bool) (steps : nat) (i : Z)
    : option Z :=
  match steps with
  | O => None
  | S steps' =>
      if isMask i then Some i else firstMaskSlot isMask steps' (i + 1)
  end.

(** The two guards at the head of [autoConnectNodes]. *)
Definition bothSourceless {G : Type} `{!NodeApi G} (g : G)
    (selected created : NodeId) : Prop :=
  getMaxInputCount g selected = 0 /\ getMaxInputCount g created = 0.

Definition bothOutputs {G : Type} `{!NodeApi G} (g : G)
    (selected created : NodeId) : Prop :=
  isOutputNode g selected = true /\ isOutputNode g created = true.

(** Worlds for the examples.  In [spliceWorld], node 0 ("Blur1") feeds the
    only slot of node 2 ("Grade1"), and the only slot of node 1 ("Merge1")
    is already fed by node 3 ("Read1"). *)
Definition spliceWorld : Simple.World :=
  Simple.mkWorld
    [Simple.mkNodeObject "Blur1" "net.Blur" 1 false
       [Simple.mkInputSlot "Source" false None] (Some 0%nat) None;
     Simple.mkNodeObject "Merge1" "net.Merge" 1 false
       [Simple.mkInputSlot "A" false (Some 3%nat)] (Some 0%nat) None;
     Simple.mkNodeObject "Grade1" "net.Grade" 1 false
       [Simple.mkInputSlot "Source" false (Some 0%nat)] (Some 0%nat) None;
     Simple.mkNodeObject "Read1" "net.Read" 1 false [] (Some 0%nat) None]
    [[0; 1; 2; 3]%nat] [].

(** In [maskWorld], node 0 ("Merge1") has a plain input and two masks, and
    node 1 ("Roto1") has no input. *)
Definition maskWorld : Simple.World :=
  Simple.mkWorld
    [Simple.mkNodeObject "Merge1" "net.Merge" 1 false
       [Simple.mkInputSlot "A" false None;
        Simple.mkInputSlot "Mask" true None;
        Simple.mkInputSlot "Mask2" true None] (Some 0%nat) None;
     Simple.mkNodeObject "Roto1" "net.Roto" 1 false [] (Some 0%nat) None]
    [[0; 1]%nat] [].

(** The log entries after which [createNodesFromSerialization] sets
    [hasError]. *)
Definition isCreationError (e : AppEvent) : bool :=
  match e with
  | LogNodeDoesNotExist _ | LogReplacedByStub _ => true
  | _ => false
  end.

(** ** The restoration of a batch, as the specification describes it

    The definitions of this section follow the words of the specification:
    the factory is asked for one node per record, the references of the
    records that received a node are resolved and connected one by one, a
    reference that cannot be resolved being skipped.
    [createNodesFromSerialization] is compared with them. *)

(** What the factory answered for one record: the pointer it gave, and the
    node objects right after the call. *)
Record FactoryAnswer (G : Type) := mkFactoryAnswer {
  answerRecord : NodeSerialization;
  answerNode : NodePtr;
  answerWorld : G
}.
Arguments mkFactoryAnswer {G} _ _ _.
Arguments answerRecord {G} _.
Arguments answerNode {G} _.
Arguments answerWorld {G} _.

Section Restoration.
Context {G : Type} `{!NodeApi G} `{!Externals}.

(** The factory called on the records of the batch, in order. *)
Fixpoint factoryAnswers (thisShared : CollectionId)
    (l : NodeSerializationList) (g : G) : list (FactoryAnswer G) :=
  match l with
  | [] => []
  | s :: l' =>
      let r := createNodeForProjectLoading s thisShared g in
      mkFactoryAnswer s r.1 r.2 :: factoryAnswers thisShared l' r.2
  end.

(** The node objects after the last call of the factory. *)
Definition afterFactory (answers : list (FactoryAnswer G)) (g : G) : G :=
  fold_left (fun _ a => answerWorld a) answers g.

(** The anomaly that makes the batch fail: the record received no node,
    or the node it received is a stub for a plug-in that is missing. *)
Definition noNodeOrStub (a : FactoryAnswer G) : Prop :=
  match answerNode a with
  | None => True
  | Some n => getPluginID (answerWorld a) n = PLUGINID_NATRON_STUB
  end.

(** The anomaly that is only reported: the record received the node [n],
    no stub, of another major version than the one that saved it. *)
Definition otherMajorVersion (a : FactoryAnswer G) (n : NodeId) : Prop :=
  answerNode a = Some n
  /\ getPluginID (answerWorld a) n ≠ PLUGINID_NATRON_STUB
  /\ _pluginMajorVersion (answerRecord a) ≠ -1
  /\ getMajorVersion (answerWorld a) n ≠ _pluginMajorVersion (answerRecord a).

(** The records that received a node, with their nodes. *)
Definition insertAnswer (m : CreatedNodesMap) (a : FactoryAnswer G)
    : CreatedNodesMap :=
  match answerNode a with
  | Some n => createdNodes_insert (answerRecord a) n m
  | None => m
  end.

Definition createdOf (answers : list (FactoryAnswer G)) : CreatedNodesMap :=
  fold_left insertAnswer answers [].

(** What is written to the error log for one answer. *)
Definition creationLog (a : FactoryAnswer G) : list AppEvent :=
  match answerNode a with
  | None => [LogNodeDoesNotExist (answerRecord a)]
  | Some n =>
      if bool_decide (getPluginID (answerWorld a) n = PLUGINID_NATRON_STUB)
      then [LogReplacedByStub (answerRecord a)]
      else if bool_decide (_pluginMajorVersion (answerRecord a) ≠ -1)
              && bool_decide (getMajorVersion (answerWorld a) n
                              ≠ _pluginMajorVersion (answerRecord a))
      then [LogLoadedWithVersion (answerRecord a) n]
      else []
  end.

(** One reference [w] of a record, from an input label to the script-name
    of a node, wired on the node [node] created for the record: a
    reference without name, on a node without group, or whose name
    resolves to no node, is skipped; any other is connected by one
    [swapInput], on the input number found for the label. *)
Definition wire (created : CreatedNodesMap) (members : list NodeId)
    (external isMask : bool) (node : NodeId) (g : G) (w : string * string)
    : G :=
  if bool_decide (w.2 = "") then g
  else
    match getGroup g node with
    | None => g
    | Some _ =>
        match findSerializedNodeWithScriptName g w.2 created members
                external with
        | None => g
        | Some found =>
            swapInput node (Some found)
              (restoreInput_index g node w.1 w.2 isMask).1 g
        end
    end.

(** Every reference of every record that received a node: the inputs of
    the record, then its masks. *)
Definition wireAll (created : CreatedNodesMap) (members : list NodeId)
    (external : bool) (g : G) : G :=
  fold_left
    (fun g (it : NodeSerialization * NodeId) =>
       fold_left (wire created members external true it.2) (_masks it.1)
         (fold_left (wire created members external false it.2)
            (_inputs it.1) g))
    created g.
End Restoration.

(** [loadWorld] has one empty collection and one loaded plug-in, "net.Blur"
    in version 1; [blurRecord] was saved by version 2 of it and names an
    input node, "Read7", that is nowhere. *)
Definition loadWorld : Simple.World :=
  Simple.mkWorld [] [[]]
    [("net.Blur", Simple.mkPluginDesc 1 true false [("Source", false)])].

Definition blurRecord : NodeSerialization :=
  mkNodeSerialization 100 "net.Blur" 2 0 "Blur1" [("Source", "Read7")] [] [].

(** In [viewerWorld], node 0 ("Viewer1") is an output node with one free
    input and node 1 ("Merge1") has two free inputs. *)
Definition viewerWorld : Simple.World :=
  Simple.mkWorld
    [Simple.mkNodeObject "Viewer1" "net.Viewer" 1 true
       [Simple.mkInputSlot "1" false None] (Some 0%nat) None;
     Simple.mkNodeObject "Merge1" "net.Merge" 1 false
       [Simple.mkInputSlot "A" false None; Simple.mkInputSlot "B" false None]
       (Some 0%nat) None]
    [[0; 1]%nat] [].

(** A record of a plug-in that is not loaded. *)
Definition unknownRecord : NodeSerialization :=
  mkNodeSerialization 200 "net.Unknown" 1 0 "Unknown1" [] [] [].

(** ** Qualified names: getNodeNameAndRemainder and the look-ups by name *)

(** [std::string::find_first_of(ch)] and [find_last_of(ch)]; [None] is
    [npos]. *)
Fixpoint find_first_of (ch : ascii) (s : string) : option nat :=
  match s with
  | EmptyString => None
  | String c s' =>
      if Ascii.eqb c ch then Some 0%nat
      else match find_first_of ch s' with
           | Some i => Some (S i)
           | None => None
           end
  end.

Fixpoint find_last_of (ch : ascii) (s : string) : option nat :=
  match s with
  | EmptyString => None
  | String c s' =>
      match find_last_of ch s' with
      | Some i => Some (S i)
      | None => if Ascii.eqb c ch then Some 0%nat else None
      end
  end.

(** [s.substr(pos, std::string::npos)], for [pos] up to the size. *)
Definition substr_from (pos : nat) (s : string) : string :=
  String.substring pos (String.length s - pos) s.

(** The two strings are output parameters that are only assigned on some
    paths: the values they had come in as [name] and [remainder]. *)
Definition getNodeNameAndRemainder_LeftToRight (fullySpecifiedName : string)
    (name remainder : string) : string * string :=
  match find_first_of "."%char fullySpecifiedName with
  | Some foundDot =>
      (String.substring 0 foundDot fullySpecifiedName,
       if (foundDot + 1 <? String.length fullySpecifiedName)%nat
       then substr_from (foundDot + 1) fullySpecifiedName
       else remainder)
  | None => (fullySpecifiedName, remainder)
  end.

Definition getNodeNameAndRemainder_RightToLeft (fullySpecifiedName : string)
    (name remainder : string) : string * string :=
  match find_last_of "."%char fullySpecifiedName with
  | Some foundDot =>
      (substr_from (foundDot + 1) fullySpecifiedName,
       if (0 <? foundDot)%nat
       then String.substring 0 (foundDot - 1) fullySpecifiedName
       else remainder)
  | None => (fullySpecifiedName, remainder)
  end.

(** [isGrp->getNodeByFullySpecifiedName(recurseName)] on a group member
    [g]: the split of the name, then the loop of [findNodeInternal]. *)
Fixpoint getNodeByFullySpecifiedName_group (g : Node)
    (fullySpecifiedName : string) : option Node :=
  match isEffectNodeGroup g with
  | None => None
  | Some c =>
      (fix findNodeInternal (toFind recurseName : string) (l : list Node)
         : option Node :=
         match l with
         | [] => None
         | it :: l' =>
             if bool_decide (getScriptName_mt_safe it = toFind) then
               if negb (bool_decide (recurseName = "")) then
                 if isGroupNode it
                 then getNodeByFullySpecifiedName_group it recurseName
                 else findNodeInternal toFind recurseName l'
               else Some it
             else findNodeInternal toFind recurseName l'
         end)
        (getNodeNameAndRemainder_LeftToRight fullySpecifiedName "" "").1
        (getNodeNameAndRemainder_LeftToRight fullySpecifiedName "" "").2
        (nodes c)
  end.

(** The loop of [NodeCollectionPrivate::findNodeInternal] over the
    members. *)
Fixpoint findNodeInternal_loop (name recurseName : string) (l : list Node)
    : option Node :=
  match l with
  | [] => None
  | it :: l' =>
      if bool_decide (getScriptName_mt_safe it = name) then
        if negb (bool_decide (recurseName = "")) then
          if isGroupNode it
          then getNodeByFullySpecifiedName_group it recurseName
          else findNodeInternal_loop name recurseName l'
        else Some it
      else findNodeInternal_loop name recurseName l'
  end.

Definition findNodeInternal (c : NodeCollection) (name recurseName : string)
    : option Node :=
  findNodeInternal_loop name recurseName (nodes c).

(** [NodeCollection::getNodeByName] on the members themselves. *)
Definition NodeCollection_getNodeByName (c : NodeCollection) (name : string)
    : option Node :=
  findNodeInternal c name "".

Definition getNodeByFullySpecifiedName (c : NodeCollection)
    (fullySpecifiedName : string) : option Node :=
  let '(toFind, recurseName) :=
    getNodeNameAndRemainder_LeftToRight fullySpecifiedName "" "" in
  findNodeInternal c toFind recurseName.

(** [NodeCollection::checkIfNodeNameExists]. *)
Definition checkIfNodeNameExists (c : NodeCollection) (n : string)
    (caller : NodePtr) : bool :=
  existsb
    (fun it => bool_decide (Some (nodeAddr it) ≠ caller)
               && bool_decide (getScriptName_mt_safe it = n))
    (nodes c).

Definition hasNodes (c : NodeCollection) : bool :=
  (0 <? length (nodes c))%nat.

(** ** NodeCollection::getActiveNodesExpandGroups *)

(** [isGrp->getActiveNodesExpandGroups(nodes)] on a group member [g]. *)
Fixpoint getActiveNodesExpandGroups_group (g : Node) (out : NodesList)
    : NodesList :=
  match isEffectNodeGroup g with
  | None => out
  | Some c =>
      (fix loop (l : list Node) (out : NodesList) : NodesList :=
         match l with
         | [] => out
         | it :: l' =>
             loop l'
               (if isGroupNode it
                then getActiveNodesExpandGroups_group it (out ++ [it])
                else out ++ [it])
         end) (nodes c) out
  end.

Definition getActiveNodesExpandGroups (c : NodeCollection) (out : NodesList)
    : NodesList :=
  fold_left
    (fun out it =>
       if isGroupNode it
       then getActiveNodesExpandGroups_group it (out ++ [it])
       else out ++ [it])
    (nodes c) out.

(** ** quitAnyProcessing and clearNodesBlocking *)

(** The calls of the teardown with the calls that stop the processing of a
    node: [quitAnyProcessing_blocking(true)] or
    [quitAnyProcessing_non_blocking()]. *)
Inductive LifecycleEvent :=
  | QuitAnyProcessing (blocking : bool) (a : NodeId)
  | Teardown (e : TeardownEvent).

(** [isGrp->quitAnyProcessingInternal(blocking)] on a group member [g]. *)
Fixpoint quitAnyProcessing_group (blocking : bool) (g : Node)
    : list LifecycleEvent :=
  match isEffectNodeGroup g with
  | None => []
  | Some c =>
      (fix loop (l : list Node) : list LifecycleEvent :=
         match l with
         | [] => []
         | it :: l' =>
             QuitAnyProcessing blocking (nodeAddr it)
             :: (if isGroupNode it
                 then quitAnyProcessing_group blocking it else [])
             ++ loop l'
         end) (nodes c)
  end.

Definition quitAnyProcessingInternal (c : NodeCollection) (blocking : bool)
    : list LifecycleEvent :=
  flat_map
    (fun it =>
       QuitAnyProcessing blocking (nodeAddr it)
       :: (if isGroupNode it then quitAnyProcessing_group blocking it else []))
    (nodes c).

Definition quitAnyProcessingForAllNodes_blocking (c : NodeCollection)
    : list LifecycleEvent :=
  quitAnyProcessingInternal c true.

Definition clearNodesBlocking (c : NodeCollection)
    : list LifecycleEvent * NodeCollection :=
  (quitAnyProcessingForAllNodes_blocking c
     ++ map Teardown (clearNodesInternal c).1,
   (clearNodesInternal c).2).

(** ** The derived state of a NodeGroup *)

(** [NodeGroup::getMaxInputCount]: the size of the input list, which the
    cast to [int] leaves as it is below 2^31 entries. *)
Definition NodeGroup_getMaxInputCount (g : NodeGroupPrivate) : Z :=
  Z.of_nat (length (inputs g)).

(** [NodeGroup::getOutputNode]: the front of the outputs, locked. *)
Definition getOutputNode (g : NodeGroupPrivate) : NodePtr :=
  match outputs g with
  | [] => None
  | front :: _ => front
  end.

(** [NodeGroup::getInputs]: the inputs that are still alive. *)
Definition getInputs (g : NodeGroupPrivate) : list NodeId :=
  fold_left
    (fun inputs input =>
       match input with
       | None => inputs
       | Some p => inputs ++ [p]
       end)
    (inputs g) [].

(** ** NodeCollection::fixPathName, on one value *)

(** What [fixPathName] does to the value [filepath] of a file knob: the
    test on the leading ["[oldName]"] and the [replace]; the result is the
    value the knob has afterwards. *)
Definition fixPathName_value (oldName newName filepath : string) : string :=
  if (String.length oldName + 2 <=? String.length filepath)%nat
     && bool_decide (String.get 0 filepath = Some "["%char)
     && bool_decide
          (String.get (String.length oldName + 1) filepath = Some "]"%char)
     && bool_decide
          (String.substring 1 (String.length oldName) filepath = oldName)
  then String.substring 0 1 filepath
       +:+ newName
       +:+ substr_from (1 + String.length oldName) filepath
  else filepath.

(** ** Vocabulary of the further statements *)

(** [std::map::find] by the address of the record. *)
Definition createdNodes_find (addr : nat) (m : CreatedNodesMap)
    : option NodeId :=
  match find (fun e : NodeSerialization * NodeId =>
                (serAddr e.1 =? addr)%nat) m with
  | Some e => Some e.2
  | None => None
  end.

(** The keys of the map, in iteration order. *)
Definition createdNodes_keys (m : CreatedNodesMap) : list nat :=
  map (fun e : NodeSerialization * NodeId => serAddr e.1) m.

(** The string has no dot. *)
Definition dotFree (s : string) : Prop := find_first_of "."%char s = None.

(** A node that gives [recomputeFrameRangeForAllReaders] nothing to read:
    it is no reader, or its frame range cannot be computed, or both bounds
    are the sentinels. *)
Definition givesNoRange (n : Node) : Prop :=
  isReader n = false
  \/ getFrameRange_public n = None
  \/ getFrameRange_public n = Some (INT_MIN, INT_MAX).

(** The values an [int] holds. *)
Definition fitsInt (z : Z) : Prop := INT_MIN <= z <= INT_MAX.

(** A node whose frame range the casts of
    [recomputeFrameRangeForAllReadersInternal] leave as it is.  The code
    reads the bounds as [double]s ([RangeD]) and stores them in [int]s; a
    bound of the model is a whole number, and the cast keeps a whole
    number that an [int] holds.  Only the bounds of a reader are read. *)
Definition boundsFitInt (n : Node) : Prop :=
  isReader n = false
  \/ match getFrameRange_public n with
     | Some (tmin, tmax) => fitsInt tmin /\ fitsInt tmax
     | None => True
     end.

(** The weak pointers of a list that are still alive. *)
Definition alive (l : list NodePtr) : list NodeId := omap id l.

(** The log entry for a record for which no node was created. *)
Definition isNodeDoesNotExist (e : AppEvent) : bool :=
  match e with
  | LogNodeDoesNotExist _ => true
  | _ => false
  end.

Definition isNull (p : NodePtr) : bool :=
  match p with
  | None => true
  | Some _ => false
  end.

(** * Properties *)

(** ** Reasoning on nested collections *)

(** Induction on a node with the members of its nested collection. *)
Lemma Node_nested_ind (P : Node -> Prop) :
  (forall n,
      (forall c, isEffectNodeGroup n = Some c -> Forall P (nodes c)) -> P n) ->
  forall n, P n.
Proof.
  intros step. fix IH 1. intros n. apply step.
  destruct n as [a s r gi go fr [c|]]; simpl; intros c' Hc; [|discriminate].
  injection Hc as <-. destruct c as [l gr ig]; simpl.
  induction l as [|m l IHl]; constructor; [apply IH | exact IHl].
Qed.

Lemma isGroupNode_Some n c : isEffectNodeGroup n = Some c -> isGroupNode n = true.
Proof. unfold isGroupNode. by intros ->. Qed.

Lemma isGroupNode_true n :
  isGroupNode n = true -> exists c, isEffectNodeGroup n = Some c.
Proof. unfold isGroupNode. destruct (isEffectNodeGroup n); [eauto | done]. Qed.

Lemma subtree_unfold n : subtree n = n :: nestedNodes n.
Proof.
  unfold nestedNodes, allNodes. by destruct n as [a s r gi go fr [c|]].
Qed.

Lemma elem_of_allNodes n l :
  n ∈ allNodes l <-> exists m, m ∈ l /\ n ∈ subtree m.
Proof.
  unfold allNodes. rewrite list_elem_of_In, in_flat_map.
  split; intros (m & Hm & Hn); exists m; by rewrite ?list_elem_of_In in *.
Qed.

(** ** getNodes_recursive *)

Lemma getNodes_snapshot_all l out groups :
  fold_left (getNodes_snapshot_step false) l (out, groups)
  = (out ++ l, groups ++ filter (fun it => isGroupNode it = true) l).
Proof.
  revert out groups. induction l as [|it l IHl]; intros out groups; simpl.
  - by rewrite !app_nil_r.
  - unfold getNodes_snapshot_step at 1; simpl.
    rewrite filter_cons. destruct (isGroupNode it) eqn:Hg; simpl.
    + rewrite IHl. by rewrite <- !app_assoc.
    + rewrite IHl. by rewrite <- !app_assoc.
Qed.

Lemma getNodes_snapshot_onlyActive l st :
  fold_left (getNodes_snapshot_step true) l st = st.
Proof. revert st. induction l as [|it l IHl]; intros st; simpl; [done | apply IHl]. Qed.

(** The recursive call on a group member is the function itself on the
    nested collection. *)
Lemma getNodes_recursive_group_unfold onlyActive g c out :
  isEffectNodeGroup g = Some c ->
  getNodes_recursive_group onlyActive g out = getNodes_recursive c onlyActive out.
Proof.
  intros Hc. unfold getNodes_recursive.
  destruct g as [a s r gi go fr gc]; simpl in *. subst gc.
  destruct onlyActive.
  - rewrite getNodes_snapshot_onlyActive. simpl.
    generalize out. induction (nodes c) as [|it l IHl]; intros o; simpl; [done | apply IHl].
  - rewrite getNodes_snapshot_all. simpl.
    generalize (out ++ nodes c). induction (nodes c) as [|it l IHl]; intros o; simpl; [done|].
    rewrite filter_cons. destruct (isGroupNode it) eqn:Hg.
    + simpl. apply IHl.
    + simpl. apply IHl.
Qed.

(** With [onlyActive] set the function appends nothing at all. *)
Lemma getNodes_recursive_onlyActive c out :
  getNodes_recursive c true out = out.
Proof. unfold getNodes_recursive. by rewrite getNodes_snapshot_onlyActive. Qed.

Lemma getNodes_recursive_groups_elem (groups : list Node) (acc : NodesList) n :
  Forall (fun g => forall c, isEffectNodeGroup g = Some c ->
            forall out, n ∈ getNodes_recursive c false out
                        <-> n ∈ out \/ n ∈ allNodes (nodes c)) groups ->
  Forall (fun g => isGroupNode g = true) groups ->
  n ∈ fold_left (fun out g => getNodes_recursive_group false g out) groups acc
  <-> n ∈ acc \/ exists g, g ∈ groups /\ n ∈ nestedNodes g.
Proof.
  revert acc. induction groups as [|g groups IHg]; intros acc HP Hgrp; simpl.
  - split; [by left | intros [?|(g & Hg & _)]; [done | by apply elem_of_nil in Hg]].
  - apply Forall_cons in HP as [Hg HP]. apply Forall_cons in Hgrp as [Hisg Hgrp].
    apply isGroupNode_true in Hisg as [c Hc].
    rewrite IHg by done. rewrite (getNodes_recursive_group_unfold _ _ c) by done.
    rewrite (Hg c Hc). unfold nestedNodes at 2.
    split.
    + intros [[?|Hn]|(g' & Hg' & Hn)]; [by left | right; exists g | right; exists g'].
      * split; [by left|]. unfold nestedNodes. by rewrite Hc.
      * split; [by right | done].
    + intros [?|(g' & Hg' & Hn)]; [by left; left|].
      apply elem_of_cons in Hg' as [->|Hg'].
      * left; right. unfold nestedNodes in Hn. by rewrite Hc in Hn.
      * right. by exists g'.
Qed.

Lemma getNodes_recursive_level_elem c out n :
  Forall (fun g => forall c, isEffectNodeGroup g = Some c ->
            forall out, n ∈ getNodes_recursive c false out
                        <-> n ∈ out \/ n ∈ allNodes (nodes c)) (nodes c) ->
  n ∈ getNodes_recursive c false out <-> n ∈ out \/ n ∈ allNodes (nodes c).
Proof.
  intros IH. unfold getNodes_recursive. rewrite getNodes_snapshot_all. simpl.
  rewrite getNodes_recursive_groups_elem.
  - rewrite elem_of_app, elem_of_allNodes. split.
    + intros [[?|Hn]|(g' & Hg' & Hn)]; [by left | right; exists n | right; exists g'].
      * split; [done|]. rewrite subtree_unfold. by left.
      * apply list_elem_of_filter in Hg' as [_ Hg']. split; [done|].
        rewrite subtree_unfold. by right.
    + intros [?|(m & Hm & Hn)]; [by left; left|].
      rewrite subtree_unfold in Hn. apply elem_of_cons in Hn as [->|Hn]; [by left; right|].
      right. exists m. split; [|done]. apply list_elem_of_filter. split; [|done].
      unfold nestedNodes in Hn. unfold isGroupNode.
      destruct (isEffectNodeGroup m); [done | by apply elem_of_nil in Hn].
  - apply Forall_forall. intros g' Hg'. apply list_elem_of_filter in Hg' as [_ Hg'].
    rewrite Forall_forall in IH. by apply IH.
  - apply Forall_forall. intros g' Hg'. by apply list_elem_of_filter in Hg' as [? _].
Qed.

Lemma getNodes_recursive_group_elem g n :
  forall c, isEffectNodeGroup g = Some c ->
  forall out, n ∈ getNodes_recursive c false out
              <-> n ∈ out \/ n ∈ allNodes (nodes c).
Proof.
  induction g as [g IH] using Node_nested_ind. intros c Hc out.
  apply getNodes_recursive_level_elem, (IH c Hc).
Qed.

(** Without the flag, the listing holds what was there and exactly the
    members of the collection and of every nested group. *)
Lemma getNodes_recursive_all_elem c out n :
  n ∈ getNodes_recursive c false out <-> n ∈ out \/ n ∈ allNodes (nodes c).
Proof.
  apply getNodes_recursive_level_elem, Forall_forall.
  intros g _. apply getNodes_recursive_group_elem.
Qed.

(** The sibling listing, [getActiveNodes], appends every member. *)
Lemma getActiveNodes_all c out : getActiveNodes c out = out ++ nodes c.
Proof.
  unfold getActiveNodes. revert out.
  induction (nodes c) as [|it l IHl]; intros out; simpl.
  - by rewrite app_nil_r.
  - rewrite IHl. by rewrite <- app_assoc.
Qed.

(** C2, as the code behaves: with [onlyActive] set, [getNodes_recursive]
    skips every member, so it appends nothing and descends into no group,
    whatever the collection holds; a collection of one plain node shows
    it, while [getActiveNodes] lists that node. *)
Theorem getNodes_recursive_onlyActive_appends_nothing :
  (forall (c : NodeCollection) (out : NodesList),
      getNodes_recursive c true out = out)
  /\ getNodes_recursive
       (mkNodeCollection [plainNode 1 "Blur1"] false None) true [] = []
  /\ getActiveNodes
       (mkNodeCollection [plainNode 1 "Blur1"] false None) []
     = [plainNode 1 "Blur1"].
Proof.
  split; [apply getNodes_recursive_onlyActive | split; reflexivity].
Qed.

(** ** recomputeFrameRangeForAllReaders *)

Lemma recomputeFrameRange_group_unfold g c fl :
  isEffectNodeGroup g = Some c ->
  recomputeFrameRange_group g fl
  = recomputeFrameRangeForAllReadersInternal c fl false.
Proof.
  intros Hc. unfold recomputeFrameRangeForAllReadersInternal.
  destruct g as [a s r gi go fr gc]; simpl in *. subst gc.
  revert fl. induction (nodes c) as [|it l IHl]; intros fl; simpl; [done|].
  apply IHl.
Qed.

(** A reader reached with [setFrameRange] cleared only widens the range. *)
Lemma readerFrameRange_widens it fl :
  (readerFrameRange false it fl).1 <= fl.1
  /\ fl.2 <= (readerFrameRange false it fl).2.
Proof.
  unfold readerFrameRange. destruct (getFrameRange_public it) as [[tmin tmax]|];
    simpl; [|lia].
  repeat case_bool_decide; simpl; lia.
Qed.

Lemma recomputeFrameRange_step_widens fl it :
  (forall fl, (recomputeFrameRange_group it fl).1 <= fl.1
              /\ fl.2 <= (recomputeFrameRange_group it fl).2) ->
  (recomputeFrameRange_step false fl it).1 <= fl.1
  /\ fl.2 <= (recomputeFrameRange_step false fl it).2.
Proof.
  intros Hit. unfold recomputeFrameRange_step. destruct (isReader it).
  - apply readerFrameRange_widens.
  - destruct (isGroupNode it); [apply Hit | lia].
Qed.

Lemma recomputeFrameRange_fold_widens l fl :
  Forall (fun it => forall fl, (recomputeFrameRange_group it fl).1 <= fl.1
                     /\ fl.2 <= (recomputeFrameRange_group it fl).2) l ->
  (fold_left (recomputeFrameRange_step false) l fl).1 <= fl.1
  /\ fl.2 <= (fold_left (recomputeFrameRange_step false) l fl).2.
Proof.
  intros Hall. revert fl.
  induction Hall as [|it l Hit _ IHl]; intros fl; simpl; [lia|].
  specialize (IHl (recomputeFrameRange_step false fl it)).
  pose proof (recomputeFrameRange_step_widens fl it Hit). lia.
Qed.

Lemma recomputeFrameRange_group_widens g fl :
  (recomputeFrameRange_group g fl).1 <= fl.1
  /\ fl.2 <= (recomputeFrameRange_group g fl).2.
Proof.
  revert fl. induction g as [g IH] using Node_nested_ind. intros fl.
  destruct (isEffectNodeGroup g) as [cg|] eqn:Hg.
  - rewrite (recomputeFrameRange_group_unfold g cg) by done.
    apply recomputeFrameRange_fold_widens, IH, eq_refl.
  - destruct g as [a s r gi go fr gc]; simpl in *. subst gc. simpl. lia.
Qed.

(** Inside a nested group the range is only ever widened. *)
Lemma recomputeFrameRange_nested_widens c fl :
  (recomputeFrameRangeForAllReadersInternal c fl false).1 <= fl.1
  /\ fl.2 <= (recomputeFrameRangeForAllReadersInternal c fl false).2.
Proof.
  apply recomputeFrameRange_fold_widens, Forall_forall.
  intros g _ fl'. apply recomputeFrameRange_group_widens.
Qed.

(** At the level of the call every reader with a known range overwrites
    the range: [setFrameRange] is still set when the later readers are
    reached. *)
Lemma readerFrameRange_set_overwrites it fl tmin tmax :
  getFrameRange_public it = Some (tmin, tmax) ->
  tmin ≠ INT_MIN -> tmax ≠ INT_MAX ->
  readerFrameRange true it fl = (tmin, tmax).
Proof.
  intros Hr Hmin Hmax. unfold readerFrameRange. rewrite Hr.
  by rewrite !bool_decide_eq_true_2.
Qed.

(** With readers only at the level of the call, the last reader with a
    known range decides the result alone. *)
Lemma recomputeFrameRange_last_reader_wins l it hasGraph grp fl tmin tmax :
  isReader it = true ->
  getFrameRange_public it = Some (tmin, tmax) ->
  tmin ≠ INT_MIN -> tmax ≠ INT_MAX ->
  recomputeFrameRangeForAllReaders
    (mkNodeCollection (l ++ [it]) hasGraph grp) fl
  = (tmin, tmax).
Proof.
  intros Hreader Hrange Hmin Hmax.
  unfold recomputeFrameRangeForAllReaders,
    recomputeFrameRangeForAllReadersInternal. simpl.
  rewrite fold_left_app. simpl. unfold recomputeFrameRange_step at 1.
  rewrite Hreader. by apply readerFrameRange_set_overwrites.
Qed.

(** C1, as the code behaves: on three readers with ranges [1,10], [5,20]
    and [0,3] at the level of the call, [recomputeFrameRangeForAllReaders]
    yields [0,3], the range of the last reader, whatever the range was
    before: each reader of that level sets the range, the second does not
    widen what the first gave, and the third narrows the last frame from
    20 to 3. *)
Theorem recomputeFrameRange_three_readers :
  forall (first last : Z) (hasGraph : bool) (grp : option NodeGroupPrivate),
    recomputeFrameRangeForAllReaders
      (mkNodeCollection
         [readerNode 1 "Read1" 1 10; readerNode 2 "Read2" 5 20;
          readerNode 3 "Read3" 0 3] hasGraph grp)
      (first, last)
    = (0, 3).
Proof. intros. reflexivity. Qed.

(** ** clearNodesInternal *)

Lemma precedes_app_l {A} (x y : A) l1 l2 :
  Precedes x y l1 -> y ∉ l2 -> Precedes x y (l1 ++ l2).
Proof.
  intros Hp Hy before after Heq.
  apply app_eq_inv in Heq as [(k & -> & Hk)|(k & -> & ->)].
  - destruct k as [|y' k]; simpl in Hk.
    + subst l2. exfalso. apply Hy. by left.
    + injection Hk as <- ->. by apply (Hp before k).
  - exfalso. apply Hy. rewrite elem_of_app. right. by left.
Qed.

Lemma precedes_app_r {A} (x y : A) l1 l2 :
  Precedes x y l2 -> y ∉ l1 -> Precedes x y (l1 ++ l2).
Proof.
  intros Hp Hy before after Heq.
  apply app_eq_inv in Heq as [(k & -> & Hk)|(k & -> & ->)].
  - destruct k as [|y' k]; simpl in Hk.
    + subst l2. specialize (Hp [] after eq_refl). by apply elem_of_nil in Hp.
    + injection Hk as <- ->. exfalso. apply Hy. rewrite elem_of_app. right. by left.
  - rewrite elem_of_app. right. by apply (Hp k after).
Qed.

Lemma precedes_app_split {A} (x y : A) l1 l2 :
  x ∈ l1 -> y ∉ l1 -> Precedes x y (l1 ++ l2).
Proof.
  intros Hx Hy before after Heq.
  apply app_eq_inv in Heq as [(k & -> & Hk)|(k & -> & ->)].
  - destruct k as [|y' k]; simpl in Hk.
    + by rewrite app_nil_r in Hx.
    + injection Hk as <- ->. exfalso. apply Hy. rewrite elem_of_app. right. by left.
  - rewrite elem_of_app. by left.
Qed.

(** The recursive call on a group member is the function itself on the
    nested collection. *)
Lemma clearNodes_group_unfold g c :
  isEffectNodeGroup g = Some c -> clearNodes_group g = (clearNodesInternal c).1.
Proof.
  intros Hc. destruct g as [a s r gi go fr gc]; simpl in *. by subst gc.
Qed.

Lemma clearNodes_group_level g c :
  isEffectNodeGroup g = Some c ->
  clearNodes_group g
  = clearContainers (nodes c)
    ++ killEffects (nodes c) ++ notifyGraph (graph c) ++ [NodesCleared].
Proof. intros Hc. by rewrite (clearNodes_group_unfold g c). Qed.

Lemma clearNodes_group_plain g :
  isEffectNodeGroup g = None -> clearNodes_group g = [].
Proof. intros Hc. destruct g as [a s r gi go fr gc]; simpl in *. by subst gc. Qed.

Lemma nestedNodes_plain g : isEffectNodeGroup g = None -> nestedNodes g = [].
Proof. unfold nestedNodes. by intros ->. Qed.

Lemma elem_of_killEffects a l :
  DestroyNode a ∈ killEffects l <-> a ∈ map nodeAddr l.
Proof.
  unfold killEffects. rewrite !list_elem_of_fmap. split.
  - intros (it & [= ->] & Hit). by exists it.
  - intros (it & -> & Hit). by exists it.
Qed.

Lemma elem_of_clearContainers e l :
  e ∈ clearContainers l
  <-> exists it, it ∈ l /\ isGroupNode it = true /\ e ∈ clearNodes_group it.
Proof.
  unfold clearContainers. rewrite list_elem_of_In, in_flat_map. split.
  - intros (it & Hit & He). exists it. apply list_elem_of_In in Hit.
    destruct (isGroupNode it); [by apply list_elem_of_In in He | by destruct He].
  - intros (it & Hit & Hg & He). exists it. rewrite <- !list_elem_of_In.
    by rewrite Hg.
Qed.

Lemma elem_of_addr_allNodes a l :
  a ∈ map nodeAddr (allNodes l)
  <-> exists it, it ∈ l /\ (a = nodeAddr it \/ a ∈ map nodeAddr (nestedNodes it)).
Proof.
  rewrite list_elem_of_fmap. split.
  - intros (m & -> & Hm). apply elem_of_allNodes in Hm as (it & Hit & Hm).
    exists it. split; [done|]. rewrite subtree_unfold in Hm.
    apply elem_of_cons in Hm as [->|Hm]; [by left | right].
    apply list_elem_of_fmap. by exists m.
  - intros (it & Hit & [->|Ha]).
    + exists it. split; [done|]. apply elem_of_allNodes. exists it.
      split; [done|]. rewrite subtree_unfold. by left.
    + apply list_elem_of_fmap in Ha as (m & -> & Hm). exists m. split; [done|].
      apply elem_of_allNodes. exists it. split; [done|].
      rewrite subtree_unfold. by right.
Qed.

(** The nodes the teardown of a group member destroys are the nodes nested
    in it. *)
Lemma elem_of_clearNodes_group a g :
  DestroyNode a ∈ clearNodes_group g <-> a ∈ map nodeAddr (nestedNodes g).
Proof.
  induction g as [g IH] using Node_nested_ind.
  destruct (isEffectNodeGroup g) as [c|] eqn:Hc.
  - specialize (IH c eq_refl). rewrite Forall_forall in IH.
    rewrite (clearNodes_group_level g c) by done.
    unfold nestedNodes. rewrite Hc.
    rewrite !elem_of_app, elem_of_clearContainers, elem_of_killEffects,
      elem_of_addr_allNodes.
    split.
    + intros [(it & Hit & _ & Ha)|[Ha|[Ha|Ha]]].
      * exists it. split; [done | right]. by apply IH.
      * apply list_elem_of_fmap in Ha as (it & -> & Hit). exists it. by split; [|left].
      * unfold notifyGraph in Ha. destruct (graph c);
          [by apply list_elem_of_singleton in Ha | by apply elem_of_nil in Ha].
      * by apply list_elem_of_singleton in Ha.
    + intros (it & Hit & [->|Ha]).
      * right; left. apply list_elem_of_fmap. by exists it.
      * left. exists it. split; [done|]. split; [|by apply IH].
        unfold isGroupNode. destruct (isEffectNodeGroup it) eqn:Hit'; [done|].
        rewrite nestedNodes_plain in Ha by done. by apply elem_of_nil in Ha.
  - rewrite clearNodes_group_plain, nestedNodes_plain by done.
    split; intros Ha; by apply elem_of_nil in Ha.
Qed.

Lemma allNodes_split l1 g0 l2 :
  map nodeAddr (allNodes (l1 ++ g0 :: l2))
  = map nodeAddr (allNodes l1)
    ++ (nodeAddr g0 :: map nodeAddr (nestedNodes g0))
    ++ map nodeAddr (allNodes l2).
Proof.
  unfold allNodes. rewrite flat_map_app. simpl. rewrite subtree_unfold.
  by rewrite !map_app.
Qed.

Lemma addr_nested_in_allNodes a it l :
  it ∈ l -> a ∈ map nodeAddr (nestedNodes it) -> a ∈ map nodeAddr (allNodes l).
Proof. intros Hit Ha. apply elem_of_addr_allNodes. exists it. by split; [|right]. Qed.

Lemma addr_member_in_allNodes it l :
  it ∈ l -> nodeAddr it ∈ map nodeAddr (allNodes l).
Proof. intros Hit. apply elem_of_addr_allNodes. exists it. by split; [|left]. Qed.

(** Teardown order inside a group member: a node nested in a group [h] is
    destroyed before [h] is. *)
Lemma clearNodes_group_order g :
  NoDup (map nodeAddr (nestedNodes g)) ->
  forall h m, h ∈ nestedNodes g -> m ∈ nestedNodes h ->
    Precedes (DestroyNode (nodeAddr m)) (DestroyNode (nodeAddr h))
      (clearNodes_group g).
Proof.
  induction g as [g IH] using Node_nested_ind. intros Hnd h m Hh Hm.
  destruct (isEffectNodeGroup g) as [c|] eqn:Hc;
    [|rewrite nestedNodes_plain in Hh by done; by apply elem_of_nil in Hh].
  specialize (IH c eq_refl). rewrite Forall_forall in IH.
  rewrite (clearNodes_group_level g c) by done.
  unfold nestedNodes in Hnd, Hh. rewrite Hc in Hnd, Hh.
  apply elem_of_allNodes in Hh as (g0 & Hg0 & Hh).
  pose proof Hg0 as Hg0l.
  apply list_elem_of_split in Hg0 as (l1 & l2 & Hl).
  rewrite Hl in Hnd. rewrite allNodes_split in Hnd.
  apply NoDup_app in Hnd as (Hnd1 & Hdis1 & Hnd).
  apply NoDup_app in Hnd as (Hnd0 & Hdis0 & Hnd2).
  apply NoDup_cons in Hnd0 as [Hg0n Hnd0].
  assert (Hmaddr : nodeAddr m ∈ map nodeAddr (nestedNodes h)).
  { apply list_elem_of_fmap. by exists m. }
  rewrite subtree_unfold in Hh. apply elem_of_cons in Hh as [->|Hh].
  - (* [h] is a member of this level *)
    apply precedes_app_split.
    + apply elem_of_clearContainers. exists g0. split; [done|]. split.
      * unfold isGroupNode. destruct (isEffectNodeGroup g0) eqn:E; [done|].
        rewrite nestedNodes_plain in Hm by done. by apply elem_of_nil in Hm.
      * by apply elem_of_clearNodes_group.
    + intros Hin. apply elem_of_clearContainers in Hin as (it & Hit & _ & Hin).
      apply elem_of_clearNodes_group in Hin.
      rewrite Hl in Hit. apply elem_of_app in Hit as [Hit|Hit].
      * apply (Hdis1 (nodeAddr g0)); [by eapply addr_nested_in_allNodes|].
        by left.
      * apply elem_of_cons in Hit as [->|Hit]; [done|].
        apply (Hdis0 (nodeAddr g0)); [by left|].
        by eapply addr_nested_in_allNodes.
  - (* [h] is nested in the member [g0] *)
    assert (Hhaddr : nodeAddr h ∈ map nodeAddr (nestedNodes g0)).
    { apply list_elem_of_fmap. by exists h. }
    apply precedes_app_l.
    + rewrite Hl. unfold clearContainers. rewrite flat_map_app. simpl.
      apply precedes_app_r.
      * apply precedes_app_l.
        -- destruct (isGroupNode g0) eqn:Hgrp.
           ++ by apply IH.
           ++ unfold isGroupNode in Hgrp.
              destruct (isEffectNodeGroup g0) eqn:E; [done|].
              rewrite nestedNodes_plain in Hh by done. by apply elem_of_nil in Hh.
        -- intros Hin. apply (elem_of_clearContainers _ l2) in Hin as (it & Hit & _ & Hin).
           apply elem_of_clearNodes_group in Hin.
           apply (Hdis0 (nodeAddr h)); [by right|].
           by eapply addr_nested_in_allNodes.
      * intros Hin. apply (elem_of_clearContainers _ l1) in Hin as (it & Hit & _ & Hin).
        apply elem_of_clearNodes_group in Hin.
        apply (Hdis1 (nodeAddr h)); [by eapply addr_nested_in_allNodes|].
        rewrite elem_of_app. left. by right.
    + rewrite !elem_of_app, elem_of_killEffects. intros [Hin|[Hin|Hin]].
      * apply list_elem_of_fmap in Hin as (it & Heq & Hit).
        rewrite Hl in Hit. apply elem_of_app in Hit as [Hit|Hit].
        -- apply (Hdis1 (nodeAddr h)).
           ++ rewrite Heq. by apply addr_member_in_allNodes.
           ++ rewrite elem_of_app. left. by right.
        -- apply elem_of_cons in Hit as [->|Hit].
           ++ by rewrite Heq in Hhaddr.
           ++ apply (Hdis0 (nodeAddr h)); [by right|].
              rewrite Heq. by apply addr_member_in_allNodes.
      * unfold notifyGraph in Hin. destruct (graph c);
          [by apply list_elem_of_singleton in Hin | by apply elem_of_nil in Hin].
      * by apply list_elem_of_singleton in Hin.
Qed.

(** C10: [clearNodesInternal] issues, in this order, the teardown of the
    contents of every member that is a group (each by the same function,
    so innermost first), then [destroyNode] on every member of this level,
    then the notification of the node-graph and the clearing of the member
    list, which is empty afterwards.  Every node of the collection and of
    its nested groups is destroyed, and, node objects being distinct,
    wherever [destroyNode] is invoked on a group node, every node nested in
    that group has been destroyed before. *)
Theorem clearNodesInternal_nested_before_group (c : NodeCollection) :
  NoDup (map nodeAddr (allNodes (nodes c))) ->
  (clearNodesInternal c).1
  = flat_map (fun it => match isEffectNodeGroup it with
                        | Some nested => (clearNodesInternal nested).1
                        | None => []
                        end) (nodes c)
    ++ killEffects (nodes c) ++ notifyGraph (graph c) ++ [NodesCleared]
  /\ nodes (clearNodesInternal c).2 = []
  /\ (forall m, m ∈ allNodes (nodes c) ->
        DestroyNode (nodeAddr m) ∈ (clearNodesInternal c).1)
  /\ (forall g m, g ∈ allNodes (nodes c) -> m ∈ nestedNodes g ->
        Precedes (DestroyNode (nodeAddr m)) (DestroyNode (nodeAddr g))
          (clearNodesInternal c).1).
Proof.
  intros Hnd. split; [|split; [done|split]].
  - clear Hnd. unfold clearNodesInternal. simpl. f_equal.
    induction (nodes c) as [|it l IHl]; simpl; [done|].
    rewrite <- IHl. f_equal. unfold isGroupNode.
    destruct (isEffectNodeGroup it) as [nested|] eqn:E; [|done].
    by apply clearNodes_group_unfold.
  - intros m Hm.
    rewrite <- (clearNodes_group_unfold (asGroupNode c) c) by done.
    apply elem_of_clearNodes_group. apply list_elem_of_fmap. by exists m.
  - intros g m Hg Hm.
    rewrite <- (clearNodes_group_unfold (asGroupNode c) c) by done.
    by apply clearNodes_group_order.
Qed.

(** ** checkNodeName *)

Section NamingProperties.
Context `{!Externals}.

Lemma foundNodeWithName_true c node name :
  foundNodeWithName (nodes c) node name = true <-> nameTaken c node name.
Proof.
  unfold foundNodeWithName, nameTaken. rewrite existsb_exists. split.
  - intros (it & Hit & Htest). exists it. apply list_elem_of_In in Hit.
    apply andb_true_iff in Htest as [H1 H2].
    by apply bool_decide_eq_true in H1, H2.
  - intros (it & Hit & H1 & H2). exists it. apply list_elem_of_In in Hit.
    split; [done|]. apply andb_true_iff.
    by split; apply bool_decide_eq_true.
Qed.

Lemma foundNodeWithName_false c node name :
  foundNodeWithName (nodes c) node name = false <-> ~ nameTaken c node name.
Proof.
  rewrite <- foundNodeWithName_true.
  destruct (foundNodeWithName (nodes c) node name); split; congruence.
Qed.

Lemma knobNameClash_true c cpy :
  knobNameClash c cpy = true <-> knobNamed c cpy.
Proof.
  unfold knobNameClash, knobNamed. destruct (isNodeGroup c) as [g|].
  - rewrite bool_decide_eq_true. split; [by exists g | by intros (g' & [= <-] & ?)].
  - split; [done | by intros (g' & ? & _)].
Qed.

(** With exact-name semantics the loop body runs once. *)
Lemma checkNodeName_loop_exact fuel members node cpy appendDigit
    errorIfExists no nodeName :
  errorIfExists || negb appendDigit = true ->
  checkNodeName_loop (S fuel) members node cpy appendDigit errorIfExists
    no nodeName
  = Some (if foundNodeWithName members node nodeName
          then inl (NodeNameExists nodeName) else inr nodeName).
Proof. intros Hex. simpl. rewrite Hex. by destruct (foundNodeWithName _ _ _). Qed.

(** With a digit appended the loop tries the suffixes [no], [no + 1], ...
    in turn and stops at the first free name. *)
Lemma checkNodeName_loop_suffix fuel members node cpy no :
  match checkNodeName_loop fuel members node cpy true false no
          (cpy +:+ pretty no) with
  | Some (inr nodeName) =>
      exists j : nat,
        (j < fuel)%nat
        /\ nodeName = cpy +:+ pretty (no + Z.of_nat j)
        /\ foundNodeWithName members node nodeName = false
        /\ forall i : nat, (i < j)%nat ->
             foundNodeWithName members node
               (cpy +:+ pretty (no + Z.of_nat i)) = true
  | Some (inl _) => False
  | None =>
      forall j : nat, (j < fuel)%nat ->
        foundNodeWithName members node
          (cpy +:+ pretty (no + Z.of_nat j)) = true
  end.
Proof.
  revert no. induction fuel as [|fuel IH]; intros no; simpl; [intros; lia|].
  destruct (foundNodeWithName members node (cpy +:+ pretty no)) eqn:Hfound.
  - specialize (IH (no + 1)).
    destruct (checkNodeName_loop fuel members node cpy true false (no + 1)
                (cpy +:+ pretty (no + 1))) as [[e|nodeName]|]; [done| |].
    + destruct IH as (j & Hj & -> & Hfree & Hbefore). exists (S j).
      replace (no + Z.of_nat (S j)) with (no + 1 + Z.of_nat j) by lia.
      repeat split; [lia | done |].
      intros [|i] Hi.
      * by rewrite Z.add_0_r.
      * replace (no + Z.of_nat (S i)) with (no + 1 + Z.of_nat i) by lia.
        apply Hbefore. lia.
    + intros [|j] Hj.
      * by rewrite Z.add_0_r.
      * replace (no + Z.of_nat (S j)) with (no + 1 + Z.of_nat j) by lia.
        apply IH. lia.
  - exists 0%nat. rewrite Z.add_0_r. repeat split; [lia | done |]. intros; lia.
Qed.

(** The names of the members cannot hold more suffixed names than there
    are members. *)
Lemma suffixes_not_all_taken members node cpy no :
  ~ (forall j : nat, (j < S (length members))%nat ->
       foundNodeWithName members node (cpy +:+ pretty (no + Z.of_nat j))
       = true).
Proof.
  intros Hall.
  set (candidate := fun j : nat => cpy +:+ pretty (no + Z.of_nat j)).
  assert (Hinj : Inj (=) (=) candidate).
  { intros j1 j2 Heq. unfold candidate in Heq.
    apply (inj (String.app cpy)) in Heq. apply (inj pretty) in Heq. lia. }
  assert (Hsub : candidate <$> seq 0 (S (length members))
                 ⊆+ getScriptName_mt_safe <$> members).
  { apply NoDup_submseteq; [apply NoDup_fmap_2; [done | apply NoDup_seq]|].
    intros name Hname. apply list_elem_of_fmap in Hname as (j & -> & Hj).
    apply elem_of_seq in Hj. specialize (Hall j ltac:(lia)).
    unfold foundNodeWithName in Hall. apply existsb_exists in Hall as (it & Hit & Htest).
    apply andb_true_iff in Htest as [_ Hname]. apply bool_decide_eq_true in Hname.
    apply list_elem_of_fmap. exists it. by rewrite list_elem_of_In. }
  apply submseteq_length in Hsub.
  rewrite !length_fmap, length_seq in Hsub. lia.
Qed.

(** The loop ends within the fuel [checkNodeName] gives it, on a free
    name whose suffix is at most one more than the number of members. *)
Lemma checkNodeName_loop_terminates members node cpy :
  exists j : nat,
    (j <= length members)%nat
    /\ checkNodeName_loop (S (length members)) members node cpy true false
         1 (cpy +:+ pretty 1)
       = Some (inr (cpy +:+ pretty (1 + Z.of_nat j)))
    /\ foundNodeWithName members node (cpy +:+ pretty (1 + Z.of_nat j))
       = false
    /\ forall i : nat, (i < j)%nat ->
         foundNodeWithName members node (cpy +:+ pretty (1 + Z.of_nat i))
         = true.
Proof.
  pose proof (checkNodeName_loop_suffix (S (length members)) members node cpy 1)
    as Hloop.
  destruct (checkNodeName_loop (S (length members)) members node cpy true
              false 1 (cpy +:+ pretty 1)) as [[e|nodeName]|]; [done| |].
  - destruct Hloop as (j & Hj & -> & Hfree & Hbefore). exists j.
    repeat split; [lia | done | done].
  - by apply suffixes_not_all_taken in Hloop.
Qed.

(** The four outcomes of [checkNodeName], in the order the code decides
    them. *)
Lemma checkNodeName_cases c node baseName appendDigit errorIfExists :
  (invalidName baseName
   /\ checkNodeName c node baseName appendDigit errorIfExists
      = Some (inl InvalidScriptName))
  \/ (~ invalidName baseName
      /\ knobNamed c (makeNameScriptFriendly baseName)
      /\ checkNodeName c node baseName appendDigit errorIfExists
         = Some (inl (KnobNameConflict (makeNameScriptFriendly baseName))))
  \/ (~ invalidName baseName
      /\ ~ knobNamed c (makeNameScriptFriendly baseName)
      /\ nameExists c node baseName appendDigit errorIfExists
      /\ checkNodeName c node baseName appendDigit errorIfExists
         = Some (inl (NodeNameExists
                        (firstCandidate (makeNameScriptFriendly baseName)
                           appendDigit))))
  \/ (~ invalidName baseName
      /\ ~ knobNamed c (makeNameScriptFriendly baseName)
      /\ ~ nameExists c node baseName appendDigit errorIfExists
      /\ exists nodeName,
           checkNodeName c node baseName appendDigit errorIfExists
           = Some (inr nodeName)
           /\ ~ nameTaken c node nodeName).
Proof.
  unfold checkNodeName, invalidName.
  case_bool_decide as Hbase; [left; split; [by left | done]|].
  case_bool_decide as Hcpy; [left; split; [by right | done]|].
  right.
  assert (Hvalid : ~ (baseName = "" \/ makeNameScriptFriendly baseName = ""))
    by (intros [?|?]; done).
  destruct (knobNameClash c (makeNameScriptFriendly baseName)) eqn:Hknob.
  { left. split; [done|]. split; [by apply knobNameClash_true | done]. }
  right.
  assert (Hnoknob : ~ knobNamed c (makeNameScriptFriendly baseName)).
  { rewrite <- knobNameClash_true. congruence. }
  unfold nameExists, firstCandidate.
  destruct (errorIfExists || negb appendDigit) eqn:Hexact.
  - rewrite checkNodeName_loop_exact by done.
    destruct (foundNodeWithName (nodes c) node _) eqn:Hfound.
    + left. split_and!; [done | done | by apply foundNodeWithName_true | | done].
      destruct errorIfExists; [by left|]. destruct appendDigit; [done | by right].
    + right. split_and!; [done | done | |].
      * intros [Htaken _]. apply foundNodeWithName_true in Htaken. congruence.
      * eexists. split; [done|]. by apply foundNodeWithName_false.
  - apply orb_false_iff in Hexact as [-> Happend].
    apply negb_false_iff in Happend as ->.
    right. split_and!; [done | done | by intros [_ [?|?]] |].
    destruct (checkNodeName_loop_terminates (nodes c) node
                (makeNameScriptFriendly baseName))
      as (j & _ & -> & Hfree & _).
    eexists. split; [done|]. by apply foundNodeWithName_false.
Qed.

(** C8: [checkNodeName] always returns; it throws exactly when the base
    name is empty or normalises to the empty string, or the collection is
    a group with a knob called like the normalised name, or a member
    other than [node] carries the first candidate name while
    [errorIfExists] is set or [appendDigit] is cleared; the exception is
    then the invalid-name, the naming-conflict and the name-exists error
    respectively, decided in that order; in every other case a name is
    produced that no member other than [node] carries. *)
Theorem checkNodeName_throws_iff c node baseName appendDigit errorIfExists :
  (exists r, checkNodeName c node baseName appendDigit errorIfExists = Some r)
  /\ ((exists e, checkNodeName c node baseName appendDigit errorIfExists
                = Some (inl e))
      <-> invalidName baseName
          \/ knobNamed c (makeNameScriptFriendly baseName)
          \/ nameExists c node baseName appendDigit errorIfExists)
  /\ (invalidName baseName ->
      checkNodeName c node baseName appendDigit errorIfExists
      = Some (inl InvalidScriptName))
  /\ (~ invalidName baseName ->
      knobNamed c (makeNameScriptFriendly baseName) ->
      checkNodeName c node baseName appendDigit errorIfExists
      = Some (inl (KnobNameConflict (makeNameScriptFriendly baseName))))
  /\ (~ invalidName baseName ->
      ~ knobNamed c (makeNameScriptFriendly baseName) ->
      nameExists c node baseName appendDigit errorIfExists ->
      checkNodeName c node baseName appendDigit errorIfExists
      = Some (inl (NodeNameExists
                     (firstCandidate (makeNameScriptFriendly baseName)
                        appendDigit))))
  /\ (~ (invalidName baseName
         \/ knobNamed c (makeNameScriptFriendly baseName)
         \/ nameExists c node baseName appendDigit errorIfExists) ->
      exists nodeName,
        checkNodeName c node baseName appendDigit errorIfExists
        = Some (inr nodeName)
        /\ ~ nameTaken c node nodeName).
Proof.
  destruct (checkNodeName_cases c node baseName appendDigit errorIfExists)
    as [(Hi & Hr)|[(Hi & Hk & Hr)|[(Hi & Hk & He & Hr)
       |(Hi & Hk & He & nodeName & Hr & Hfree)]]];
    rewrite Hr.
  - (* the invalid-name error *)
    split_and!; [by eexists | | done | tauto | tauto | tauto].
    split; [tauto | by eexists].
  - (* the naming-conflict error *)
    split_and!; [by eexists | | tauto | done | tauto | tauto].
    split; [tauto | by eexists].
  - (* the name-exists error *)
    split_and!; [by eexists | | tauto | tauto | done | tauto].
    split; [tauto | by eexists].
  - (* a name is produced *)
    split_and!; [by eexists | | tauto | tauto | tauto |].
    + split; [by intros [e [=]] | tauto].
    + intros _. by exists nodeName.
Qed.
End NamingProperties.

(** ** initNodeName *)

Lemma string_length_app (s t : string) :
  String.length (s +:+ t) = (String.length s + String.length t)%nat.
Proof. induction s as [|ch s IH]; simpl; [done | by rewrite IH]. Qed.

Lemma string_get_app_r (s t : string) (k : nat) :
  String.get (String.length s + k) (s +:+ t) = String.get k t.
Proof. induction s as [|ch s IH]; simpl; [done | apply IH]. Qed.

Lemma string_substring_app (s t : string) :
  String.substring 0 (String.length s) (s +:+ t) = s.
Proof.
  induction s as [|ch s IH]; simpl; [by destruct t | by rewrite IH].
Qed.

(** A label longer than three characters that ends in "OFX" loses it. *)
Lemma initNodeName_baseName_OFX (s : string) :
  s ≠ "" -> initNodeName_baseName (s +:+ "OFX") = s.
Proof.
  intros Hs. unfold initNodeName_baseName.
  rewrite string_length_app. simpl String.length.
  assert (Hlen : (0 < String.length s)%nat) by (destruct s; [done | simpl; lia]).
  replace (String.length s + 3 - 1)%nat with (String.length s + 2)%nat by lia.
  replace (String.length s + 3 - 2)%nat with (String.length s + 1)%nat by lia.
  replace (String.length s + 3 - 3)%nat with (String.length s) by lia.
  pose proof (string_get_app_r s "OFX" 0) as H0. rewrite Nat.add_0_r in H0.
  rewrite !string_get_app_r, H0.
  simpl String.get. rewrite !bool_decide_eq_true_2 by done.
  replace (3 <? String.length s + 3)%nat with true
    by (symmetry; apply Nat.ltb_lt; lia).
  simpl. apply string_substring_app.
Qed.

Lemma string_ends_OFX (label : string) :
  (3 <= String.length label)%nat ->
  String.get (String.length label - 1) label = Some "X"%char ->
  String.get (String.length label - 2) label = Some "F"%char ->
  String.get (String.length label - 3) label = Some "O"%char ->
  exists s, label = s +:+ "OFX"
            /\ String.length s = (String.length label - 3)%nat.
Proof.
  induction label as [|ch rest IH]; simpl; [lia|]. intros Hlen HX HF HO.
  destruct (decide (3 <= String.length rest)%nat) as [Hrest|Hrest].
  - destruct IH as (s & -> & Hs); [done | | | |].
    + destruct (String.length rest - 0)%nat as [|n] eqn:E; [lia|].
      replace (String.length rest - 1)%nat with n by lia. done.
    + destruct (String.length rest - 1)%nat as [|n] eqn:E; [lia|].
      replace (String.length rest - 2)%nat with n by lia. done.
    + destruct (String.length rest - 2)%nat as [|n] eqn:E; [lia|].
      replace (String.length rest - 3)%nat with n by lia. done.
    + exists (String ch s). split; [done|]. simpl. rewrite Hs. lia.
  - destruct rest as [|c2 [|c3 [|c4 rest]]]; simpl in *; try lia.
    exists "". split; [|done]. by simplify_eq.
Qed.

(** Every other label is kept as it is. *)
Lemma initNodeName_baseName_other (label : string) :
  (forall s, s ≠ "" -> label ≠ s +:+ "OFX") ->
  initNodeName_baseName label = label.
Proof.
  intros Hno. unfold initNodeName_baseName.
  destruct (3 <? String.length label)%nat eqn:Hlen; [|done].
  apply Nat.ltb_lt in Hlen.
  repeat (case_bool_decide; [|done]). simpl.
  destruct (string_ends_OFX label) as (s & -> & Hs); [lia | done | done | done|].
  rewrite string_length_app in Hlen. simpl in Hlen.
  exfalso. apply (Hno s); [|done]. intros ->. simpl in Hlen. lia.
Qed.

Section InitNodeNameProperties.
Context `{!Externals}.

(** With a digit appended and no error on collision, a valid name that
    clashes with no knob is always resolved, to the base name followed by
    the first free suffix counted from 1. *)
Lemma checkNodeName_suffixed c node baseName :
  ~ invalidName baseName ->
  ~ knobNamed c (makeNameScriptFriendly baseName) ->
  exists j : nat,
    (j <= length (nodes c))%nat
    /\ checkNodeName c node baseName true false
       = Some (inr (makeNameScriptFriendly baseName
                    +:+ pretty (1 + Z.of_nat j)))
    /\ ~ nameTaken c node
         (makeNameScriptFriendly baseName +:+ pretty (1 + Z.of_nat j))
    /\ forall i : nat, (i < j)%nat ->
         nameTaken c node
           (makeNameScriptFriendly baseName +:+ pretty (1 + Z.of_nat i)).
Proof.
  intros Hvalid Hknob. unfold checkNodeName, invalidName in *.
  rewrite !bool_decide_eq_false_2 by tauto.
  destruct (knobNameClash c _) eqn:Hclash;
    [by apply knobNameClash_true in Hclash|].
  destruct (checkNodeName_loop_terminates (nodes c) node
              (makeNameScriptFriendly baseName))
    as (j & Hj & Hloop & Hfree & Hbefore).
  exists j. split_and!; [done | done | by apply foundNodeWithName_false |].
  intros i Hi. by apply foundNodeWithName_true, Hbefore.
Qed.

(** Without a digit, the same name is resolved to itself when free and
    refused when taken. *)
Lemma checkNodeName_bare c node baseName errorIfExists :
  ~ invalidName baseName ->
  ~ knobNamed c (makeNameScriptFriendly baseName) ->
  checkNodeName c node baseName false errorIfExists
  = Some (if foundNodeWithName (nodes c) node
               (makeNameScriptFriendly baseName)
          then inl (NodeNameExists (makeNameScriptFriendly baseName))
          else inr (makeNameScriptFriendly baseName)).
Proof.
  intros Hvalid Hknob. unfold checkNodeName, invalidName in *.
  rewrite !bool_decide_eq_false_2 by tauto.
  destruct (knobNameClash c _) eqn:Hclash;
    [by apply knobNameClash_true in Hclash|].
  apply checkNodeName_loop_exact. by destruct errorIfExists.
Qed.

Lemma checkNodeName_invalid c node baseName appendDigit errorIfExists :
  invalidName baseName ->
  checkNodeName c node baseName appendDigit errorIfExists
  = Some (inl InvalidScriptName).
Proof.
  intros Hi.
  destruct (checkNodeName_cases c node baseName appendDigit errorIfExists)
    as [(_ & Hr)|[(? & _)|[(? & _)|(? & _)]]]; done.
Qed.

Lemma checkNodeName_knob c node baseName appendDigit errorIfExists :
  ~ invalidName baseName ->
  knobNamed c (makeNameScriptFriendly baseName) ->
  checkNodeName c node baseName appendDigit errorIfExists
  = Some (inl (KnobNameConflict (makeNameScriptFriendly baseName))).
Proof.
  intros Hi Hk.
  destruct (checkNodeName_cases c node baseName appendDigit errorIfExists)
    as [(? & _)|[(_ & _ & Hr)|[(_ & ? & _)|(_ & ? & _)]]]; done.
Qed.
End InitNodeNameProperties.

Section InitNodeNameTheorem.
Context `{!Externals}.

(** C6, amended: the base name is the plug-in label without a trailing
    "OFX" when the label has more than three characters, and the label
    itself otherwise.  For a plug-in other than the Output node the name
    is the normalised base name with the first free number from 1: no
    member carries the numbered name, and every smaller number, from 1
    on, gives a name that a member carries.  For the Output node it is
    the normalised base name itself when no member carries it, and the
    name with the first free number when one does.  An invalid base
    name and a clash with a knob of the group are errors for both. *)
Theorem initNodeName_strips_OFX (c : NodeCollection)
    (pluginID pluginLabel : string) :
  (forall s, s ≠ "" -> initNodeName_baseName (s +:+ "OFX") = s)
  /\ ((forall s, s ≠ "" -> pluginLabel ≠ s +:+ "OFX") ->
      initNodeName_baseName pluginLabel = pluginLabel)
  /\ (invalidName (initNodeName_baseName pluginLabel) ->
      initNodeName c pluginID pluginLabel = Some (inl InvalidScriptName))
  /\ (~ invalidName (initNodeName_baseName pluginLabel) ->
      knobNamed c (makeNameScriptFriendly (initNodeName_baseName pluginLabel)) ->
      initNodeName c pluginID pluginLabel
      = Some (inl (KnobNameConflict
                     (makeNameScriptFriendly
                        (initNodeName_baseName pluginLabel)))))
  /\ (~ invalidName (initNodeName_baseName pluginLabel) ->
      ~ knobNamed c (makeNameScriptFriendly (initNodeName_baseName pluginLabel)) ->
      (pluginID ≠ PLUGINID_NATRON_OUTPUT
       \/ nameTaken c None
            (makeNameScriptFriendly (initNodeName_baseName pluginLabel))) ->
      exists j : nat,
        (j <= length (nodes c))%nat
        /\ initNodeName c pluginID pluginLabel
           = Some (inr (makeNameScriptFriendly
                          (initNodeName_baseName pluginLabel)
                        +:+ pretty (1 + Z.of_nat j)))
        /\ ~ nameTaken c None
             (makeNameScriptFriendly (initNodeName_baseName pluginLabel)
              +:+ pretty (1 + Z.of_nat j))
        /\ forall i : nat, (i < j)%nat ->
             nameTaken c None
               (makeNameScriptFriendly (initNodeName_baseName pluginLabel)
                +:+ pretty (1 + Z.of_nat i)))
  /\ (~ invalidName (initNodeName_baseName pluginLabel) ->
      ~ knobNamed c (makeNameScriptFriendly (initNodeName_baseName pluginLabel)) ->
      pluginID = PLUGINID_NATRON_OUTPUT ->
      ~ nameTaken c None
          (makeNameScriptFriendly (initNodeName_baseName pluginLabel)) ->
      initNodeName c pluginID pluginLabel
      = Some (inr (makeNameScriptFriendly
                     (initNodeName_baseName pluginLabel)))).
Proof.
  split_and!.
  - apply initNodeName_baseName_OFX.
  - apply initNodeName_baseName_other.
  - intros Hinv. unfold initNodeName.
    rewrite !checkNodeName_invalid by done. by destruct (negb _).
  - intros Hvalid Hknob. unfold initNodeName.
    rewrite !checkNodeName_knob by done. by destruct (negb _).
  - intros Hvalid Hknob Hcase. unfold initNodeName.
    destruct (checkNodeName_suffixed c None _ Hvalid Hknob)
      as (j & Hj & Hr & Hfree & Hleast).
    exists j. split_and!; [done | | done | done].
    case_bool_decide as Hout; simpl; [|done].
    destruct Hcase as [?|Htaken]; [done|].
    rewrite checkNodeName_bare by done.
    apply foundNodeWithName_true in Htaken. by rewrite Htaken.
  - intros Hvalid Hknob Hout Hfree. unfold initNodeName.
    rewrite bool_decide_eq_true_2 by done. simpl.
    rewrite checkNodeName_bare by done.
    apply foundNodeWithName_false in Hfree. by rewrite Hfree.
Qed.
End InitNodeNameTheorem.

(** C6, as stated, fails: the label "BlurFX" ends in "FX" and is long
    enough to hold it, yet its base name keeps the suffix and the node is
    called "BlurFX1"; only "OFX" is looked for. *)
Lemma initNodeName_keeps_FX :
  initNodeName_baseName "BlurFX" ≠ baseName_stripping_FX "BlurFX"
  /\ baseName_stripping_FX "BlurFX" = "Blur"
  /\ initNodeName emptyCollection
       "net.sf.cimg.CImgBlur" "BlurFX"
     = Some (inr "BlurFX1")
  /\ initNodeName emptyCollection
       "net.sf.cimg.CImgBlur" "BlurOFX"
     = Some (inr "Blur1").
Proof. split_and!; [by vm_compute | reflexivity | reflexivity | reflexivity]. Qed.

(** ** addNode and removeNode *)

Lemma eraseFirst_sublist {A} (test : A -> bool) (l : list A) :
  eraseFirst test l `sublist_of` l.
Proof.
  induction l as [|x l IH]; simpl; [done|].
  destruct (test x); [by apply sublist_cons | by apply sublist_skip].
Qed.

(** When nothing passes the test the list is left as it is. *)
Lemma eraseFirst_none {A} (test : A -> bool) (l : list A) :
  (forall x, x ∈ l -> test x = false) -> eraseFirst test l = l.
Proof.
  induction l as [|x l IH]; intros Hno; simpl; [done|].
  rewrite (Hno x) by (by left). f_equal. apply IH. intros y Hy.
  apply Hno. by right.
Qed.

Lemma scriptNames_addNode c node :
  scriptNames (addNode c node) = scriptNames c ++ [getScriptName_mt_safe node].
Proof. unfold scriptNames, addNode. simpl. by rewrite map_app. Qed.

Lemma scriptNames_removeNode c node :
  scriptNames (removeNode c node) `sublist_of` scriptNames c.
Proof.
  unfold scriptNames. destruct node as [p|]; simpl; [|done].
  apply (fmap_sublist getScriptName_mt_safe), eraseFirst_sublist.
Qed.

Lemma nameTaken_null c name :
  nameTaken c None name <-> name ∈ scriptNames c.
Proof.
  unfold nameTaken, scriptNames. split.
  - intros (it & Hit & _ & <-). apply list_elem_of_fmap. by exists it.
  - intros Hin. apply list_elem_of_fmap in Hin as (it & -> & Hit). by exists it.
Qed.

Section MembershipProperties.
Context `{!Externals}.

(** A name [checkNodeName] resolves for a new node is carried by no
    member. *)
Lemma checkNodeName_fresh c baseName appendDigit errorIfExists nodeName :
  checkNodeName c None baseName appendDigit errorIfExists
  = Some (inr nodeName) ->
  nodeName ∉ scriptNames c.
Proof.
  intros Hr. rewrite <- nameTaken_null.
  destruct (checkNodeName_cases c None baseName appendDigit errorIfExists)
    as [(_ & Hr')|[(_ & _ & Hr')|[(_ & _ & _ & Hr')
       |(_ & _ & _ & name' & Hr' & Hfree)]]];
    rewrite Hr in Hr'; by simplify_eq.
Qed.

(** C9, amended: from a collection whose members have distinct
    script-names, such as the empty one, any sequence of [removeNode]
    calls and of [addNode] calls of nodes named by [checkNodeName]
    against the collection they are added to leaves the script-names of
    the members distinct. *)
Theorem script_names_stay_distinct (c : NodeCollection)
    (calls : list MembershipCall) :
  NoDup (scriptNames c) ->
  namesResolved c calls ->
  NoDup (scriptNames (runCalls c calls)).
Proof.
  unfold runCalls. revert c.
  induction calls as [|[node|node] calls IH]; intros c Hnd Hres; simpl in *;
    [done| |].
  - destruct Hres as [(baseName & ad & eie & Hname) Hres].
    apply IH; [|done]. rewrite scriptNames_addNode.
    apply NoDup_app. split_and!; [done | | apply NoDup_singleton].
    intros name Hin ->%list_elem_of_singleton.
    by apply checkNodeName_fresh in Hname.
  - apply IH; [|done].
    eapply sublist_NoDup; [done | apply scriptNames_removeNode].
Qed.
End MembershipProperties.

(** C9, as stated, fails: [addNode] checks nothing, so two nodes called
    "Blur1" added one after the other are both members. *)
Lemma addNode_twice_same_name :
  scriptNames
    (runCalls emptyCollection
       [CallAddNode (plainNode 1 "Blur1"); CallAddNode (plainNode 2 "Blur1")])
  = ["Blur1"; "Blur1"]
  /\ ~ NoDup
       (scriptNames
          (runCalls emptyCollection
             [CallAddNode (plainNode 1 "Blur1");
              CallAddNode (plainNode 2 "Blur1")])).
Proof.
  split; [reflexivity|]. simpl. intros Hnd.
  apply NoDup_cons in Hnd as [Hnotin _]. apply Hnotin. by left.
Qed.
Lemma eraseFirst_split {A} (test : A -> bool) (l1 l2 : list A) (x : A) :
  (forall y, y ∈ l1 -> test y = false) -> test x = true ->
  eraseFirst test (l1 ++ x :: l2) = l1 ++ l2.
Proof.
  intros Hl1 Hx. induction l1 as [|y l1 IH]; simpl.
  - by rewrite Hx.
  - rewrite (Hl1 y) by (by left). f_equal. apply IH. intros z Hz.
    apply Hl1. by right.
Qed.


Lemma NodeGroup_onNodeRemoved_absent g p :
  Some p ∉ inputs g -> Some p ∉ outputs g -> NodeGroup_onNodeRemoved g p = g.
Proof.
  intros Hin Hout. unfold NodeGroup_onNodeRemoved. destruct g as [i o d a k].
  simpl in *. f_equal; apply eraseFirst_none; intros x Hx;
    apply bool_decide_eq_false; by intros ->.
Qed.

(** What [NodeGroup::onNodeRemoved] leaves of the two lists. *)
Lemma eraseFirst_length {A} (test : A -> bool) (l : list A) (x : A) :
  x ∈ l -> test x = true ->
  S (length (eraseFirst test l)) = length l.
Proof.
  intros Hin Hx. induction l as [|y l IH]; [by apply elem_of_nil in Hin|].
  simpl. destruct (test y) eqn:Hy; [done|].
  simpl. f_equal. apply IH. apply elem_of_cons in Hin as [->|Hin]; [|done].
  congruence.
Qed.

Lemma eraseFirst_weak_erased (p : NodeId) (l : list NodePtr) :
  firstEntryErased p l (eraseFirst (fun it => bool_decide (it = Some p)) l).
Proof.
  split.
  - intros Hno. apply eraseFirst_none. intros x Hx.
    apply bool_decide_eq_false. by intros ->.
  - intros l1 l2 -> Hl1. apply eraseFirst_split.
    + intros y Hy. apply bool_decide_eq_false. by intros ->.
    + by apply bool_decide_eq_true.
Qed.

Lemma eraseFirst_weak_fixed (p : NodeId) (l : list NodePtr) :
  eraseFirst (fun it => bool_decide (it = Some p)) l = l -> Some p ∉ l.
Proof.
  intros Hsame Hin.
  pose proof (eraseFirst_length (fun it => bool_decide (it = Some p)) l
                (Some p) Hin (bool_decide_eq_true_2 _ eq_refl)) as Hlen.
  rewrite Hsame in Hlen. lia.
Qed.

Lemma NodeGroup_onNodeRemoved_erased g p :
  firstEntryErased p (inputs g) (inputs (NodeGroup_onNodeRemoved g p))
  /\ firstEntryErased p (outputs g) (outputs (NodeGroup_onNodeRemoved g p))
  /\ isDeactivatingGroup (NodeGroup_onNodeRemoved g p) = isDeactivatingGroup g
  /\ isActivatingGroup (NodeGroup_onNodeRemoved g p) = isActivatingGroup g
  /\ knobs (NodeGroup_onNodeRemoved g p) = knobs g.
Proof.
  unfold NodeGroup_onNodeRemoved. simpl.
  split_and!; [apply eraseFirst_weak_erased | apply eraseFirst_weak_erased
              | done | done | done].
Qed.

Lemma NodeGroup_onNodeRemoved_fixed g p :
  NodeGroup_onNodeRemoved g p = g ->
  (Some p ∉ inputs g) /\ (Some p ∉ outputs g).
Proof.
  intros Hsame. split; apply eraseFirst_weak_fixed.
  - by apply (f_equal inputs) in Hsame.
  - by apply (f_equal outputs) in Hsame.
Qed.

(** C7, amended: [removeNode] with a null node returns at once and changes
    nothing.  With a node that is not a member the member list and the
    node-graph pointer are left as they are, but [onNodeRemoved] is still
    called: a group loses the first entry for that node in its input list
    and the first one in its output list, the entries around them staying
    in place, and nothing else of it changes.  The call therefore changes
    nothing exactly when the node is null or is recorded in neither list,
    as is the case when the collection is no group and when the two lists
    only hold members. *)
Theorem removeNode_null_or_absent (c : NodeCollection) (node : NodePtr) :
  (forall p, node = Some p -> p ∉ map nodeAddr (nodes c)) ->
  nodes (removeNode c node) = nodes c
  /\ graph (removeNode c node) = graph c
  /\ (node = None -> removeNode c node = c)
  /\ (isNodeGroup c = None -> removeNode c node = c)
  /\ (forall p g, node = Some p -> isNodeGroup c = Some g ->
        exists g',
          isNodeGroup (removeNode c node) = Some g'
          /\ firstEntryErased p (inputs g) (inputs g')
          /\ firstEntryErased p (outputs g) (outputs g')
          /\ isDeactivatingGroup g' = isDeactivatingGroup g
          /\ isActivatingGroup g' = isActivatingGroup g
          /\ knobs g' = knobs g)
  /\ (removeNode c node = c
      <-> forall p g, node = Some p -> isNodeGroup c = Some g ->
            (Some p ∉ inputs g) /\ (Some p ∉ outputs g))
  /\ ((forall g x, isNodeGroup c = Some g ->
         Some x ∈ inputs g ++ outputs g -> x ∈ map nodeAddr (nodes c)) ->
      removeNode c node = c).
Proof.
  intros Habsent. destruct node as [p|]; simpl.
  - specialize (Habsent p eq_refl).
    assert (Hkeep : eraseFirst (fun it => bool_decide (nodeAddr it = p)) (nodes c)
                    = nodes c).
    { apply eraseFirst_none. intros it Hit. apply bool_decide_eq_false.
      intros <-. apply Habsent. apply list_elem_of_fmap. by exists it. }
    rewrite Hkeep.
    assert (Hsame : (forall g, isNodeGroup c = Some g ->
                       (Some p ∉ inputs g) /\ (Some p ∉ outputs g)) ->
                    onNodeRemoved
                      (mkNodeCollection (nodes c) (graph c) (isNodeGroup c)) p
                    = c).
    { intros Hports. unfold onNodeRemoved.
      destruct c as [l gr [g|]]; simpl in *; [|done].
      destruct (Hports g eq_refl) as [Hin Hout].
      by rewrite NodeGroup_onNodeRemoved_absent. }
    split_and!; [done | done | done | | | |].
    + intros Hnone. apply Hsame. intros g Hg. congruence.
    + intros p' g [= <-] Hg. exists (NodeGroup_onNodeRemoved g p).
      rewrite Hg. split; [done|]. apply NodeGroup_onNodeRemoved_erased.
    + split.
      * intros Heq p' g [= <-] Hg. apply NodeGroup_onNodeRemoved_fixed.
        apply (f_equal isNodeGroup) in Heq. simpl in Heq.
        rewrite Hg in Heq. congruence.
      * intros Hports. apply Hsame. intros g Hg. by apply (Hports p g).
    + intros Hports. apply Hsame. intros g Hg.
      split; intros Hin; apply Habsent, (Hports g p Hg), elem_of_app; auto.
  - split_and!; done.
Qed.

(** C7, as stated, fails: after [notifyNodeActivated] on a group-input node
    that was never added, that node is no member of the group and yet
    [removeNode] takes it out of the input list. *)
Lemma removeNode_absent_prunes_inputs :
  (7%nat ∉ map nodeAddr (nodes groupWithStrayInput))
  /\ isNodeGroup groupWithStrayInput
     = Some (mkNodeGroupPrivate [Some 7%nat] [] false false [])
  /\ isNodeGroup (removeNode groupWithStrayInput (Some 7%nat))
     = Some (mkNodeGroupPrivate [] [] false false [])
  /\ removeNode groupWithStrayInput (Some 7%nat) ≠ groupWithStrayInput.
Proof.
  split_and!; [by intros ?%elem_of_nil | reflexivity | reflexivity | discriminate].
Qed.

(** The amended C7 at a group of which only the node 1 is a member, while
    the node 7 was recorded twice as input and once as output: removing
    the node 7 takes its first entry out of each list. *)
Lemma removeNode_null_or_absent_witness :
  (forall p, Some 7%nat = Some p ->
     p ∉ map nodeAddr (nodes groupWithStrayPorts))
  /\ nodes (removeNode groupWithStrayPorts (Some 7%nat))
     = [groupInputNode 1 "Input1"]
  /\ (exists g',
        isNodeGroup (removeNode groupWithStrayPorts (Some 7%nat)) = Some g'
        /\ inputs g' = [Some 1%nat; Some 7%nat]
        /\ outputs g' = [Some 9%nat]).
Proof.
  assert (Habsent : forall p, Some 7%nat = Some p ->
     p ∉ map nodeAddr (nodes groupWithStrayPorts)).
  { intros p [= <-]. simpl. intros Hin. apply list_elem_of_singleton in Hin.
    discriminate. }
  destruct (removeNode_null_or_absent _ _ Habsent)
    as (Hnodes & _ & _ & _ & Hgroup & _).
  destruct (Hgroup 7%nat _ eq_refl eq_refl)
    as (g' & Hg' & [_ Hin] & [_ Hout] & _).
  split_and!; [exact Habsent | exact Hnodes |].
  exists g'. split_and!; [exact Hg' | |].
  - apply (Hin [Some 1%nat] [Some 7%nat] eq_refl).
    intros H1. apply list_elem_of_singleton in H1. discriminate.
  - apply (Hout [Some 9%nat] [] eq_refl).
    intros H1. apply list_elem_of_singleton in H1. discriminate.
Defined.

(** The amended C9 at the empty collection: a node named by [initNodeName]'s
    call of [checkNodeName] is added, then a second one. *)
Lemma script_names_stay_distinct_witness :
  NoDup (scriptNames emptyCollection)
  /\ namesResolved emptyCollection
       [CallAddNode (plainNode 1 "Blur1"); CallAddNode (plainNode 2 "Blur2");
        CallRemoveNode (Some 1%nat)]
  /\ NoDup (scriptNames
              (runCalls emptyCollection
                 [CallAddNode (plainNode 1 "Blur1");
                  CallAddNode (plainNode 2 "Blur2");
                  CallRemoveNode (Some 1%nat)])).
Proof.
  assert (Hnd : NoDup (scriptNames emptyCollection)) by apply NoDup_nil_2.
  assert (Hres : namesResolved emptyCollection
       [CallAddNode (plainNode 1 "Blur1"); CallAddNode (plainNode 2 "Blur2");
        CallRemoveNode (Some 1%nat)]).
  { simpl. split_and!; [by exists "Blur", true, false
                       | by exists "Blur", true, false | done]. }
  split_and!; [exact Hnd | exact Hres |].
  exact (script_names_stay_distinct _ _ Hnd Hres).
Defined.

(** C10 at a collection holding a plain node and a group that holds a plain
    node and an inner group of one node. *)
Lemma clearNodesInternal_nested_before_group_witness :
  NoDup (map nodeAddr
           (allNodes
              (nodes (mkNodeCollection
                        [plainNode 1 "Blur1";
                         groupNode 2 "Group1"
                           [plainNode 3 "Grade1";
                            groupNode 4 "Group2" [plainNode 5 "Merge1"]]]
                        true None))))
  /\ (clearNodesInternal
        (mkNodeCollection
           [plainNode 1 "Blur1";
            groupNode 2 "Group1"
              [plainNode 3 "Grade1";
               groupNode 4 "Group2" [plainNode 5 "Merge1"]]]
           true None)).1
     = [DestroyNode 5; NodesCleared; DestroyNode 3; DestroyNode 4;
        NodesCleared; DestroyNode 1; DestroyNode 2; OnNodesCleared;
        NodesCleared]
  /\ Precedes (DestroyNode 5) (DestroyNode 2)
       (clearNodesInternal
          (mkNodeCollection
             [plainNode 1 "Blur1";
              groupNode 2 "Group1"
                [plainNode 3 "Grade1";
                 groupNode 4 "Group2" [plainNode 5 "Merge1"]]]
             true None)).1.
Proof.
  assert (Hnd : NoDup (map nodeAddr
           (allNodes
              (nodes (mkNodeCollection
                        [plainNode 1 "Blur1";
                         groupNode 2 "Group1"
                           [plainNode 3 "Grade1";
                            groupNode 4 "Group2" [plainNode 5 "Merge1"]]]
                        true None))))).
  { simpl. compute_done. }
  split_and!; [exact Hnd | reflexivity |].
  destruct (clearNodesInternal_nested_before_group _ Hnd) as (_ & _ & _ & Hord).
  apply (Hord (groupNode 2 "Group1"
                 [plainNode 3 "Grade1";
                  groupNode 4 "Group2" [plainNode 5 "Merge1"]])
              (plainNode 5 "Merge1")).
  - apply list_elem_of_In. simpl. auto 10.
  - apply list_elem_of_In. simpl. auto 10.
Defined.

(** ** autoConnectNodes *)

Section AutoConnectProperties.
Context {G : Type} `{!NodeApi G}.

Lemma moveOutputs_no_consumer (g : G) selected created :
  getOutputs g selected = [] -> moveOutputs selected created g = g.
Proof. unfold moveOutputs. by intros ->. Qed.

(** The assertion in case 3-b: a sourceless [created] is only connected
    as input of a [selected] that has inputs. *)
Lemma autoConnect_assert_selected_has_inputs (g : G) selected created :
  ~ bothSourceless g selected created ->
  isOutputNode g selected = false ->
  isOutputNode g created = false ->
  getMaxInputCount g created = 0 ->
  connectAsInput g selected created = true
  /\ getMaxInputCount g selected ≠ 0.
Proof.
  unfold bothSourceless, connectAsInput. intros Hguard -> -> Hc.
  rewrite Hc. simpl. split; [done | tauto].
Qed.

(** C5, amended: [autoConnectNodes] fails, and changes nothing, when both
    nodes have no input, when both are output nodes, and when [created]
    is to be connected as input of [selected] and [selected] has no
    preferred input.  A failure leaves every node as it was whenever
    [created] is connected as input, or is an output node, or [selected]
    feeds no node. *)
Theorem autoConnectNodes_failure (g : G) (selected created : NodeId) :
  (bothSourceless g selected created \/ bothOutputs g selected created ->
   autoConnectNodes g selected created = (g, false))
  /\ (~ bothSourceless g selected created ->
      ~ bothOutputs g selected created ->
      connectAsInput g selected created = true ->
      getPreferredInputForConnection g selected = -1 ->
      autoConnectNodes g selected created = (g, false))
  /\ ((autoConnectNodes g selected created).2 = false ->
      connectAsInput g selected created = true
      \/ isOutputNode g created = true
      \/ getOutputs g selected = [] ->
      (autoConnectNodes g selected created).1 = g).
Proof.
  unfold autoConnectNodes, bothSourceless, bothOutputs.
  destruct ((getMaxInputCount g selected =? 0)
            && (getMaxInputCount g created =? 0)) eqn:Hsrc.
  { apply andb_true_iff in Hsrc as [Hs Hc]. apply Z.eqb_eq in Hs, Hc.
    split_and!; try done; tauto. }
  assert (Hnsrc : ~ (getMaxInputCount g selected = 0
                     /\ getMaxInputCount g created = 0)).
  { intros [Hs Hc]. rewrite Hs, Hc in Hsrc. done. }
  destruct (isOutputNode g selected && isOutputNode g created) eqn:Hout.
  { apply andb_true_iff in Hout as [Hs Hc].
    split_and!; try done; tauto. }
  assert (Hnout : ~ (isOutputNode g selected = true
                     /\ isOutputNode g created = true)).
  { intros [Hs Hc]. rewrite Hs, Hc in Hout. done. }
  destruct (connectAsInput g selected created) eqn:Hdir.
  - split_and!; [tauto | |].
    + intros _ _ _ ->. by rewrite bool_decide_eq_false_2 by (by intros ?).
    + case_bool_decide; [done | by intros _ _].
  - split_and!; [tauto | done |].
    intros Hfail [?|[Hc|Hnone]]; [done | |].
    + rewrite Hc in *. simpl in *. by case_bool_decide.
    + rewrite (moveOutputs_no_consumer _ _ _ Hnone) in *.
      destruct (negb (isOutputNode g created)); by case_bool_decide.
Qed.

(** The remaining case: [created] is spliced in after a [selected] that
    feeds other nodes.  These are moved to [created] before the preferred
    input of [created] is looked up, and stay moved when there is none. *)
Lemma autoConnectNodes_splice_failure (g : G) (selected created : NodeId) :
  ~ bothSourceless g selected created ->
  ~ bothOutputs g selected created ->
  connectAsInput g selected created = false ->
  isOutputNode g created = false ->
  getPreferredInputForConnection (moveOutputs selected created g) created
  = -1 ->
  autoConnectNodes g selected created
  = (moveOutputs selected created g, false).
Proof.
  unfold autoConnectNodes, bothSourceless, bothOutputs.
  intros Hsrc Hout Hdir Hc Hpref.
  destruct ((getMaxInputCount g selected =? 0)
            && (getMaxInputCount g created =? 0)) eqn:E1.
  { apply andb_true_iff in E1 as [Hs Hc']. apply Z.eqb_eq in Hs, Hc'. tauto. }
  destruct (isOutputNode g selected && isOutputNode g created) eqn:E2.
  { apply andb_true_iff in E2. tauto. }
  rewrite Hdir, Hc. simpl. rewrite Hpref.
  by rewrite bool_decide_eq_false_2 by (by intros ?).
Qed.
End AutoConnectProperties.

(** C5, as stated, fails: "Merge1" is created after the selected "Blur1",
    which feeds "Grade1"; the only input of "Merge1" is taken, so the call
    fails, but "Grade1" is fed by "Merge1" afterwards. *)
Lemma autoConnectNodes_failure_moves_outputs :
  (autoConnectNodes spliceWorld 0 1).2 = false
  /\ Simple.slotsOf spliceWorld 2
     = [Simple.mkInputSlot "Source" false (Some 0%nat)]
  /\ Simple.slotsOf (autoConnectNodes spliceWorld 0 1).1 2
     = [Simple.mkInputSlot "Source" false (Some 1%nat)]
  /\ (autoConnectNodes spliceWorld 0 1).1 ≠ spliceWorld.
Proof. split_and!; [reflexivity | reflexivity | reflexivity | discriminate]. Qed.

(** ** restoreInput: the numeric mask index *)

Lemma firstMaskSlot_Some isMask steps i j :
  firstMaskSlot isMask steps i = Some j ->
  i <= j < i + Z.of_nat steps
  /\ isMask j = true
  /\ forall z, i <= z < j -> isMask z = false.
Proof.
  revert i. induction steps as [|steps IH]; intros i;
    cbn [findMaskIndex firstMaskSlot]; [done|].
  destruct (isMask i) eqn:Hi.
  - intros [= <-]. split_and!; [lia | lia | done | intros; lia].
  - intros Hj. destruct (IH _ Hj) as (Hrange & Hmask & Hbefore).
    split_and!; [lia | lia | done |]. intros z Hz.
    destruct (decide (z = i)) as [->|Hne]; [done | apply Hbefore; lia].
Qed.

(** The search stops at the first mask: the target index is compared with
    the mask index 0 only. *)
Lemma findMaskIndex_first isMask steps i index :
  findMaskIndex isMask steps i 0 index
  = match firstMaskSlot isMask steps i with
    | Some j => if index =? 0 then j else index
    | None => index
    end.
Proof.
  revert i. induction steps as [|steps IH]; intros i;
    cbn [findMaskIndex firstMaskSlot]; [done|].
  destruct (isMask i); [|apply IH].
  rewrite Z.eqb_sym. by destruct (index =? 0).
Qed.

(** What lies after the first mask is never looked at. *)
Lemma findMaskIndex_ignores_later isMask isMask' steps i index j :
  firstMaskSlot isMask steps i = Some j ->
  (forall z, i <= z <= j -> isMask' z = isMask z) ->
  findMaskIndex isMask' steps i 0 index = findMaskIndex isMask steps i 0 index.
Proof.
  revert i. induction steps as [|steps IH]; intros i;
    cbn [findMaskIndex firstMaskSlot]; [done|].
  intros Hfirst Hsame.
  destruct (isMask i) eqn:Hi.
  - injection Hfirst as <-. by rewrite Hsame, Hi by lia.
  - pose proof (firstMaskSlot_Some _ _ _ _ Hfirst) as (Hrange & _).
    rewrite Hsame, Hi by lia. apply IH; [done|]. intros z Hz. apply Hsame. lia.
Qed.

Section RestoreInputProperties.
Context {G : Type} `{!NodeApi G}.

(** C4: when the label is no input label of the node and reads as the
    number [k], the search of [restoreInput] over the slots of the node
    ends at the first mask-capable slot, whose mask index 0 is the only
    one [k] is compared with: what the slots after it are does not
    matter, a [k] other than 0 is left as it is, and the index is
    changed only for [k = 0], to that first mask-capable slot.  This is
    the input number [swapInput] is called with. *)
Theorem restoreInput_numeric_mask_index (g : G) (node : NodeId)
    (inputLabel inputNodeScriptName : string) (k : Z) :
  inputLabel = "" \/ getInputNumberFromLabel g node inputLabel = -1 ->
  toInt inputLabel = Some k ->
  (restoreInput_index g node inputLabel inputNodeScriptName true).1
  = match firstMaskSlot (isInputMask g node)
            (Z.to_nat (getMaxInputCount g node)) 0 with
    | Some j => if k =? 0 then j else k
    | None => k
    end
  /\ (forall isMask' j,
        firstMaskSlot (isInputMask g node)
          (Z.to_nat (getMaxInputCount g node)) 0 = Some j ->
        (forall z, 0 <= z <= j -> isMask' z = isInputMask g node z) ->
        findMaskIndex isMask' (Z.to_nat (getMaxInputCount g node)) 0 0 k
        = (restoreInput_index g node inputLabel inputNodeScriptName true).1)
  /\ (k ≠ 0 ->
      (restoreInput_index g node inputLabel inputNodeScriptName true).1 = k)
  /\ ((restoreInput_index g node inputLabel inputNodeScriptName true).1 ≠ k ->
      k = 0
      /\ firstMaskSlot (isInputMask g node)
           (Z.to_nat (getMaxInputCount g node)) 0
         = Some (restoreInput_index g node inputLabel inputNodeScriptName
                   true).1)
  /\ (forall createdNodes allNodesInGroup allowSearchInAllNodes foundNode,
        inputNodeScriptName ≠ "" ->
        getGroup g node ≠ None ->
        findSerializedNodeWithScriptName g inputNodeScriptName createdNodes
          allNodesInGroup allowSearchInAllNodes = Some foundNode ->
        (restoreInput node inputLabel inputNodeScriptName createdNodes
           allNodesInGroup allowSearchInAllNodes true g).1
        = swapInput node (Some foundNode)
            (match firstMaskSlot (isInputMask g node)
                     (Z.to_nat (getMaxInputCount g node)) 0 with
             | Some j => if k =? 0 then j else k
             | None => k
             end) g).
Proof.
  intros Hlabel Hint.
  assert (Hindex :
    (restoreInput_index g node inputLabel inputNodeScriptName true).1
    = findMaskIndex (isInputMask g node)
        (Z.to_nat (getMaxInputCount g node)) 0 0 k).
  { unfold restoreInput_index. rewrite Hint.
    destruct Hlabel as [->| ->].
    - rewrite bool_decide_eq_true_2 by done. done.
    - by destruct (bool_decide _). }
  assert (Hfirst := findMaskIndex_first (isInputMask g node)
                      (Z.to_nat (getMaxInputCount g node)) 0 k).
  split_and!.
  - by rewrite Hindex.
  - intros isMask' j Hj Hsame. rewrite Hindex.
    by apply (findMaskIndex_ignores_later _ _ _ _ _ j).
  - intros Hk. rewrite Hindex, Hfirst.
    apply Z.eqb_neq in Hk. rewrite Hk. by destruct (firstMaskSlot _ _ _).
  - rewrite Hindex, Hfirst. destruct (firstMaskSlot _ _ _) as [j|]; [|done].
    destruct (k =? 0) eqn:Hk; [|done]. apply Z.eqb_eq in Hk. done.
  - intros createdNodes allNodesInGroup allow foundNode Hname Hgroup Hfound.
    unfold restoreInput. rewrite bool_decide_eq_false_2 by done.
    destruct (restoreInput_index g node inputLabel inputNodeScriptName true)
      as [index log] eqn:Hri.
    simpl in Hindex. destruct (getGroup g node); [|done].
    rewrite Hfound. simpl. by rewrite Hindex, Hfirst.
Qed.
End RestoreInputProperties.

(** C4 at a node with one plain input and two masks: the label "1", meant
    for the second mask (slot 2), is left at 1, the slot of the first
    mask; only "0" is remapped, to that same slot. *)
Lemma restoreInput_numeric_mask_index_witness :
  ("1" = "" \/ getInputNumberFromLabel maskWorld 0 "1" = -1)
  /\ toInt (G := Simple.World) "1" = Some 1
  /\ (restoreInput_index maskWorld 0 "1" "Roto1" true).1 = 1
  /\ (restoreInput_index maskWorld 0 "0" "Roto1" true).1 = 1
  /\ (restoreInput 0 "1" "Roto1" [] [0; 1]%nat true true maskWorld).1
     = swapInput 0%nat (Some 1%nat) 1 maskWorld.
Proof.
  assert (Hlabel : "1" = "" \/ getInputNumberFromLabel maskWorld 0 "1" = -1)
    by (right; reflexivity).
  assert (Hint : toInt (G := Simple.World) "1" = Some 1) by reflexivity.
  destruct (restoreInput_numeric_mask_index maskWorld 0 "1" "Roto1" 1
              Hlabel Hint) as (Hindex & _ & _ & _ & Hswap).
  split_and!; [exact Hlabel | exact Hint | exact Hindex | reflexivity |].
  exact (Hswap [] [0; 1]%nat true 1%nat ltac:(done) ltac:(done) eq_refl).
Defined.

(** ** createNodesFromSerialization *)

Section CreateNodesProperties.
Context {G : Type} `{!NodeApi G} `{!Externals}.

Lemma restoreInput_index_log (g : G) node inputLabel name isMaskInput :
  existsb isCreationError
    (restoreInput_index g node inputLabel name isMaskInput).2 = false.
Proof.
  unfold restoreInput_index. destruct (_ =? -1); [|done].
  destruct (toInt inputLabel) as [k|]; simpl.
  - destruct (k =? -1), isMaskInput; done.
  - by destruct isMaskInput.
Qed.

Lemma restoreInput_log node inputLabel name createdNodes allNodesInGroup
    allow isMaskInput (g : G) :
  existsb isCreationError
    (restoreInput node inputLabel name createdNodes allNodesInGroup allow
       isMaskInput g).2 = false.
Proof.
  unfold restoreInput. destruct (bool_decide (name = "")); [done|].
  pose proof (restoreInput_index_log g node inputLabel name isMaskInput) as Hlog.
  destruct (restoreInput_index g node inputLabel name isMaskInput)
    as [index log].
  destruct (getGroup g node); [|done].
  by destruct (findSerializedNodeWithScriptName _ _ _ _ _).
Qed.

Lemma restoreInputs_log node inputsMap createdNodes allNodesInGroup allow
    isMaskInputs (g : G) :
  existsb isCreationError
    (restoreInputs node inputsMap createdNodes allNodesInGroup allow
       isMaskInputs g).2 = false.
Proof.
  unfold restoreInputs.
  assert (Hgen : forall st : G * list AppEvent,
    existsb isCreationError st.2 = false ->
    existsb isCreationError
      (fold_left
         (fun (st : G * list AppEvent) (it : string * string) =>
            let '(g', log) :=
              restoreInput node it.1 it.2 createdNodes allNodesInGroup
                allow isMaskInputs st.1 in
            (g', st.2 ++ log)) inputsMap st).2 = false).
  { induction inputsMap as [|it l IH]; intros st Hst; simpl; [done|].
    apply IH.
    pose proof (restoreInput_log node it.1 it.2 createdNodes allNodesInGroup
                  allow isMaskInputs st.1) as Hlog.
    destruct (restoreInput _ _ _ _ _ _ _ _) as [g' log]. simpl in *.
    by rewrite existsb_app, Hst, Hlog. }
  by apply Hgen.
Qed.

Lemma connect_fold_log createdNodes allNodesInGroup allow
    (l : CreatedNodesMap) (st : G * list AppEvent) :
  existsb isCreationError st.2 = false ->
  existsb isCreationError
    (fold_left (connect_step createdNodes allNodesInGroup allow) l st).2
  = false.
Proof.
  revert st. induction l as [|it l IH]; intros st Hst; simpl; [done|].
  apply IH. unfold connect_step.
  pose proof (restoreInputs_log it.2 (_inputs it.1) createdNodes
                allNodesInGroup allow false st.1) as Hlog1.
  destruct (restoreInputs it.2 (_inputs it.1) _ _ _ false _) as [g1 log1].
  pose proof (restoreInputs_log it.2 (_masks it.1) createdNodes
                allNodesInGroup allow true g1) as Hlog2.
  destruct (restoreInputs it.2 (_masks it.1) _ _ _ true _) as [g2 log2].
  simpl in *. by rewrite !existsb_app, Hst, Hlog1, Hlog2.
Qed.

(** In the first loop [hasError] is set exactly when a node could not be
    created or a stub replaced it, and each record adds one pointer to
    [*createdNodesOut]. *)
Lemma createNode_step_hasError thisShared (st : CreateState (G := G)) it :
  hasError st = existsb isCreationError (appEvents st) ->
  hasError (createNode_step thisShared st it)
  = existsb isCreationError (appEvents (createNode_step thisShared st it)).
Proof.
  intros Hst. unfold createNode_step.
  destruct (createNodeForProjectLoading it thisShared (world st))
    as [[n|] g]; simpl.
  - case_bool_decide; simpl.
    + rewrite existsb_app. simpl. by rewrite orb_true_r.
    + destruct (_ && _); simpl; rewrite existsb_app; simpl;
        by rewrite orb_false_r.
  - rewrite existsb_app. simpl. by rewrite orb_true_r.
Qed.

Lemma createNode_step_out thisShared (st : CreateState (G := G)) it :
  createdNodesOut (createNode_step thisShared st it)
  = option_map
      (fun l => l ++ [(createNodeForProjectLoading it thisShared
                         (world st)).1])
      (createdNodesOut st).
Proof.
  unfold createNode_step.
  destruct (createNodeForProjectLoading it thisShared (world st))
    as [[n|] g]; simpl.
  - case_bool_decide; [by destruct (createdNodesOut st)|].
    destruct (_ && _); by destruct (createdNodesOut st).
  - by destruct (createdNodesOut st).
Qed.

Lemma createNode_fold_hasError thisShared l (st : CreateState (G := G)) :
  hasError st = existsb isCreationError (appEvents st) ->
  hasError (fold_left (createNode_step thisShared) l st)
  = existsb isCreationError
      (appEvents (fold_left (createNode_step thisShared) l st)).
Proof.
  revert st. induction l as [|it l IH]; intros st Hst; simpl; [done|].
  by apply IH, createNode_step_hasError.
Qed.

Lemma createNode_fold_out thisShared l (st : CreateState (G := G)) out :
  createdNodesOut st = Some out ->
  exists created,
    createdNodesOut (fold_left (createNode_step thisShared) l st)
    = Some (out ++ created)
    /\ length created = length l.
Proof.
  revert st out. induction l as [|it l IH]; intros st out Hout; simpl.
  - exists []. by rewrite app_nil_r.
  - destruct (IH (createNode_step thisShared st it)
                (out ++ [(createNodeForProjectLoading it thisShared
                            (world st)).1]))
      as (created & Hcreated & Hlen).
    { by rewrite createNode_step_out, Hout. }
    eexists (_ :: created). rewrite Hcreated, <- app_assoc. simpl.
    split; [done | by rewrite Hlen].
Qed.

(** The first loop, record by record, against the answers of the
    factory. *)
Lemma createNode_step_answer thisShared (st : CreateState (G := G)) it :
  world (createNode_step thisShared st it)
  = (createNodeForProjectLoading it thisShared (world st)).2
  /\ localCreatedNodes (createNode_step thisShared st it)
     = insertAnswer (localCreatedNodes st)
         (mkFactoryAnswer it
            (createNodeForProjectLoading it thisShared (world st)).1
            (createNodeForProjectLoading it thisShared (world st)).2)
  /\ appEvents (createNode_step thisShared st it)
     = appEvents st
       ++ creationLog
            (mkFactoryAnswer it
               (createNodeForProjectLoading it thisShared (world st)).1
               (createNodeForProjectLoading it thisShared (world st)).2)
  /\ (hasError (createNode_step thisShared st it) = true
      <-> hasError st = true
          \/ noNodeOrStub
               (mkFactoryAnswer it
                  (createNodeForProjectLoading it thisShared (world st)).1
                  (createNodeForProjectLoading it thisShared (world st)).2)).
Proof.
  unfold createNode_step, insertAnswer, creationLog, noNodeOrStub.
  destruct (createNodeForProjectLoading it thisShared (world st))
    as [[n|] g]; simpl.
  - case_bool_decide as Hstub; simpl.
    + split_and!; [done | done | done | tauto].
    + destruct (_ && _); simpl; split_and!; try done; tauto.
  - split_and!; [done | done | done | tauto].
Qed.

Lemma createNode_fold_answers thisShared l (st : CreateState (G := G)) :
  world (fold_left (createNode_step thisShared) l st)
  = afterFactory (factoryAnswers thisShared l (world st)) (world st)
  /\ localCreatedNodes (fold_left (createNode_step thisShared) l st)
     = fold_left insertAnswer (factoryAnswers thisShared l (world st))
         (localCreatedNodes st)
  /\ appEvents (fold_left (createNode_step thisShared) l st)
     = appEvents st
       ++ flat_map creationLog (factoryAnswers thisShared l (world st))
  /\ (hasError (fold_left (createNode_step thisShared) l st) = true
      <-> hasError st = true
          \/ exists a, a ∈ factoryAnswers thisShared l (world st)
                       /\ noNodeOrStub a)
  /\ createdNodesOut (fold_left (createNode_step thisShared) l st)
     = option_map
         (fun o => o ++ map answerNode
                          (factoryAnswers thisShared l (world st)))
         (createdNodesOut st).
Proof.
  revert st. induction l as [|it l IH]; intros st; simpl.
  - rewrite app_nil_r. split_and!; [done | done | done | | ].
    + split; [auto|]. intros [?|(a & Ha & _)]; [done|].
      by apply elem_of_nil in Ha.
    + destruct (createdNodesOut st); simpl; [|done].
      by rewrite app_nil_r.
  - destruct (IH (createNode_step thisShared st it))
      as (Hw & Hm & Hlog & Herr & Hout).
    destruct (createNode_step_answer thisShared st it)
      as (Hw1 & Hm1 & Hlog1 & Herr1).
    rewrite Hw1 in Hw, Hm, Hlog, Herr, Hout.
    split_and!.
    + exact Hw.
    + by rewrite Hm, Hm1.
    + by rewrite Hlog, Hlog1, <- app_assoc.
    + rewrite Herr, Herr1. split.
      * intros [[?|Hbad]|(a & Ha & Hbad)]; [by left | |].
        -- right. eexists. split; [by left | exact Hbad].
        -- right. exists a. split; [by right | done].
      * intros [?|(a & Ha & Hbad)]; [by left; left|].
        apply elem_of_cons in Ha as [->|Ha]; [by left; right|].
        right. by exists a.
    + rewrite Hout, createNode_step_out.
      destruct (createdNodesOut st); simpl; [|done].
      by rewrite <- app_assoc.
Qed.

Lemma factoryAnswers_records thisShared l (g : G) :
  map answerRecord (factoryAnswers thisShared l g) = l.
Proof.
  revert g. induction l as [|s l IH]; intros g; simpl; [done|].
  by rewrite IH.
Qed.

(** The second loop writes nothing but "Could not find input" to the
    log. *)
Lemma restoreInput_wiring_log node inputLabel name createdNodes
    allNodesInGroup allow isMaskInput (g : G) :
  Forall (fun e => exists n s, e = LogCouldNotFindInput n s)
    (restoreInput node inputLabel name createdNodes allNodesInGroup allow
       isMaskInput g).2.
Proof.
  unfold restoreInput. destruct (bool_decide (name = "")); [done|].
  assert (Hidx : Forall (fun e => exists n s, e = LogCouldNotFindInput n s)
            (restoreInput_index g node inputLabel name isMaskInput).2).
  { unfold restoreInput_index. destruct (_ =? -1); [|done].
    destruct (match toInt inputLabel with Some k => k | None => -1 end
              =? -1); destruct isMaskInput; simpl; try done;
      apply Forall_cons_2; eauto. }
  destruct (restoreInput_index g node inputLabel name isMaskInput)
    as [index log].
  destruct (getGroup g node); [|done].
  by destruct (findSerializedNodeWithScriptName _ _ _ _ _).
Qed.

Lemma restoreInputs_wiring node inputsMap createdNodes allNodesInGroup allow
    isMaskInputs (g : G) :
  (restoreInputs node inputsMap createdNodes allNodesInGroup allow
     isMaskInputs g).1
  = fold_left (wire createdNodes allNodesInGroup allow isMaskInputs node)
      inputsMap g
  /\ Forall (fun e => exists n s, e = LogCouldNotFindInput n s)
       (restoreInputs node inputsMap createdNodes allNodesInGroup allow
          isMaskInputs g).2.
Proof.
  unfold restoreInputs.
  assert (Hgen : forall st : G * list AppEvent,
    Forall (fun e => exists n s, e = LogCouldNotFindInput n s) st.2 ->
    (fold_left
       (fun (st : G * list AppEvent) (it : string * string) =>
          let '(g', log) :=
            restoreInput node it.1 it.2 createdNodes allNodesInGroup
              allow isMaskInputs st.1 in
          (g', st.2 ++ log)) inputsMap st).1
    = fold_left (wire createdNodes allNodesInGroup allow isMaskInputs node)
        inputsMap st.1
    /\ Forall (fun e => exists n s, e = LogCouldNotFindInput n s)
         (fold_left
            (fun (st : G * list AppEvent) (it : string * string) =>
               let '(g', log) :=
                 restoreInput node it.1 it.2 createdNodes allNodesInGroup
                   allow isMaskInputs st.1 in
               (g', st.2 ++ log)) inputsMap st).2).
  { induction inputsMap as [|it l IH]; intros st Hst; simpl; [done|].
    pose proof (restoreInput_wiring_log node it.1 it.2 createdNodes
                  allNodesInGroup allow isMaskInputs st.1) as Hlog.
    assert (Hwire : (restoreInput node it.1 it.2 createdNodes
                       allNodesInGroup allow isMaskInputs st.1).1
                    = wire createdNodes allNodesInGroup allow isMaskInputs
                        node st.1 it).
    { unfold restoreInput, wire.
      destruct (bool_decide (it.2 = "")); [done|].
      destruct (restoreInput_index st.1 node it.1 it.2 isMaskInputs)
        as [index log].
      destruct (getGroup st.1 node); [|done].
      by destruct (findSerializedNodeWithScriptName _ _ _ _ _). }
    destruct (restoreInput _ _ _ _ _ _ _ _) as [g' log]. simpl in *.
    rewrite <- Hwire. apply IH. simpl. by apply Forall_app. }
  by apply Hgen.
Qed.

Lemma connect_fold_wiring createdNodes allNodesInGroup allow
    (l : CreatedNodesMap) (st : G * list AppEvent) :
  Forall (fun e => exists n s, e = LogCouldNotFindInput n s) st.2 ->
  (fold_left (connect_step createdNodes allNodesInGroup allow) l st).1
  = fold_left
      (fun g (it : NodeSerialization * NodeId) =>
         fold_left (wire createdNodes allNodesInGroup allow true it.2)
           (_masks it.1)
           (fold_left (wire createdNodes allNodesInGroup allow false it.2)
              (_inputs it.1) g)) l st.1
  /\ Forall (fun e => exists n s, e = LogCouldNotFindInput n s)
       (fold_left (connect_step createdNodes allNodesInGroup allow) l st).2.
Proof.
  revert st. induction l as [|it l IH]; intros st Hst; simpl; [done|].
  assert (Hstep :
    (connect_step createdNodes allNodesInGroup allow st it).1
    = fold_left (wire createdNodes allNodesInGroup allow true it.2)
        (_masks it.1)
        (fold_left (wire createdNodes allNodesInGroup allow false it.2)
           (_inputs it.1) st.1)
    /\ Forall (fun e => exists n s, e = LogCouldNotFindInput n s)
         (connect_step createdNodes allNodesInGroup allow st it).2).
  { unfold connect_step.
    destruct (restoreInputs_wiring it.2 (_inputs it.1) createdNodes
                allNodesInGroup allow false st.1) as [Hg1 Hlog1].
    destruct (restoreInputs it.2 (_inputs it.1) _ _ _ false _) as [g1 log1].
    destruct (restoreInputs_wiring it.2 (_masks it.1) createdNodes
                allNodesInGroup allow true g1) as [Hg2 Hlog2].
    destruct (restoreInputs it.2 (_masks it.1) _ _ _ true _) as [g2 log2].
    simpl in *. subst g1 g2. split; [done|].
    repeat apply Forall_app_2; done. }
  destruct Hstep as [Hg Hlog]. rewrite <- Hg. by apply IH.
Qed.

(** An entry of the first loop is in the whole log exactly when it was
    written for one of the answers. *)
Lemma creation_entry_logged (e : AppEvent) (answers : list (FactoryAnswer G))
    (log2 : list AppEvent) :
  Forall (fun e => exists n s, e = LogCouldNotFindInput n s) log2 ->
  e ≠ StatusCreatingNodes -> e ≠ StatusRestoringLinks ->
  (forall n s, e ≠ LogCouldNotFindInput n s) ->
  e ∈ (StatusCreatingNodes :: flat_map creationLog answers)
      ++ StatusRestoringLinks :: log2
  <-> exists a, a ∈ answers /\ e ∈ creationLog a.
Proof.
  intros Hlog2 H1 H2 H3.
  rewrite elem_of_app, !elem_of_cons. split.
  - intros [[?|Hin]|[?|Hin]]; [done | | done |].
    + apply list_elem_of_In, in_flat_map in Hin as (a & Ha & He).
      exists a. by rewrite !list_elem_of_In.
    + rewrite Forall_forall in Hlog2.
      destruct (Hlog2 e Hin) as (n & s & ->). by destruct (H3 n s).
  - intros (a & Ha & He). left. right.
    apply list_elem_of_In, in_flat_map. exists a. by rewrite <- !list_elem_of_In.
Qed.

(** C3, amended: [createNodesFromSerialization] returns false exactly when
    the factory, called on the records of the batch in order, gave one of
    them no node or a stub for a missing plug-in.  The error log holds
    the "does not exist in the loaded plug-ins" entry of a record exactly
    when it received no node, its "replaced by a pass-through node" entry
    exactly when it received a stub, and its "loaded with version" warning
    exactly when it received a node of another major version; neither
    that warning nor a reference that cannot be resolved takes part in the
    returned boolean.  Whatever is returned, the node objects are left
    wired as far as they could be: every reference of every record that
    received a node has been connected when it resolves and skipped when
    it does not (a reference that does not resolve leaves the node
    objects as they are), and the links of the knobs restored after
    that.  When
    asked for, the list of created nodes receives the pointers the
    factory gave, one per record. *)
Theorem createNodesFromSerialization_returns_false_iff
    (thisShared : CollectionId) (serializedNodes : NodeSerializationList)
    (connectToExternalNodes : bool) (out : option (list NodePtr)) (g : G) :
  ((createNodesFromSerialization thisShared serializedNodes
      connectToExternalNodes out g).1.1.1 = false
   <-> exists a, a ∈ factoryAnswers thisShared serializedNodes g
                 /\ noNodeOrStub a)
  /\ (forall s,
        LogNodeDoesNotExist s
          ∈ (createNodesFromSerialization thisShared serializedNodes
               connectToExternalNodes out g).1.2
        <-> exists a, a ∈ factoryAnswers thisShared serializedNodes g
                      /\ answerRecord a = s /\ answerNode a = None)
  /\ (forall s,
        LogReplacedByStub s
          ∈ (createNodesFromSerialization thisShared serializedNodes
               connectToExternalNodes out g).1.2
        <-> exists a n, a ∈ factoryAnswers thisShared serializedNodes g
                        /\ answerRecord a = s /\ answerNode a = Some n
                        /\ getPluginID (answerWorld a) n
                           = PLUGINID_NATRON_STUB)
  /\ (forall s n,
        LogLoadedWithVersion s n
          ∈ (createNodesFromSerialization thisShared serializedNodes
               connectToExternalNodes out g).1.2
        <-> exists a, a ∈ factoryAnswers thisShared serializedNodes g
                      /\ answerRecord a = s /\ otherMajorVersion a n)
  /\ (createNodesFromSerialization thisShared serializedNodes
        connectToExternalNodes out g).2
     = restoreLinksRecursive thisShared serializedNodes
         (Some (createdOf (factoryAnswers thisShared serializedNodes g)))
         (wireAll (createdOf (factoryAnswers thisShared serializedNodes g))
            (getNodes
               (afterFactory (factoryAnswers thisShared serializedNodes g) g)
               thisShared)
            connectToExternalNodes
            (afterFactory (factoryAnswers thisShared serializedNodes g) g))
  /\ (createNodesFromSerialization thisShared serializedNodes
        connectToExternalNodes out g).1.1.2
     = option_map
         (fun l => l ++ map answerNode
                          (factoryAnswers thisShared serializedNodes g))
         out
  /\ map answerRecord (factoryAnswers thisShared serializedNodes g)
     = serializedNodes
  /\ (forall node inputLabel name createdNodes allNodesInGroup allow
         isMaskInput g',
        findSerializedNodeWithScriptName g' name createdNodes
          allNodesInGroup allow = None ->
        (restoreInput node inputLabel name createdNodes allNodesInGroup
           allow isMaskInput g').1 = g'
        /\ wire createdNodes allNodesInGroup allow isMaskInput node g'
             (inputLabel, name) = g').
Proof.
  unfold createNodesFromSerialization.
  destruct (createNode_fold_answers thisShared serializedNodes
              (mkCreateState false out [] [StatusCreatingNodes] g))
    as (Hw & Hm & Hlog & Herr & Hout).
  simpl in Hw, Hm, Hlog, Herr, Hout.
  set (st := fold_left (createNode_step thisShared) serializedNodes
               (mkCreateState false out [] [StatusCreatingNodes] g)) in *.
  set (answers := factoryAnswers thisShared serializedNodes g) in *.
  fold (createdOf answers) in Hm.
  destruct (connect_fold_wiring (localCreatedNodes st)
              (getNodes (world st) thisShared) connectToExternalNodes
              (localCreatedNodes st) (world st, []) (Forall_nil_2 _))
    as [Hg2 Hlog2].
  destruct (fold_left (connect_step _ _ _) _ _) as [g2 log2]. simpl in *.
  rewrite Hlog.
  split_and!.
  - rewrite negb_false_iff, Herr. split; [|by right].
    by intros [?|?].
  - intros s. rewrite creation_entry_logged by done. split.
    + intros (a & Ha & He). exists a. split; [done|].
      unfold creationLog in He. destruct (answerNode a) as [n|].
      * case_bool_decide; [|destruct (_ && _)];
          try (by apply elem_of_nil in He);
          apply list_elem_of_singleton in He; discriminate.
      * apply list_elem_of_singleton in He. by injection He as ->.
    + intros (a & Ha & <- & Hnone). exists a. split; [done|].
      unfold creationLog. rewrite Hnone. by apply list_elem_of_singleton.
  - intros s. rewrite creation_entry_logged by done. split.
    + intros (a & Ha & He). exists a.
      unfold creationLog in He. destruct (answerNode a) as [n|].
      * exists n. case_bool_decide as Hstub.
        -- apply list_elem_of_singleton in He. by injection He as ->.
        -- destruct (_ && _); [|by apply elem_of_nil in He].
           apply list_elem_of_singleton in He. discriminate.
      * apply list_elem_of_singleton in He. discriminate.
    + intros (a & n & Ha & <- & Hn & Hstub). exists a. split; [done|].
      unfold creationLog. rewrite Hn, bool_decide_eq_true_2 by done.
      by apply list_elem_of_singleton.
  - intros s n. rewrite creation_entry_logged by done. split.
    + intros (a & Ha & He). exists a. split; [done|].
      unfold creationLog, otherMajorVersion in *.
      destruct (answerNode a) as [n'|].
      * case_bool_decide as Hstub.
        -- apply list_elem_of_singleton in He. discriminate.
        -- destruct (bool_decide (_pluginMajorVersion _ ≠ -1)) eqn:Hv1;
             [|by apply elem_of_nil in He].
           destruct (bool_decide (getMajorVersion _ _ ≠ _)) eqn:Hv2;
             [|by apply elem_of_nil in He].
           simpl in He. apply list_elem_of_singleton in He.
           injection He as -> ->.
           apply bool_decide_eq_true in Hv1, Hv2. done.
      * apply list_elem_of_singleton in He. discriminate.
    + intros (a & Ha & <- & Hn & Hstub & Hv1 & Hv2). exists a.
      split; [done|]. unfold creationLog.
      rewrite Hn, bool_decide_eq_false_2 by done.
      rewrite !bool_decide_eq_true_2 by done. simpl.
      by apply list_elem_of_singleton.
  - rewrite Hg2, Hm, Hw. done.
  - done.
  - apply factoryAnswers_records.
  - intros node inputLabel name createdNodes allNodesInGroup allow
      isMaskInput g' Hnone.
    unfold restoreInput, wire. simpl. rewrite Hnone.
    destruct (bool_decide (name = "")); [done|].
    destruct (restoreInput_index g' node inputLabel name isMaskInput).
    by destruct (getGroup g' node).
Qed.
End CreateNodesProperties.

(** C3, as stated, fails: the record was saved by version 2 of a plug-in
    loaded in version 1 and names an input node that cannot be found; the
    version warning is logged, the input stays free, and the call returns
    true. *)
Lemma createNodes_true_despite_anomalies :
  (createNodesFromSerialization 0 [blurRecord] false None loadWorld).1.1.1
  = true
  /\ (createNodesFromSerialization 0 [blurRecord] false None loadWorld).1.2
     = [StatusCreatingNodes; LogLoadedWithVersion blurRecord 0;
        StatusRestoringLinks]
  /\ findSerializedNodeWithScriptName
       (createNode_step 0
          (mkCreateState false None [] [StatusCreatingNodes] loadWorld)
          blurRecord).(world)
       "Read7" [(blurRecord, 0%nat)] [0%nat] false = None
  /\ Simple.slotsOf
       (createNodesFromSerialization 0 [blurRecord] false None loadWorld).2 0
     = [Simple.mkInputSlot "Source" false None].
Proof. split_and!; reflexivity. Qed.

(** ** The functions at work *)

(** With "Blur1" and "Blur2" taken the next node is "Blur3"; the unnumbered
    name is refused when taken and numbering is off. *)
Example checkNodeName_third_blur :
  checkNodeName
    (mkNodeCollection [plainNode 1 "Blur1"; plainNode 2 "Blur2"] false None)
    None "Blur" true false
  = Some (inr "Blur3")
  /\ checkNodeName
       (mkNodeCollection [plainNode 1 "Blur"] false None) None "Blur" false
       false
     = Some (inl (NodeNameExists "Blur"))
  /\ checkNodeName
       (mkNodeCollection [plainNode 1 "Blur"] false None) (Some 1%nat) "Blur"
       false false
     = Some (inr "Blur").
Proof. split_and!; reflexivity. Qed.

(** The Output node keeps its bare name until that name is taken. *)
Example initNodeName_output :
  initNodeName emptyCollection "fr.inria.built-in.Output" "Output"
  = Some (inr "Output")
  /\ initNodeName (mkNodeCollection [plainNode 1 "Output"] false None)
       "fr.inria.built-in.Output" "Output"
     = Some (inr "Output1").
Proof. split_and!; reflexivity. Qed.

(** A selected output node receives the created node on its input; two
    output nodes are not connected. *)
Example autoConnectNodes_viewer :
  (autoConnectNodes viewerWorld 0 1).2 = true
  /\ Simple.slotsOf (autoConnectNodes viewerWorld 0 1).1 0
     = [Simple.mkInputSlot "1" false (Some 1%nat)]
  /\ autoConnectNodes viewerWorld 0 0 = (viewerWorld, false).
Proof. split_and!; reflexivity. Qed.

(** A record whose plug-in is not loaded gets a stub, and the call returns
    false. *)
Example createNodes_stub :
  (createNodesFromSerialization 0 [unknownRecord] false (Some []) loadWorld)
    .1.1
  = (false, Some [Some 0%nat])
  /\ (createNodesFromSerialization 0 [unknownRecord] false (Some [])
        loadWorld).1.2
     = [StatusCreatingNodes; LogReplacedByStub unknownRecord;
        StatusRestoringLinks].
Proof. split_and!; reflexivity. Qed.

(** Two records of a loaded plug-in, the first naming the second as its
    input and a node that is nowhere as its mask: the input is connected,
    the mask is skipped with an entry in the log, and the call returns
    true. *)
Example createNodes_wires_batch :
  (createNodesFromSerialization 0
     [mkNodeSerialization 100 "net.Blur" 1 0 "Blur1" [("Source", "Blur2")]
        [("Mask", "Roto9")] [];
      mkNodeSerialization 101 "net.Blur" 1 0 "Blur2" [] [] []]
     false (Some []) loadWorld).1
  = (true, Some [Some 0%nat; Some 1%nat],
     [StatusCreatingNodes; StatusRestoringLinks;
      LogCouldNotFindInput 0 "Roto9"])
  /\ Simple.slotsOf
       (createNodesFromSerialization 0
          [mkNodeSerialization 100 "net.Blur" 1 0 "Blur1"
             [("Source", "Blur2")] [("Mask", "Roto9")] [];
           mkNodeSerialization 101 "net.Blur" 1 0 "Blur2" [] [] []]
          false (Some []) loadWorld).2 0
     = [Simple.mkInputSlot "Source" false (Some 1%nat)]
  /\ Simple.slotsOf
       (createNodesFromSerialization 0
          [mkNodeSerialization 100 "net.Blur" 1 0 "Blur1"
             [("Source", "Blur2")] [("Mask", "Roto9")] [];
           mkNodeSerialization 101 "net.Blur" 1 0 "Blur2" [] [] []]
          false (Some []) loadWorld).2 1
     = [Simple.mkInputSlot "Source" false None].
Proof. split_and!; reflexivity. Qed.

(** * Further properties *)

(** ** Qualified names *)

Lemma string_substring_full (s : string) :
  String.substring 0 (String.length s) s = s.
Proof. induction s as [|ch s IH]; simpl; [done | by rewrite IH]. Qed.

Lemma string_substring_app_r (s t : string) (k m : nat) :
  String.substring (String.length s + k) m (s +:+ t) = String.substring k m t.
Proof. induction s as [|ch s IH]; simpl; [done | apply IH]. Qed.

Lemma substr_from_app (s t : string) : substr_from (String.length s) (s +:+ t) = t.
Proof.
  unfold substr_from. rewrite string_length_app.
  replace (String.length s + String.length t - String.length s)%nat
    with (String.length t) by lia.
  rewrite <- (Nat.add_0_r (String.length s)) at 1.
  rewrite string_substring_app_r. apply string_substring_full.
Qed.

Lemma string_app_cons (ch : ascii) (s t : string) :
  String ch s +:+ t = String ch (s +:+ t).
Proof. done. Qed.

Lemma string_app_nil_l (t : string) : "" +:+ t = t.
Proof. done. Qed.

Lemma string_app_assoc (s t u : string) : (s +:+ t) +:+ u = s +:+ t +:+ u.
Proof.
  induction s as [|ch s IH]; [done|]. by rewrite !string_app_cons, IH.
Qed.

Lemma find_first_of_app (ch : ascii) (n r : string) :
  find_first_of ch n = None ->
  find_first_of ch (n +:+ String ch r) = Some (String.length n).
Proof.
  induction n as [|c n IH]; simpl; intros Hn.
  - rewrite ?string_app_nil_l. simpl. by rewrite Ascii.eqb_refl.
  - rewrite ?string_app_cons. simpl. destruct (Ascii.eqb c ch); [done|].
    destruct (find_first_of ch n); [done|]. by rewrite IH.
Qed.

Lemma find_last_of_None (ch : ascii) (s : string) :
  find_first_of ch s = None -> find_last_of ch s = None.
Proof.
  induction s as [|c s IH]; simpl; [done|].
  destruct (Ascii.eqb c ch); [done|].
  destruct (find_first_of ch s); [done|]. intros _. by rewrite IH.
Qed.

Lemma find_last_of_app (ch : ascii) (p n : string) :
  find_first_of ch n = None ->
  find_last_of ch (p +:+ String ch n) = Some (String.length p).
Proof.
  intros Hn. induction p as [|c p IH]; simpl.
  - rewrite ?string_app_nil_l. simpl.
    by rewrite find_last_of_None, Ascii.eqb_refl.
  - rewrite ?string_app_cons. simpl. by rewrite IH.
Qed.

(** Every string is free of dots or splits at its first dot. *)
Lemma string_first_dot (s : string) :
  dotFree s
  \/ exists n r, dotFree n /\ s = n +:+ "." +:+ r.
Proof.
  unfold dotFree. induction s as [|c s IH]; [by left|].
  simpl. destruct (Ascii.eqb c ".") eqn:Hc.
  - right. apply Ascii.eqb_eq in Hc as ->. by exists "", s.
  - destruct IH as [->|(n & r & Hn & ->)]; [by left|].
    right. exists (String c n), r. split; [|done]. simpl. by rewrite Hc, Hn.
Qed.

Lemma LeftToRight_dotFree full name0 remainder0 :
  dotFree full ->
  getNodeNameAndRemainder_LeftToRight full name0 remainder0
  = (full, remainder0).
Proof.
  intros Hfull. unfold getNodeNameAndRemainder_LeftToRight.
  unfold dotFree in Hfull. by rewrite Hfull.
Qed.

Lemma LeftToRight_dotted n r name0 remainder0 :
  dotFree n ->
  getNodeNameAndRemainder_LeftToRight (n +:+ "." +:+ r) name0 remainder0
  = (n, if bool_decide (r = "") then remainder0 else r).
Proof.
  intros Hn. unfold getNodeNameAndRemainder_LeftToRight.
  change ("." +:+ r) with (String "."%char r).
  rewrite (find_first_of_app _ n r Hn).
  rewrite string_substring_app. f_equal.
  rewrite string_length_app. simpl String.length.
  case_bool_decide as Hr.
  - subst r. simpl.
    by replace (String.length n + 1 <? String.length n + 1)%nat with false
      by (symmetry; apply Nat.ltb_ge; lia).
  - replace (String.length n + 1 <? String.length n + S (String.length r))%nat
      with true
      by (symmetry; apply Nat.ltb_lt; destruct r; [done | simpl; lia]).
    replace (n +:+ String "."%char r) with ((n +:+ ".") +:+ r)
      by apply string_app_assoc.
    replace (String.length n + 1)%nat with (String.length (n +:+ "."))
      by (by rewrite string_length_app).
    apply substr_from_app.
Qed.

(** X1: [getNodeNameAndRemainder_LeftToRight] cuts a name at its first
    dot: a name without dot is returned whole and the remainder is not
    assigned; otherwise the name is what precedes the first dot and the
    remainder what follows it, unless nothing follows, in which case the
    remainder is not assigned either. *)
Theorem getNodeNameAndRemainder_LeftToRight_split (name0 remainder0 : string) :
  (forall full, dotFree full ->
     getNodeNameAndRemainder_LeftToRight full name0 remainder0
     = (full, remainder0))
  /\ (forall n r, dotFree n ->
        getNodeNameAndRemainder_LeftToRight (n +:+ "." +:+ r) name0 remainder0
        = (n, if bool_decide (r = "") then remainder0 else r))
  /\ (forall full,
        dotFree full \/ exists n r, dotFree n /\ full = n +:+ "." +:+ r).
Proof.
  split_and!.
  - intros full. apply LeftToRight_dotFree.
  - intros n r. apply LeftToRight_dotted.
  - apply string_first_dot.
Qed.

(** X2: [getNodeNameAndRemainder_RightToLeft] returns as name what follows
    the last dot.  For the remainder it takes [foundDot - 1] characters, so
    the character just before the last dot is not part of it; a name that
    starts with its only dot, or has none, leaves the remainder
    unassigned. *)
Theorem getNodeNameAndRemainder_RightToLeft_split (name0 remainder0 : string) :
  (forall full, dotFree full ->
     getNodeNameAndRemainder_RightToLeft full name0 remainder0
     = (full, remainder0))
  /\ (forall n, dotFree n ->
        getNodeNameAndRemainder_RightToLeft ("." +:+ n) name0 remainder0
        = (n, remainder0))
  /\ (forall q ch n, dotFree n ->
        getNodeNameAndRemainder_RightToLeft (q +:+ String ch ("." +:+ n))
          name0 remainder0
        = (n, q)).
Proof.
  split_and!.
  - intros full Hfull. unfold getNodeNameAndRemainder_RightToLeft.
    by rewrite find_last_of_None.
  - intros n Hn. unfold getNodeNameAndRemainder_RightToLeft.
    change ("." +:+ n) with ("" +:+ String "."%char n).
    rewrite (find_last_of_app _ "" n Hn). simpl. f_equal.
    apply (substr_from_app "." n).
  - intros q ch n Hn. unfold getNodeNameAndRemainder_RightToLeft.
    replace (q +:+ String ch ("." +:+ n))
      with ((q +:+ String ch "") +:+ String "."%char n)
      by (by rewrite string_app_assoc).
    rewrite (find_last_of_app _ (q +:+ String ch "") n Hn).
    rewrite string_length_app. simpl String.length.
    replace (0 <? String.length q + 1)%nat with true
      by (symmetry; apply Nat.ltb_lt; lia).
    f_equal.
    + replace ((q +:+ String ch "") +:+ String "."%char n)
        with (((q +:+ String ch "") +:+ ".") +:+ n)
        by apply string_app_assoc.
      replace (String.length q + 1 + 1)%nat
        with (String.length ((q +:+ String ch "") +:+ "."))
        by (by rewrite !string_length_app).
      apply substr_from_app.
    + replace (String.length q + 1 - 1)%nat with (String.length q) by lia.
      rewrite string_app_assoc. apply string_substring_app.
Qed.

(** ** Look-ups by name *)

(** The recursive call on a group member is the function itself on the
    nested collection. *)
Lemma getNodeByFullySpecifiedName_group_unfold g c fullySpecifiedName :
  isEffectNodeGroup g = Some c ->
  getNodeByFullySpecifiedName_group g fullySpecifiedName
  = getNodeByFullySpecifiedName c fullySpecifiedName.
Proof.
  intros Hc. unfold getNodeByFullySpecifiedName, findNodeInternal.
  destruct g as [a s r gi go fr gc]; simpl in *. subst gc.
  destruct (getNodeNameAndRemainder_LeftToRight fullySpecifiedName "" "")
    as [toFind recurseName]. simpl.
  induction (nodes c) as [|it l IHl]; simpl; [done|]. by rewrite IHl.
Qed.

Lemma findNodeInternal_loop_plain name l :
  findNodeInternal_loop name "" l
  = find (fun it => bool_decide (getScriptName_mt_safe it = name)) l.
Proof.
  induction l as [|it l IHl]; simpl; [done|].
  by destruct (bool_decide (getScriptName_mt_safe it = name)).
Qed.

Lemma findNodeInternal_loop_recurse name recurseName l :
  recurseName ≠ "" ->
  findNodeInternal_loop name recurseName l
  = match find (fun it => bool_decide (getScriptName_mt_safe it = name)
                          && isGroupNode it) l with
    | Some g => getNodeByFullySpecifiedName_group g recurseName
    | None => None
    end.
Proof.
  intros Hr. induction l as [|it l IHl]; simpl; [done|].
  rewrite (bool_decide_eq_false_2 (recurseName = "")) by done. simpl.
  destruct (bool_decide (getScriptName_mt_safe it = name)); simpl; [|done].
  by destruct (isGroupNode it).
Qed.

Lemma find_scriptName_None name (l : list Node) :
  find (fun it => bool_decide (getScriptName_mt_safe it = name)) l = None
  <-> name ∉ map getScriptName_mt_safe l.
Proof.
  induction l as [|it l IHl]; simpl.
  - split; [intros _ ?%elem_of_nil; done | done].
  - case_bool_decide as Hit.
    + split; [done|]. intros Hnot. exfalso. apply Hnot, elem_of_cons. by left.
    + rewrite IHl. split.
      * intros Hnot [?|?]%elem_of_cons; [by subst | done].
      * intros Hnot Hin. apply Hnot. by right.
Qed.

Lemma find_scriptName_Some name (l : list Node) it :
  find (fun it => bool_decide (getScriptName_mt_safe it = name)) l = Some it ->
  it ∈ l /\ getScriptName_mt_safe it = name.
Proof.
  intros Hfind. apply find_some in Hfind as [Hin Hname].
  split; [by apply list_elem_of_In | by apply bool_decide_eq_true in Hname].
Qed.

(** X3: [getNodeByName] returns a member with the script-name, and
    null exactly when no member has it; after [addNode] of a node whose
    script-name no member carries, the look-up of that name returns the
    node and the look-up of every other name is as before. *)
Theorem getNodeByName_after_addNode (c : NodeCollection) (node : Node) :
  getScriptName_mt_safe node ∉ scriptNames c ->
  NodeCollection_getNodeByName (addNode c node) (getScriptName_mt_safe node)
  = Some node
  /\ (forall name, name ≠ getScriptName_mt_safe node ->
        NodeCollection_getNodeByName (addNode c node) name
        = NodeCollection_getNodeByName c name)
  /\ (forall name,
        NodeCollection_getNodeByName c name = None <-> name ∉ scriptNames c)
  /\ (forall name it,
        NodeCollection_getNodeByName c name = Some it ->
        it ∈ nodes c /\ getScriptName_mt_safe it = name).
Proof.
  intros Hfresh.
  unfold NodeCollection_getNodeByName, findNodeInternal, scriptNames in *.
  split_and!.
  - rewrite findNodeInternal_loop_plain. simpl.
    apply find_scriptName_None in Hfresh.
    induction (nodes c) as [|it l IHl]; simpl in *.
    + by rewrite bool_decide_eq_true_2.
    + destruct (bool_decide (getScriptName_mt_safe it = _)); [done | by apply IHl].
  - intros name Hname. rewrite !findNodeInternal_loop_plain. simpl.
    induction (nodes c) as [|it l IHl]; simpl.
    + by rewrite bool_decide_eq_false_2.
    + destruct (bool_decide (getScriptName_mt_safe it = name)); [done|].
      apply IHl. intros Hin. apply Hfresh. by right.
  - intros name. rewrite findNodeInternal_loop_plain.
    apply find_scriptName_None.
  - intros name it. rewrite findNodeInternal_loop_plain.
    apply find_scriptName_Some.
Qed.

(** X3 at a collection with "Blur1", to which "Grade1" is added. *)
Lemma getNodeByName_after_addNode_witness :
  ("Grade1" ∉ scriptNames (addNode emptyCollection (plainNode 1 "Blur1")))
  /\ NodeCollection_getNodeByName
       (addNode (addNode emptyCollection (plainNode 1 "Blur1"))
          (plainNode 2 "Grade1")) "Grade1"
     = Some (plainNode 2 "Grade1").
Proof.
  assert (Hfresh : getScriptName_mt_safe (plainNode 2 "Grade1")
                   ∉ scriptNames (addNode emptyCollection (plainNode 1 "Blur1"))).
  { simpl. intros Hin. apply list_elem_of_singleton in Hin. discriminate. }
  split; [exact Hfresh|].
  exact (proj1 (getNodeByName_after_addNode _ _ Hfresh)).
Defined.

Lemma getNodeByFullySpecifiedName_group_nested g :
  forall fullySpecifiedName it,
    getNodeByFullySpecifiedName_group g fullySpecifiedName = Some it ->
    it ∈ nestedNodes g.
Proof.
  induction g as [g IH] using Node_nested_ind. intros path it Hfound.
  destruct (isEffectNodeGroup g) as [c|] eqn:Hc.
  - specialize (IH c eq_refl).
    rewrite (getNodeByFullySpecifiedName_group_unfold g c) in Hfound by done.
    unfold nestedNodes. rewrite Hc.
    unfold getNodeByFullySpecifiedName, findNodeInternal in Hfound.
    destruct (getNodeNameAndRemainder_LeftToRight path "" "")
      as [toFind recurseName].
    induction IH as [|m l Hm _ IHl]; simpl in Hfound; [done|].
    unfold allNodes. simpl. rewrite subtree_unfold.
    destruct (bool_decide (getScriptName_mt_safe m = toFind)).
    + destruct (negb (bool_decide (recurseName = ""))).
      * destruct (isGroupNode m).
        -- apply Hm in Hfound. rewrite elem_of_app. left. by right.
        -- rewrite elem_of_app. right. by apply IHl.
      * injection Hfound as <-. rewrite elem_of_app. left. by left.
    + rewrite elem_of_app. right. by apply IHl.
  - destruct g as [a s r gi go fr gc]; simpl in *. by subst gc.
Qed.

(** X4: [getNodeByFullySpecifiedName] resolves a dotted path one segment
    at a time.  A path without dot is looked up like a plain name.  For a
    path [n.r] the first member called [n] that is a group is entered and
    [r] is resolved in its nested collection, members called [n] that are
    no group being passed over; without such a member the result is null.
    Whatever is returned is a node of the collection or of one of its
    nested groups. *)
Theorem getNodeByFullySpecifiedName_descends (c : NodeCollection) :
  (forall name, dotFree name ->
     getNodeByFullySpecifiedName c name = NodeCollection_getNodeByName c name)
  /\ (forall n r, dotFree n -> r ≠ "" ->
        getNodeByFullySpecifiedName c (n +:+ "." +:+ r)
        = match find (fun it => bool_decide (getScriptName_mt_safe it = n)
                                && isGroupNode it) (nodes c) with
          | Some g =>
              match isEffectNodeGroup g with
              | Some nested => getNodeByFullySpecifiedName nested r
              | None => None
              end
          | None => None
          end)
  /\ (forall n, dotFree n ->
        getNodeByFullySpecifiedName c (n +:+ ".")
        = NodeCollection_getNodeByName c n)
  /\ (forall fullySpecifiedName it,
        getNodeByFullySpecifiedName c fullySpecifiedName = Some it ->
        it ∈ allNodes (nodes c)).
Proof.
  split_and!.
  - intros name Hname. unfold getNodeByFullySpecifiedName.
    by rewrite (LeftToRight_dotFree name "" "" Hname).
  - intros n r Hn Hr. unfold getNodeByFullySpecifiedName.
    rewrite (LeftToRight_dotted n r "" "" Hn), bool_decide_eq_false_2 by done.
    unfold findNodeInternal. rewrite findNodeInternal_loop_recurse by done.
    destruct (find _ (nodes c)) as [g|] eqn:Hfind; [|done].
    destruct (isEffectNodeGroup g) as [nested|] eqn:Hg.
    + by apply getNodeByFullySpecifiedName_group_unfold.
    + destruct g as [a s fr gi go rg gc]; simpl in *. by subst gc.
  - intros n Hn. unfold getNodeByFullySpecifiedName.
    change (n +:+ ".") with (n +:+ "." +:+ "").
    by rewrite (LeftToRight_dotted n "" "" "" Hn).
  - intros path it Hfound.
    rewrite <- (getNodeByFullySpecifiedName_group_unfold (asGroupNode c) c)
      in Hfound by done.
    by apply getNodeByFullySpecifiedName_group_nested in Hfound.
Qed.

(** ** The listings of nested collections *)

Lemma getActiveNodesExpandGroups_group_unfold g c out :
  isEffectNodeGroup g = Some c ->
  getActiveNodesExpandGroups_group g out = getActiveNodesExpandGroups c out.
Proof.
  intros Hc. unfold getActiveNodesExpandGroups.
  destruct g as [a s r gi go fr gc]; simpl in *. subst gc.
  revert out. induction (nodes c) as [|it l IHl]; intros out; simpl; [done|].
  apply IHl.
Qed.

Lemma getActiveNodesExpandGroups_group_preorder g out :
  getActiveNodesExpandGroups_group g out = out ++ nestedNodes g.
Proof.
  revert out. induction g as [g IH] using Node_nested_ind. intros out.
  destruct (isEffectNodeGroup g) as [c|] eqn:Hc.
  - rewrite (getActiveNodesExpandGroups_group_unfold g c) by done.
    unfold nestedNodes. rewrite Hc. specialize (IH c eq_refl).
    unfold getActiveNodesExpandGroups, allNodes. revert out.
    induction IH as [|it l Hit _ IHl]; intros out; simpl.
    + by rewrite app_nil_r.
    + rewrite subtree_unfold.
      destruct (isGroupNode it) eqn:Hgrp.
      * rewrite Hit, IHl. by rewrite <- !app_assoc.
      * unfold isGroupNode in Hgrp.
        destruct (isEffectNodeGroup it) eqn:Hit'; [done|].
        rewrite (nestedNodes_plain it Hit'), IHl. by rewrite <- !app_assoc.
  - rewrite nestedNodes_plain by done. rewrite app_nil_r.
    destruct g as [a s r gi go fr gc]; simpl in *. by subst gc.
Qed.

Lemma getActiveNodesExpandGroups_allNodes c out :
  getActiveNodesExpandGroups c out = out ++ allNodes (nodes c).
Proof.
  rewrite <- (getActiveNodesExpandGroups_group_unfold (asGroupNode c) c) by done.
  apply getActiveNodesExpandGroups_group_preorder.
Qed.

(** X5: [getActiveNodesExpandGroups] appends the members in order, each
    group member followed at once by the expansion of its own members, down
    to any depth: nothing of the tree is left out or listed twice, and what
    the list held before is kept in front. *)
Theorem getActiveNodesExpandGroups_preorder (c : NodeCollection)
    (out : NodesList) :
  getActiveNodesExpandGroups c out = out ++ allNodes (nodes c)
  /\ (forall it l,
        nodes c = it :: l ->
        getActiveNodesExpandGroups c out
        = out ++ it :: nestedNodes it ++ allNodes l).
Proof.
  split; [apply getActiveNodesExpandGroups_allNodes|].
  intros it l Hnodes. rewrite getActiveNodesExpandGroups_allNodes, Hnodes.
  unfold allNodes. simpl. by rewrite subtree_unfold.
Qed.

Lemma allNodes_members_first (l : list Node) :
  allNodes l ≡ₚ l ++ flat_map nestedNodes l.
Proof.
  unfold allNodes. induction l as [|it l IHl]; simpl; [done|].
  rewrite subtree_unfold, IHl. simpl. f_equiv.
  rewrite !app_assoc. f_equiv. apply Permutation_app_comm.
Qed.

Lemma nested_of_groups (l : list Node) :
  flat_map nestedNodes (filter (fun it => isGroupNode it = true) l)
  = flat_map nestedNodes l.
Proof.
  induction l as [|it l IHl]; simpl; [done|].
  rewrite filter_cons. destruct (isGroupNode it) eqn:Hgrp; simpl.
  - by rewrite IHl.
  - unfold isGroupNode in Hgrp.
    destruct (isEffectNodeGroup it) eqn:Hit; [done|].
    by rewrite (nestedNodes_plain it Hit), IHl.
Qed.

Lemma getNodes_recursive_groups_perm (groups : list Node) (acc : NodesList) :
  Forall (fun g => forall out,
            getNodes_recursive_group false g out ≡ₚ out ++ nestedNodes g)
    groups ->
  fold_left (fun out g => getNodes_recursive_group false g out) groups acc
  ≡ₚ acc ++ flat_map nestedNodes groups.
Proof.
  intros Hall. revert acc.
  induction Hall as [|g groups Hg _ IHg]; intros acc; simpl.
  - by rewrite app_nil_r.
  - rewrite IHg, Hg. by rewrite <- app_assoc.
Qed.

Lemma getNodes_recursive_group_perm g out :
  getNodes_recursive_group false g out ≡ₚ out ++ nestedNodes g.
Proof.
  revert out. induction g as [g IH] using Node_nested_ind. intros out.
  destruct (isEffectNodeGroup g) as [c|] eqn:Hc.
  - rewrite (getNodes_recursive_group_unfold false g c) by done.
    unfold nestedNodes. rewrite Hc. specialize (IH c eq_refl).
    unfold getNodes_recursive. rewrite getNodes_snapshot_all. simpl.
    rewrite getNodes_recursive_groups_perm.
    + rewrite nested_of_groups, allNodes_members_first. by rewrite <- app_assoc.
    + apply Forall_forall. intros g' Hg'.
      apply list_elem_of_filter in Hg' as [_ Hg'].
      rewrite Forall_forall in IH. by apply IH.
  - rewrite nestedNodes_plain by done. rewrite app_nil_r.
    destruct g as [a s r gi go fr gc]; simpl in *. by subst gc.
Qed.

(** X6: without the [onlyActive] flag, [getNodes_recursive] lists every
    node of the collection and of its nested groups exactly once after
    what the list held: the same nodes as [getActiveNodesExpandGroups],
    in another order (the members of a level come before the members of
    its groups). *)
Theorem getNodes_recursive_lists_all_once (c : NodeCollection)
    (out : NodesList) :
  getNodes_recursive c false out ≡ₚ out ++ allNodes (nodes c)
  /\ getNodes_recursive c false out ≡ₚ getActiveNodesExpandGroups c out
  /\ (exists rest,
        getNodes_recursive c false out = out ++ nodes c ++ rest
        /\ rest ≡ₚ flat_map nestedNodes (nodes c)).
Proof.
  assert (Hperm : getNodes_recursive c false out ≡ₚ out ++ allNodes (nodes c)).
  { rewrite <- (getNodes_recursive_group_unfold false (asGroupNode c) c) by done.
    apply getNodes_recursive_group_perm. }
  split_and!; [done | by rewrite getActiveNodesExpandGroups_allNodes |].
  unfold getNodes_recursive. rewrite getNodes_snapshot_all. simpl.
  assert (Hgen : forall groups acc,
    exists rest,
      fold_left (fun out g => getNodes_recursive_group false g out) groups acc
      = acc ++ rest /\ rest ≡ₚ flat_map nestedNodes groups).
  { induction groups as [|g groups IHg]; intros acc; simpl.
    - exists []. by rewrite app_nil_r.
    - destruct (IHg (getNodes_recursive_group false g acc)) as (rest & -> & Hrest).
      pose proof (getNodes_recursive_group_perm g acc) as Hg.
      assert (Hpre : exists mid, getNodes_recursive_group false g acc = acc ++ mid).
      { clear. revert acc. induction g as [g IH] using Node_nested_ind.
        intros acc. destruct (isEffectNodeGroup g) as [cg|] eqn:Hc.
        - rewrite (getNodes_recursive_group_unfold false g cg) by done.
          specialize (IH cg eq_refl). unfold getNodes_recursive.
          rewrite getNodes_snapshot_all. simpl.
          assert (Hgrp : Forall (fun g => forall acc, exists mid,
                     getNodes_recursive_group false g acc = acc ++ mid)
                    (filter (fun it => isGroupNode it = true) (nodes cg))).
          { apply Forall_forall. intros g' Hg'.
            apply list_elem_of_filter in Hg' as [_ Hg'].
            rewrite Forall_forall in IH. by apply IH. }
          generalize (nodes cg) at 2. intros l0.
          assert (Hfold : forall acc', exists mid,
            fold_left (fun out g => getNodes_recursive_group false g out)
              (filter (fun it => isGroupNode it = true) (nodes cg)) acc'
            = acc' ++ mid).
          { induction Hgrp as [|g' gs Hg' _ IHgs]; intros acc'; simpl.
            - exists []. by rewrite app_nil_r.
            - destruct (Hg' acc') as (mid1 & ->).
              destruct (IHgs (acc' ++ mid1)) as (mid2 & ->).
              exists (mid1 ++ mid2). by rewrite app_assoc. }
          destruct (Hfold (acc ++ l0)) as (mid & ->).
          exists (l0 ++ mid). by rewrite app_assoc.
        - exists []. rewrite app_nil_r.
          destruct g as [a s r gi go fr gc]; simpl in *. by subst gc. }
      destruct Hpre as (mid & Hmid). rewrite Hmid in *.
      exists (mid ++ rest). rewrite app_assoc. split; [done|].
      apply Permutation_app_inv_l in Hg. by rewrite Hg, Hrest. }
  destruct (Hgen (filter (fun it => isGroupNode it = true) (nodes c))
              (out ++ nodes c)) as (rest & -> & Hrest).
  exists rest. rewrite <- app_assoc. split; [done|].
  by rewrite Hrest, nested_of_groups.
Qed.

(** ** Stopping the processing before the teardown *)

Lemma quitAnyProcessing_group_unfold blocking g c :
  isEffectNodeGroup g = Some c ->
  quitAnyProcessing_group blocking g = quitAnyProcessingInternal c blocking.
Proof.
  intros Hc. unfold quitAnyProcessingInternal.
  destruct g as [a s r gi go fr gc]; simpl in *. subst gc.
  induction (nodes c) as [|it l IHl]; simpl; [done | by rewrite IHl].
Qed.

Lemma quitAnyProcessing_group_preorder blocking g :
  quitAnyProcessing_group blocking g
  = map (fun it => QuitAnyProcessing blocking (nodeAddr it)) (nestedNodes g).
Proof.
  induction g as [g IH] using Node_nested_ind.
  destruct (isEffectNodeGroup g) as [c|] eqn:Hc.
  - rewrite (quitAnyProcessing_group_unfold blocking g c) by done.
    unfold nestedNodes. rewrite Hc. specialize (IH c eq_refl).
    unfold quitAnyProcessingInternal, allNodes.
    induction IH as [|it l Hit _ IHl]; simpl; [done|].
    rewrite subtree_unfold, map_app, IHl. simpl. do 2 f_equal.
    destruct (isGroupNode it) eqn:Hgrp; [done|].
    unfold isGroupNode in Hgrp. destruct (isEffectNodeGroup it) eqn:Hit'; [done|].
    by rewrite (nestedNodes_plain it Hit').
  - rewrite nestedNodes_plain by done.
    destruct g as [a s r gi go fr gc]; simpl in *. by subst gc.
Qed.

Lemma quitAnyProcessingInternal_preorder c blocking :
  quitAnyProcessingInternal c blocking
  = map (fun it => QuitAnyProcessing blocking (nodeAddr it))
      (allNodes (nodes c)).
Proof.
  rewrite <- (quitAnyProcessing_group_unfold blocking (asGroupNode c) c) by done.
  apply quitAnyProcessing_group_preorder.
Qed.

(** X7: [quitAnyProcessingInternal] asks every node of the collection and
    of its nested groups once to stop, a group node before its members;
    [clearNodesBlocking] does so, blocking, before anything is torn down:
    whatever teardown call is made, every node has been asked to stop
    before it, and the collection is empty afterwards. *)
Theorem clearNodesBlocking_quits_first (c : NodeCollection) :
  (forall blocking,
     quitAnyProcessingInternal c blocking
     = map (fun it => QuitAnyProcessing blocking (nodeAddr it))
         (allNodes (nodes c)))
  /\ (clearNodesBlocking c).1
     = map (fun it => QuitAnyProcessing true (nodeAddr it)) (allNodes (nodes c))
       ++ map Teardown (clearNodesInternal c).1
  /\ (forall m e, m ∈ allNodes (nodes c) ->
        Precedes (QuitAnyProcessing true (nodeAddr m)) (Teardown e)
          (clearNodesBlocking c).1)
  /\ hasNodes (clearNodesBlocking c).2 = false.
Proof.
  split_and!.
  - intros blocking. apply quitAnyProcessingInternal_preorder.
  - unfold clearNodesBlocking, quitAnyProcessingForAllNodes_blocking. simpl.
    by rewrite quitAnyProcessingInternal_preorder.
  - intros m e Hm. unfold clearNodesBlocking,
      quitAnyProcessingForAllNodes_blocking.
    cbn [fst]. rewrite quitAnyProcessingInternal_preorder.
    apply precedes_app_split.
    + apply list_elem_of_fmap. by exists m.
    + intros Hin. apply list_elem_of_fmap in Hin as (it & Heq & _). discriminate.
  - done.
Qed.

(** ** Frame ranges *)

Lemma readerFrameRange_silent setFrameRange it fl :
  getFrameRange_public it = None
  \/ getFrameRange_public it = Some (INT_MIN, INT_MAX) ->
  readerFrameRange setFrameRange it fl = fl.
Proof.
  unfold readerFrameRange. intros [-> | ->]; [done|].
  rewrite !bool_decide_eq_false_2 by (by intros ?). by destruct fl.
Qed.

Lemma recomputeFrameRange_group_silent g fl :
  Forall givesNoRange (nestedNodes g) ->
  recomputeFrameRange_group g fl = fl.
Proof.
  revert fl. induction g as [g IH] using Node_nested_ind. intros fl Hall.
  destruct (isEffectNodeGroup g) as [c|] eqn:Hc.
  - rewrite (recomputeFrameRange_group_unfold g c) by done.
    unfold nestedNodes in Hall. rewrite Hc in Hall. specialize (IH c eq_refl).
    unfold recomputeFrameRangeForAllReadersInternal, allNodes in *. revert fl.
    induction IH as [|it l Hit _ IHl]; intros fl; simpl in *; [done|].
    rewrite subtree_unfold in Hall.
    apply Forall_app in Hall as [Hhere Hrest].
    apply Forall_cons in Hhere as [Hme Hnested].
    rewrite <- (IHl Hrest fl) at 2. f_equal.
    unfold recomputeFrameRange_step.
    destruct (isReader it) eqn:Hreader.
    + apply readerFrameRange_silent.
      destruct Hme as [?|?]; [congruence | done].
    + destruct (isGroupNode it); [by apply Hit | done].
  - destruct g as [a s r gi go fr gc]; simpl in *. by subst gc.
Qed.

(** X8: nodes that are no readers, readers whose frame range cannot be
    computed and readers that report the two sentinel bounds leave the
    range alone: when the collection and its nested groups hold no other
    node, in particular when they hold none, [*firstFrame] and
    [*lastFrame] keep the values the caller passed in. *)
Theorem recomputeFrameRange_nothing_to_read (c : NodeCollection)
    (fl : Z * Z) (setFrameRange : bool) :
  Forall givesNoRange (allNodes (nodes c)) ->
  recomputeFrameRangeForAllReadersInternal c fl setFrameRange = fl
  /\ recomputeFrameRangeForAllReaders c fl = fl.
Proof.
  assert (Hgen : forall setFrameRange,
    Forall givesNoRange (allNodes (nodes c)) ->
    recomputeFrameRangeForAllReadersInternal c fl setFrameRange = fl).
  { clear setFrameRange. intros setFrameRange Hall.
    unfold recomputeFrameRangeForAllReadersInternal, allNodes in *. revert fl.
    induction (nodes c) as [|it l IHl]; intros fl; simpl in *; [done|].
    rewrite subtree_unfold in Hall.
    apply Forall_app in Hall as [Hhere Hrest].
    apply Forall_cons in Hhere as [Hme Hnested].
    rewrite <- (IHl Hrest fl) at 2. f_equal.
    unfold recomputeFrameRange_step.
    destruct (isReader it) eqn:Hreader.
    - apply readerFrameRange_silent.
      destruct Hme as [?|?]; [congruence | done].
    - destruct (isGroupNode it);
        [by apply recomputeFrameRange_group_silent | done]. }
  intros Hall. split; by apply Hgen.
Qed.

(** X8 at a collection of a plain node, a group of a plain node, and a
    reader without usable bounds. *)
Lemma recomputeFrameRange_nothing_to_read_witness :
  Forall givesNoRange
    (allNodes
       (nodes (mkNodeCollection
                 [plainNode 1 "Blur1";
                  groupNode 2 "Group1" [plainNode 3 "Grade1"];
                  readerNode 4 "Read1" INT_MIN INT_MAX] false None)))
  /\ recomputeFrameRangeForAllReaders
       (mkNodeCollection
          [plainNode 1 "Blur1";
           groupNode 2 "Group1" [plainNode 3 "Grade1"];
           readerNode 4 "Read1" INT_MIN INT_MAX] false None) (1, 250)
     = (1, 250).
Proof.
  assert (Hall : Forall givesNoRange
    (allNodes
       (nodes (mkNodeCollection
                 [plainNode 1 "Blur1";
                  groupNode 2 "Group1" [plainNode 3 "Grade1"];
                  readerNode 4 "Read1" INT_MIN INT_MAX] false None)))).
  { simpl. repeat apply Forall_cons_2; try apply Forall_nil_2;
      unfold givesNoRange; simpl; auto. }
  split; [exact Hall|].
  exact (proj2 (recomputeFrameRange_nothing_to_read _ (1, 250) true Hall)).
Defined.

Lemma readerFrameRange_encloses it fl tmin tmax :
  getFrameRange_public it = Some (tmin, tmax) ->
  (tmin ≠ INT_MIN -> (readerFrameRange false it fl).1 <= tmin)
  /\ (tmax ≠ INT_MAX -> tmax <= (readerFrameRange false it fl).2).
Proof.
  intros Hr. unfold readerFrameRange. rewrite Hr.
  repeat case_bool_decide; simpl; split; intros; lia.
Qed.

Lemma readerFrameRange_fits setFrameRange it fl :
  isReader it = true -> boundsFitInt it ->
  fitsInt fl.1 -> fitsInt fl.2 ->
  fitsInt (readerFrameRange setFrameRange it fl).1
  /\ fitsInt (readerFrameRange setFrameRange it fl).2.
Proof.
  intros Hreader [Hno|Hfit] Hfirst Hlast; [congruence|].
  unfold readerFrameRange, fitsInt in *.
  destruct (getFrameRange_public it) as [[tmin tmax]|]; [|done].
  destruct Hfit as [Hmin Hmax].
  repeat case_bool_decide; destruct setFrameRange; simpl; lia.
Qed.

Lemma recomputeFrameRange_group_fits g fl :
  Forall boundsFitInt (nestedNodes g) ->
  fitsInt fl.1 -> fitsInt fl.2 ->
  fitsInt (recomputeFrameRange_group g fl).1
  /\ fitsInt (recomputeFrameRange_group g fl).2.
Proof.
  revert fl. induction g as [g IH] using Node_nested_ind.
  intros fl Hall Hfirst Hlast.
  destruct (isEffectNodeGroup g) as [c|] eqn:Hc.
  - rewrite (recomputeFrameRange_group_unfold g c) by done.
    unfold nestedNodes in Hall. rewrite Hc in Hall. specialize (IH c eq_refl).
    unfold recomputeFrameRangeForAllReadersInternal, allNodes in *.
    revert fl Hfirst Hlast.
    induction IH as [|it l Hit _ IHl]; intros fl Hfirst Hlast; simpl in *;
      [done|].
    rewrite subtree_unfold in Hall.
    apply Forall_app in Hall as [Hhere Hrest].
    apply Forall_cons in Hhere as [Hme Hnested].
    assert (Hstep : fitsInt (recomputeFrameRange_step false fl it).1
                    /\ fitsInt (recomputeFrameRange_step false fl it).2).
    { unfold recomputeFrameRange_step.
      destruct (isReader it) eqn:Hreader;
        [by apply readerFrameRange_fits|].
      destruct (isGroupNode it); [by apply Hit | done]. }
    destruct Hstep. by apply (IHl Hrest).
  - destruct g as [a s r gi go fr gc]; simpl in *. by subst gc.
Qed.

Lemma recomputeFrameRange_fold_fits setFrameRange l fl :
  Forall boundsFitInt (flat_map subtree l) ->
  fitsInt fl.1 -> fitsInt fl.2 ->
  fitsInt (fold_left (recomputeFrameRange_step setFrameRange) l fl).1
  /\ fitsInt (fold_left (recomputeFrameRange_step setFrameRange) l fl).2.
Proof.
  revert fl. induction l as [|it l IHl]; intros fl Hall Hfirst Hlast;
    simpl in *; [done|].
  rewrite subtree_unfold in Hall.
  apply Forall_app in Hall as [Hhere Hrest].
  apply Forall_cons in Hhere as [Hme Hnested].
  assert (Hstep : fitsInt (recomputeFrameRange_step setFrameRange fl it).1
                  /\ fitsInt (recomputeFrameRange_step setFrameRange fl it).2).
  { unfold recomputeFrameRange_step.
    destruct (isReader it) eqn:Hreader; [by apply readerFrameRange_fits|].
    destruct (isGroupNode it);
      [by apply recomputeFrameRange_group_fits | done]. }
  destruct Hstep. by apply IHl.
Qed.

(** X9: in a call made for a nested group, where [setFrameRange] is
    cleared, the range only grows.  When the range passed in and the
    bounds of every reader of the collection and of its nested groups are
    whole numbers that an [int] holds, so that the casts of the code from
    [double] to [int] change no bound, the result encloses the range
    passed in and the usable bounds of every reader among the members, and
    it is itself within the values of an [int]. *)
Theorem recomputeFrameRange_nested_encloses (c : NodeCollection)
    (fl : Z * Z) :
  Forall boundsFitInt (allNodes (nodes c)) ->
  fitsInt fl.1 -> fitsInt fl.2 ->
  (recomputeFrameRangeForAllReadersInternal c fl false).1 <= fl.1
  /\ fl.2 <= (recomputeFrameRangeForAllReadersInternal c fl false).2
  /\ (forall it tmin tmax,
        it ∈ nodes c -> isReader it = true ->
        getFrameRange_public it = Some (tmin, tmax) ->
        (tmin ≠ INT_MIN ->
         (recomputeFrameRangeForAllReadersInternal c fl false).1 <= tmin)
        /\ (tmax ≠ INT_MAX ->
            tmax <= (recomputeFrameRangeForAllReadersInternal c fl false).2))
  /\ fitsInt (recomputeFrameRangeForAllReadersInternal c fl false).1
  /\ fitsInt (recomputeFrameRangeForAllReadersInternal c fl false).2.
Proof.
  intros Hfit Hfirst Hlast.
  assert (Hwiden : forall l fl,
    (fold_left (recomputeFrameRange_step false) l fl).1 <= fl.1
    /\ fl.2 <= (fold_left (recomputeFrameRange_step false) l fl).2).
  { intros l fl'. apply recomputeFrameRange_fold_widens, Forall_forall.
    intros g _ fl''. apply recomputeFrameRange_group_widens. }
  split_and!; [apply Hwiden | apply Hwiden | |
               by apply recomputeFrameRange_fold_fits ..].
  intros it tmin tmax Hin Hreader Hrange.
  unfold recomputeFrameRangeForAllReadersInternal.
  apply list_elem_of_split in Hin as (l1 & l2 & ->).
  rewrite fold_left_app. simpl.
  set (fl1 := fold_left (recomputeFrameRange_step false) l1 fl).
  unfold recomputeFrameRange_step at 2 4. rewrite Hreader.
  destruct (readerFrameRange_encloses it fl1 tmin tmax Hrange) as [Hmin Hmax].
  destruct (Hwiden l2 (readerFrameRange false it fl1)) as [Hw1 Hw2].
  split; intros; [specialize (Hmin ltac:(done)) | specialize (Hmax ltac:(done))];
    lia.
Qed.

(** X9 at a nested collection that holds a reader of the frames 1 to 10, a
    group with a reader of the frames 5 to 20 and a plain node, entered
    with the range 3 to 4: the result is the range 1 to 20. *)
Lemma recomputeFrameRange_nested_encloses_witness :
  Forall boundsFitInt
    (allNodes
       (nodes (mkNodeCollection
                 [readerNode 1 "Read1" 1 10;
                  groupNode 2 "Group1" [readerNode 3 "Read2" 5 20];
                  plainNode 4 "Blur1"] false None)))
  /\ fitsInt 3 /\ fitsInt 4
  /\ recomputeFrameRangeForAllReadersInternal
       (mkNodeCollection
          [readerNode 1 "Read1" 1 10;
           groupNode 2 "Group1" [readerNode 3 "Read2" 5 20];
           plainNode 4 "Blur1"] false None) (3, 4) false
     = (1, 20)
  /\ (recomputeFrameRangeForAllReadersInternal
        (mkNodeCollection
           [readerNode 1 "Read1" 1 10;
            groupNode 2 "Group1" [readerNode 3 "Read2" 5 20];
            plainNode 4 "Blur1"] false None) (3, 4) false).1 <= 3
  /\ 10 <= (recomputeFrameRangeForAllReadersInternal
              (mkNodeCollection
                 [readerNode 1 "Read1" 1 10;
                  groupNode 2 "Group1" [readerNode 3 "Read2" 5 20];
                  plainNode 4 "Blur1"] false None) (3, 4) false).2.
Proof.
  assert (Hall : Forall boundsFitInt
    (allNodes
       (nodes (mkNodeCollection
                 [readerNode 1 "Read1" 1 10;
                  groupNode 2 "Group1" [readerNode 3 "Read2" 5 20];
                  plainNode 4 "Blur1"] false None)))).
  { simpl. repeat apply Forall_cons_2; try apply Forall_nil_2;
      unfold boundsFitInt, fitsInt, INT_MIN, INT_MAX; simpl;
      first [by left | right; lia]. }
  assert (H3 : fitsInt 3) by (unfold fitsInt, INT_MIN, INT_MAX; lia).
  assert (H4 : fitsInt 4) by (unfold fitsInt, INT_MIN, INT_MAX; lia).
  destruct (recomputeFrameRange_nested_encloses _ (3, 4) Hall H3 H4)
    as (Hfirst & _ & Hreaders & _).
  split_and!; [exact Hall | exact H3 | exact H4 | reflexivity | exact Hfirst |].
  apply (Hreaders (readerNode 1 "Read1" 1 10) 1 10); [| done | done | done].
  apply list_elem_of_In. simpl. auto.
Defined.

(** ** Membership *)

(** X10: [removeNode] of a member takes out its first entry in the member
    list and nothing else: the other members stay, in their order, and the
    node-graph pointer stays.  A group moreover loses the first entry for
    the node in its input list and the first one in its output list, the
    entries around them staying in place; nothing else of it changes, and
    a collection that is no group stays none. *)
Theorem removeNode_first_entry (c : NodeCollection) (l1 l2 : list Node)
    (node : Node) :
  nodes c = l1 ++ node :: l2 ->
  nodeAddr node ∉ map nodeAddr l1 ->
  nodes (removeNode c (Some (nodeAddr node))) = l1 ++ l2
  /\ graph (removeNode c (Some (nodeAddr node))) = graph c
  /\ (forall g, isNodeGroup c = Some g ->
        exists g',
          isNodeGroup (removeNode c (Some (nodeAddr node))) = Some g'
          /\ firstEntryErased (nodeAddr node) (inputs g) (inputs g')
          /\ firstEntryErased (nodeAddr node) (outputs g) (outputs g')
          /\ isDeactivatingGroup g' = isDeactivatingGroup g
          /\ isActivatingGroup g' = isActivatingGroup g
          /\ knobs g' = knobs g)
  /\ (isNodeGroup c = None ->
      isNodeGroup (removeNode c (Some (nodeAddr node))) = None)
  /\ length (nodes (removeNode c (Some (nodeAddr node))))
     = (length (nodes c) - 1)%nat.
Proof.
  intros Hnodes Hfirst. simpl.
  assert (Herase : eraseFirst (fun it => bool_decide (nodeAddr it = nodeAddr node))
                     (nodes c) = l1 ++ l2).
  { rewrite Hnodes. apply eraseFirst_split.
    - intros y Hy. apply bool_decide_eq_false. intros Heq. apply Hfirst.
      rewrite <- Heq. apply list_elem_of_fmap. by exists y.
    - by apply bool_decide_eq_true. }
  rewrite Herase. split_and!; [done | done | | |].
  - intros g Hg. exists (NodeGroup_onNodeRemoved g (nodeAddr node)).
    rewrite Hg. split; [done|]. apply NodeGroup_onNodeRemoved_erased.
  - by intros ->.
  - rewrite Hnodes, !length_app. simpl. lia.
Qed.

(** X10 at a group with the members "Input1", "Grade1", "Input2" and
    "Output1", whose two group-input nodes are its inputs and whose last
    member is its output: the second group-input node is removed. *)
Lemma removeNode_first_entry_witness :
  nodes (mkNodeCollection
           [groupInputNode 1 "Input1"; plainNode 2 "Grade1";
            groupInputNode 3 "Input2"; plainNode 4 "Output1"] false
           (Some (mkNodeGroupPrivate [Some 1%nat; Some 3%nat] [Some 4%nat]
                    false false [])))
  = [groupInputNode 1 "Input1"; plainNode 2 "Grade1"]
    ++ groupInputNode 3 "Input2" :: [plainNode 4 "Output1"]
  /\ (nodeAddr (groupInputNode 3 "Input2")
      ∉ map nodeAddr [groupInputNode 1 "Input1"; plainNode 2 "Grade1"])
  /\ nodes (removeNode
              (mkNodeCollection
                 [groupInputNode 1 "Input1"; plainNode 2 "Grade1";
                  groupInputNode 3 "Input2"; plainNode 4 "Output1"] false
                 (Some (mkNodeGroupPrivate [Some 1%nat; Some 3%nat]
                          [Some 4%nat] false false []))) (Some 3%nat))
     = [groupInputNode 1 "Input1"; plainNode 2 "Grade1";
        plainNode 4 "Output1"]
  /\ (exists g',
        isNodeGroup
          (removeNode
             (mkNodeCollection
                [groupInputNode 1 "Input1"; plainNode 2 "Grade1";
                 groupInputNode 3 "Input2"; plainNode 4 "Output1"] false
                (Some (mkNodeGroupPrivate [Some 1%nat; Some 3%nat]
                         [Some 4%nat] false false []))) (Some 3%nat))
        = Some g'
        /\ inputs g' = [Some 1%nat]
        /\ outputs g' = [Some 4%nat]).
Proof.
  assert (Hfirst : nodeAddr (groupInputNode 3 "Input2")
      ∉ map nodeAddr [groupInputNode 1 "Input1"; plainNode 2 "Grade1"]).
  { simpl. intros Hin. apply list_elem_of_In in Hin. simpl in Hin.
    destruct Hin as [?|[?|[]]]; discriminate. }
  destruct (removeNode_first_entry
              (mkNodeCollection
                 [groupInputNode 1 "Input1"; plainNode 2 "Grade1";
                  groupInputNode 3 "Input2"; plainNode 4 "Output1"] false
                 (Some (mkNodeGroupPrivate [Some 1%nat; Some 3%nat]
                          [Some 4%nat] false false [])))
              [groupInputNode 1 "Input1"; plainNode 2 "Grade1"]
              [plainNode 4 "Output1"]
              (groupInputNode 3 "Input2") eq_refl Hfirst)
    as (Hnodes & _ & Hgroup & _).
  destruct (Hgroup _ eq_refl) as (g' & Hg' & [_ Hin] & [Hout _] & _).
  split_and!; [reflexivity | exact Hfirst | exact Hnodes |].
  exists g'. split_and!; [exact Hg' | |].
  - apply (Hin [Some 1%nat] [] eq_refl).
    intros H1. apply list_elem_of_singleton in H1. discriminate.
  - apply Hout. simpl.
    intros H1. apply list_elem_of_singleton in H1. discriminate.
Defined.

(** X11: [removeNode] undoes [addNode]: adding a node that is not yet a
    member, and that a group does not record among its inputs and outputs,
    and removing it again gives back the collection as it was. *)
Theorem removeNode_undoes_addNode (c : NodeCollection) (node : Node) :
  nodeAddr node ∉ map nodeAddr (nodes c) ->
  (forall g, isNodeGroup c = Some g ->
     (Some (nodeAddr node) ∉ inputs g) /\ (Some (nodeAddr node) ∉ outputs g)) ->
  removeNode (addNode c node) (Some (nodeAddr node)) = c.
Proof.
  intros Hnew Hports. unfold removeNode, addNode, onNodeRemoved. simpl.
  rewrite <- (app_nil_r (nodes c ++ [node])), <- app_assoc. simpl.
  rewrite eraseFirst_split.
  - rewrite app_nil_r. destruct c as [l gr [g|]]; simpl in *; [|done].
    destruct (Hports g eq_refl) as [Hin Hout].
    by rewrite NodeGroup_onNodeRemoved_absent.
  - intros y Hy. apply bool_decide_eq_false. intros Heq. apply Hnew.
    rewrite <- Heq. apply list_elem_of_fmap. by exists y.
  - by apply bool_decide_eq_true.
Qed.

(** X11 at a group with one member and one recorded input. *)
Lemma removeNode_undoes_addNode_witness :
  (nodeAddr (plainNode 2 "Grade1")
   ∉ map nodeAddr
       (nodes (mkNodeCollection [groupInputNode 1 "Input1"] false
                 (Some (mkNodeGroupPrivate [Some 1%nat] [] false false [])))))
  /\ removeNode
       (addNode
          (mkNodeCollection [groupInputNode 1 "Input1"] false
             (Some (mkNodeGroupPrivate [Some 1%nat] [] false false [])))
          (plainNode 2 "Grade1")) (Some 2%nat)
     = mkNodeCollection [groupInputNode 1 "Input1"] false
         (Some (mkNodeGroupPrivate [Some 1%nat] [] false false [])).
Proof.
  assert (Hnew : nodeAddr (plainNode 2 "Grade1")
   ∉ map nodeAddr
       (nodes (mkNodeCollection [groupInputNode 1 "Input1"] false
                 (Some (mkNodeGroupPrivate [Some 1%nat] [] false false []))))).
  { simpl. intros Hin. apply list_elem_of_singleton in Hin. discriminate. }
  split; [exact Hnew|].
  apply (removeNode_undoes_addNode _ (plainNode 2 "Grade1") Hnew).
  intros g [= <-]. simpl. split.
  - intros Hin. apply list_elem_of_singleton in Hin. discriminate.
  - apply not_elem_of_nil.
Defined.

Lemma getInputs_alive g : getInputs g = alive (inputs g).
Proof.
  unfold getInputs, alive.
  assert (Hgen : forall (l : list NodePtr) (acc : list NodeId),
    fold_left (fun inputs input => match input with
                                   | None => inputs
                                   | Some p => inputs ++ [p]
                                   end) l acc
    = acc ++ omap id l).
  { induction l as [|[p|] l IHl]; intros acc; simpl.
    - by rewrite app_nil_r.
    - rewrite IHl. by rewrite <- app_assoc.
    - apply IHl. }
  apply (Hgen (inputs g) []).
Qed.

Lemma elem_of_alive p (l : list NodePtr) : p ∈ alive l <-> Some p ∈ l.
Proof.
  unfold alive. rewrite list_elem_of_omap. split.
  - by intros ([q|] & Hin & [= <-]).
  - intros Hin. by exists (Some p).
Qed.

Lemma eraseFirst_weak_gone p (l : list NodePtr) :
  NoDup (alive l) ->
  Some p ∉ eraseFirst (fun it => bool_decide (it = Some p)) l.
Proof.
  unfold alive. induction l as [|[q|] l IHl]; simpl; intros Hnd.
  - apply not_elem_of_nil.
  - apply NoDup_cons in Hnd as [Hq Hnd]. case_bool_decide as Heq.
    + injection Heq as ->. intros Hin. apply Hq. by apply elem_of_alive.
    + intros [?|?]%elem_of_cons; [done | by apply IHl].
  - intros [?|?]%elem_of_cons; [done | by apply IHl].
Qed.

Lemma eraseFirst_member_gone p (l : list Node) :
  NoDup (map nodeAddr l) ->
  p ∉ map nodeAddr (eraseFirst (fun it => bool_decide (nodeAddr it = p)) l).
Proof.
  induction l as [|it l IHl]; simpl; intros Hnd.
  - apply not_elem_of_nil.
  - apply NoDup_cons in Hnd as [Hit Hnd]. case_bool_decide as Heq.
    + by subst p.
    + simpl. intros [?|?]%elem_of_cons; [done | by apply IHl].
Qed.

(** X12: a removed node leaves no reference behind.  When no node object
    is a member twice, and a group records no live node twice among its
    inputs and none twice among its outputs, then after [removeNode] the
    node is no member, [getInputs] does not list it, the output list does
    not hold it and [getOutputNode] does not return it. *)
Theorem removeNode_leaves_no_reference (c : NodeCollection) (p : NodeId) :
  NoDup (map nodeAddr (nodes c)) ->
  (forall g, isNodeGroup c = Some g ->
     NoDup (getInputs g) /\ NoDup (alive (outputs g))) ->
  (p ∉ map nodeAddr (nodes (removeNode c (Some p))))
  /\ (forall g', isNodeGroup (removeNode c (Some p)) = Some g' ->
        (p ∉ getInputs g')
        /\ (Some p ∉ outputs g')
        /\ getOutputNode g' ≠ Some p).
Proof.
  intros Hnd Hports. simpl. split; [by apply eraseFirst_member_gone|].
  intros g' Hg'. destruct (isNodeGroup c) as [g|] eqn:Hg; [|done].
  injection Hg' as <-. destruct (Hports g eq_refl) as [Hin Hout].
  rewrite getInputs_alive in *. simpl.
  assert (Hgone : Some p ∉ eraseFirst (fun it => bool_decide (it = Some p))
                             (outputs g))
    by (by apply eraseFirst_weak_gone).
  split_and!.
  - rewrite elem_of_alive. by apply eraseFirst_weak_gone.
  - done.
  - unfold getOutputNode. simpl.
    destruct (eraseFirst (fun it => bool_decide (it = Some p)) (outputs g))
      as [|front rest]; [done|].
    intros ->. apply Hgone. by left.
Qed.

(** X12 at a group whose input node and output node are members. *)
Lemma removeNode_leaves_no_reference_witness :
  NoDup (map nodeAddr
           (nodes (mkNodeCollection
                     [groupInputNode 1 "Input1"; plainNode 2 "Output1"] false
                     (Some (mkNodeGroupPrivate [Some 1%nat] [Some 2%nat]
                              false false [])))))
  /\ (1%nat
      ∉ map nodeAddr
          (nodes (removeNode
                    (mkNodeCollection
                       [groupInputNode 1 "Input1"; plainNode 2 "Output1"]
                       false
                       (Some (mkNodeGroupPrivate [Some 1%nat] [Some 2%nat]
                                false false []))) (Some 1%nat)))).
Proof.
  assert (Hnd : NoDup (map nodeAddr
           (nodes (mkNodeCollection
                     [groupInputNode 1 "Input1"; plainNode 2 "Output1"] false
                     (Some (mkNodeGroupPrivate [Some 1%nat] [Some 2%nat]
                              false false [])))))) by (simpl; compute_done).
  split; [exact Hnd|].
  apply (removeNode_leaves_no_reference _ 1%nat Hnd).
  intros g [= <-]. split; compute_done.
Defined.

(** ** Names *)

Lemma checkIfNodeNameExists_true c n caller :
  checkIfNodeNameExists c n caller = true <-> nameTaken c caller n.
Proof. apply foundNodeWithName_true. Qed.

Section FurtherNamingProperties.
Context `{!Externals}.

(** X13: with [appendDigit] set and [errorIfExists] cleared, a valid base
    name that is no knob of the group is given the smallest number, counted
    from 1, whose suffixed name no other member carries; that number is at
    most the number of members plus one. *)
Theorem checkNodeName_least_free_number (c : NodeCollection) (node : NodePtr)
    (baseName : string) :
  ~ invalidName baseName ->
  ~ knobNamed c (makeNameScriptFriendly baseName) ->
  exists j : nat,
    (j <= length (nodes c))%nat
    /\ checkNodeName c node baseName true false
       = Some (inr (makeNameScriptFriendly baseName
                    +:+ pretty (1 + Z.of_nat j)))
    /\ ~ nameTaken c node
         (makeNameScriptFriendly baseName +:+ pretty (1 + Z.of_nat j))
    /\ forall i : nat, (i < j)%nat ->
         nameTaken c node
           (makeNameScriptFriendly baseName +:+ pretty (1 + Z.of_nat i)).
Proof. apply checkNodeName_suffixed. Qed.

Lemma initNodeName_from_checkNodeName c pluginID pluginLabel nodeName :
  initNodeName c pluginID pluginLabel = Some (inr nodeName) ->
  exists appendDigit,
    checkNodeName c None (initNodeName_baseName pluginLabel) appendDigit false
    = Some (inr nodeName).
Proof.
  unfold initNodeName. destruct (negb _); [by exists true|].
  destruct (checkNodeName c None _ false false) as [[e|name']|] eqn:Hbare.
  - by exists true.
  - intros [= <-]. by exists false.
  - done.
Qed.

(** X14: a name given by [initNodeName] is new to the collection:
    [checkIfNodeNameExists] denies it, adding a node of that name keeps
    the script-names of the members distinct, and the next call of
    [initNodeName], for the same plug-in, gives another name. *)
Theorem initNodeName_gives_new_name (c : NodeCollection)
    (pluginID pluginLabel nodeName : string) :
  initNodeName c pluginID pluginLabel = Some (inr nodeName) ->
  (nodeName ∉ scriptNames c)
  /\ checkIfNodeNameExists c nodeName None = false
  /\ (forall node, getScriptName_mt_safe node = nodeName ->
        (NoDup (scriptNames c) -> NoDup (scriptNames (addNode c node)))
        /\ initNodeName (addNode c node) pluginID pluginLabel
           ≠ Some (inr nodeName)).
Proof.
  intros Hinit.
  assert (Hfresh : nodeName ∉ scriptNames c).
  { apply initNodeName_from_checkNodeName in Hinit as (ad & Hcheck).
    by apply checkNodeName_fresh in Hcheck. }
  split_and!; [done | |].
  - destruct (checkIfNodeNameExists c nodeName None) eqn:Hexists; [|done].
    by apply checkIfNodeNameExists_true, nameTaken_null in Hexists.
  - intros node Hname. split.
    + intros Hnd. rewrite scriptNames_addNode, Hname.
      apply NoDup_app. split_and!; [done | | apply NoDup_singleton].
      by intros name Hin ->%list_elem_of_singleton.
    + intros Hagain.
      apply initNodeName_from_checkNodeName in Hagain as (ad & Hcheck).
      apply checkNodeName_fresh in Hcheck. apply Hcheck.
      rewrite scriptNames_addNode, Hname, elem_of_app. right. by left.
Qed.
End FurtherNamingProperties.

(** X13 with "Blur1" and "Blur3" taken: the number is 2. *)
Lemma checkNodeName_least_free_number_witness :
  ~ invalidName "Blur"
  /\ ~ knobNamed
         (mkNodeCollection [plainNode 1 "Blur1"; plainNode 2 "Blur3"] false
            None) (makeNameScriptFriendly "Blur")
  /\ exists j : nat,
       checkNodeName
         (mkNodeCollection [plainNode 1 "Blur1"; plainNode 2 "Blur3"] false
            None) None "Blur" true false
       = Some (inr (makeNameScriptFriendly "Blur" +:+ pretty (1 + Z.of_nat j))).
Proof.
  assert (Hvalid : ~ invalidName "Blur") by (by intros [?|?]).
  assert (Hknob : ~ knobNamed
         (mkNodeCollection [plainNode 1 "Blur1"; plainNode 2 "Blur3"] false
            None) (makeNameScriptFriendly "Blur")) by (by intros (g & ? & _)).
  split_and!; [exact Hvalid | exact Hknob |].
  destruct (checkNodeName_least_free_number _ None "Blur" Hvalid Hknob)
    as (j & _ & Hname & _).
  by exists j.
Defined.

(** X14 for the first "Blur" node of an empty collection. *)
Lemma initNodeName_gives_new_name_witness :
  initNodeName emptyCollection "net.sf.cimg.CImgBlur" "Blur"
  = Some (inr "Blur1")
  /\ initNodeName (addNode emptyCollection (plainNode 1 "Blur1"))
       "net.sf.cimg.CImgBlur" "Blur"
     ≠ Some (inr "Blur1").
Proof.
  assert (Hinit : initNodeName emptyCollection "net.sf.cimg.CImgBlur" "Blur"
                  = Some (inr "Blur1")) by reflexivity.
  split; [exact Hinit|].
  destruct (initNodeName_gives_new_name _ _ _ _ Hinit) as (_ & _ & Hnext).
  exact (proj2 (Hnext (plainNode 1 "Blur1") eq_refl)).
Defined.

(** ** The map of created nodes and the resolution of references *)

Lemma find_all_false {A} (f : A -> bool) (l : list A) :
  (forall x, x ∈ l -> f x = false) -> find f l = None.
Proof.
  induction l as [|x l IH]; intros Hall; simpl; [done|].
  rewrite (Hall x) by (by left). apply IH. intros y Hy. apply Hall. by right.
Qed.

Lemma createdNodes_keys_insert_bound k v m a :
  Forall (fun b => (a < b)%nat) (createdNodes_keys m) ->
  (a < serAddr k)%nat ->
  Forall (fun b => (a < b)%nat) (createdNodes_keys (createdNodes_insert k v m)).
Proof.
  unfold createdNodes_keys. induction m as [|e m IH]; simpl; intros Hall Hk.
  - by repeat constructor.
  - apply Forall_cons in Hall as [He Hall].
    destruct (serAddr k <? serAddr e.1)%nat; [by repeat constructor|].
    destruct (serAddr k =? serAddr e.1)%nat; [by constructor|].
    simpl. constructor; [done | by apply IH].
Qed.

(** X15: [std::map::insert] as the restorer uses it.  On a map ordered by
    the address of the record the insertion keeps the order; the record is
    found afterwards, with the node it already had if it was present and
    with the new node otherwise; every other record is found as before. *)
Theorem createdNodes_insert_find (k : NodeSerialization) (v : NodeId)
    (m : CreatedNodesMap) :
  StronglySorted Nat.lt (createdNodes_keys m) ->
  StronglySorted Nat.lt (createdNodes_keys (createdNodes_insert k v m))
  /\ createdNodes_find (serAddr k) (createdNodes_insert k v m)
     = Some (default v (createdNodes_find (serAddr k) m))
  /\ (forall a, a ≠ serAddr k ->
        createdNodes_find a (createdNodes_insert k v m)
        = createdNodes_find a m).
Proof.
  unfold createdNodes_find, createdNodes_keys.
  induction m as [|e m IH]; simpl; intros Hsorted.
  - rewrite Nat.eqb_refl. split_and!; [by repeat constructor | done |].
    intros a Ha. by rewrite (proj2 (Nat.eqb_neq _ _)) by done.
  - apply StronglySorted_inv in Hsorted as [Hsorted Hhead].
    destruct (IH Hsorted) as (IHs & IHk & IHo).
    destruct (serAddr k <? serAddr e.1)%nat eqn:Hlt.
    + apply Nat.ltb_lt in Hlt. simpl. rewrite Nat.eqb_refl.
      rewrite (proj2 (Nat.eqb_neq (serAddr e.1) (serAddr k))) by lia.
      split_and!.
      * constructor; [by constructor|]. constructor; [done|].
        eapply Forall_impl; [exact Hhead|]. simpl. intros b Hb.
        unfold Nat.lt in *. lia.
      * assert (Hnone : find (fun e0 : NodeSerialization * NodeId =>
                                (serAddr e0.1 =? serAddr k)%nat) m = None).
        { apply find_all_false. intros e' He'. apply Nat.eqb_neq.
          rewrite Forall_forall in Hhead.
          assert (serAddr e.1 < serAddr e'.1)%nat; [|lia].
          apply Hhead. apply list_elem_of_fmap. by exists e'. }
        by rewrite Hnone.
      * intros a Ha. by rewrite (proj2 (Nat.eqb_neq (serAddr k) a)) by done.
    + apply Nat.ltb_ge in Hlt.
      destruct (serAddr k =? serAddr e.1)%nat eqn:Heq.
      * apply Nat.eqb_eq in Heq. simpl. rewrite Heq, Nat.eqb_refl.
        split_and!; [by constructor | done | done].
      * apply Nat.eqb_neq in Heq. simpl.
        rewrite (proj2 (Nat.eqb_neq (serAddr e.1) (serAddr k))) by lia.
        split_and!; [| done |].
        -- constructor; [done|].
           apply (createdNodes_keys_insert_bound k v m); [done | lia].
        -- intros a Ha. destruct (serAddr e.1 =? a)%nat; [done | by apply IHo].
Qed.

(** X15 on a map with the records at 100 and 200, the record at 150 being
    inserted. *)
Lemma createdNodes_insert_find_witness :
  StronglySorted Nat.lt
    (createdNodes_keys [(blurRecord, 0%nat); (unknownRecord, 1%nat)])
  /\ createdNodes_find 150
       (createdNodes_insert
          (mkNodeSerialization 150 "net.Grade" 1 0 "Grade1" [] [] []) 2%nat
          [(blurRecord, 0%nat); (unknownRecord, 1%nat)])
     = Some 2%nat.
Proof.
  assert (Hsorted : StronglySorted Nat.lt
    (createdNodes_keys [(blurRecord, 0%nat); (unknownRecord, 1%nat)])).
  { simpl. repeat constructor. }
  split; [exact Hsorted|].
  exact (proj1 (proj2 (createdNodes_insert_find
                         (mkNodeSerialization 150 "net.Grade" 1 0 "Grade1"
                            [] [] []) 2%nat _ Hsorted))).
Defined.

Section ReferenceProperties.
Context {G : Type} `{!NodeApi G} `{!Externals}.

(** X16: [findSerializedNodeWithScriptName] answers with a node of the
    batch whenever a record of the batch was saved under the name, whatever
    the collection holds.  A node outside the batch is returned only when
    no record has the name and the search in all nodes is allowed, and it
    then carries the name now; with that search disallowed every answer is
    a node of the batch. *)
Theorem findSerializedNodeWithScriptName_sound (g : G)
    (nodeScriptName : string) (createdNodes : CreatedNodesMap)
    (allNodesInGroup : list NodeId) (allowSearchInAllNodes : bool) :
  (forall s p, (s, p) ∈ createdNodes -> _nodeScriptName s = nodeScriptName ->
     exists s' p',
       (s', p') ∈ createdNodes /\ _nodeScriptName s' = nodeScriptName
       /\ findSerializedNodeWithScriptName g nodeScriptName createdNodes
            allNodesInGroup allowSearchInAllNodes = Some p')
  /\ (forall p,
        findSerializedNodeWithScriptName g nodeScriptName createdNodes
          allNodesInGroup allowSearchInAllNodes = Some p ->
        (exists s, (s, p) ∈ createdNodes
                   /\ _nodeScriptName s = nodeScriptName)
        \/ (allowSearchInAllNodes = true
            /\ (forall s p', (s, p') ∈ createdNodes ->
                  _nodeScriptName s ≠ nodeScriptName)
            /\ p ∈ allNodesInGroup
            /\ getScriptName g p = nodeScriptName))
  /\ (allowSearchInAllNodes = false ->
      forall p,
        findSerializedNodeWithScriptName g nodeScriptName createdNodes
          allNodesInGroup false = Some p ->
        p ∈ map snd createdNodes).
Proof.
  unfold findSerializedNodeWithScriptName.
  destruct (find _ createdNodes) as [[s0 p0]|] eqn:Hfind.
  - apply find_some in Hfind as [Hin Hname]. apply list_elem_of_In in Hin.
    apply bool_decide_eq_true in Hname. simpl in Hname.
    split_and!.
    + intros _ _ _ _. by exists s0, p0.
    + intros p [= <-]. left. by exists s0.
    + intros _ p [= <-]. apply list_elem_of_fmap. by exists (s0, p0).
  - assert (Hnone : forall s p', (s, p') ∈ createdNodes ->
                      _nodeScriptName s ≠ nodeScriptName).
    { intros s p' Hin Hname. apply list_elem_of_In in Hin.
      apply (find_none _ _ Hfind) in Hin. simpl in Hin.
      by apply bool_decide_eq_false in Hin. }
    split_and!.
    + intros s p Hin Hname. by destruct (Hnone s p Hin).
    + intros p Hp. right. destruct allowSearchInAllNodes; [|done].
      apply find_some in Hp as [Hin Hname]. apply list_elem_of_In in Hin.
      by apply bool_decide_eq_true in Hname.
    + by intros _ p.
Qed.

(** X17: [restoreInput] changes at most one input of one node.  Nothing is
    changed and nothing is logged for an empty input node name; nothing is
    changed when the node has no group or when the name resolves to no
    node; otherwise the only change is one [swapInput] on the node, with
    the node the name resolves to. *)
Theorem restoreInput_one_swap (node : NodeId)
    (inputLabel inputNodeScriptName : string)
    (createdNodes : CreatedNodesMap) (allNodesInGroup : list NodeId)
    (allowSearchInAllNodes isMaskInput : bool) (g : G) :
  (inputNodeScriptName = "" ->
   restoreInput node inputLabel inputNodeScriptName createdNodes
     allNodesInGroup allowSearchInAllNodes isMaskInput g = (g, []))
  /\ (getGroup g node = None
      \/ findSerializedNodeWithScriptName g inputNodeScriptName createdNodes
           allNodesInGroup allowSearchInAllNodes = None ->
      (restoreInput node inputLabel inputNodeScriptName createdNodes
         allNodesInGroup allowSearchInAllNodes isMaskInput g).1 = g)
  /\ (forall foundNode,
        inputNodeScriptName ≠ "" -> getGroup g node ≠ None ->
        findSerializedNodeWithScriptName g inputNodeScriptName createdNodes
          allNodesInGroup allowSearchInAllNodes = Some foundNode ->
        restoreInput node inputLabel inputNodeScriptName createdNodes
          allNodesInGroup allowSearchInAllNodes isMaskInput g
        = (swapInput node (Some foundNode)
             (restoreInput_index g node inputLabel inputNodeScriptName
                isMaskInput).1 g,
           (restoreInput_index g node inputLabel inputNodeScriptName
              isMaskInput).2)).
Proof.
  unfold restoreInput. split_and!.
  - intros ->. by rewrite bool_decide_eq_true_2.
  - intros Hskip. case_bool_decide; [done|].
    destruct (restoreInput_index _ _ _ _ _) as [index log].
    destruct (getGroup g node) eqn:Hgrp; [|done].
    destruct Hskip as [?| ->]; done.
  - intros foundNode Hname Hgrp Hfound.
    rewrite bool_decide_eq_false_2 by done.
    destruct (restoreInput_index _ _ _ _ _) as [index log].
    destruct (getGroup g node); [|done]. by rewrite Hfound.
Qed.

Lemma findMaskIndex_minus_one isMask steps i :
  findMaskIndex isMask steps i 0 (-1) = -1.
Proof.
  revert i. induction steps as [|steps IH]; intros i;
    cbn [findMaskIndex]; [done|].
  destruct (isMask i); [done | apply IH].
Qed.

(** X18: a label that is an input label of the node decides the input
    number alone: nothing is logged, and for a mask the search among the
    mask-capable slots is not made.  A label that is neither an input
    label nor a number gives the input number -1, for an input and for a
    mask alike, with one entry in the error log. *)
Theorem restoreInput_index_by_label (g : G) (node : NodeId)
    (inputLabel inputNodeScriptName : string) (isMaskInput : bool) :
  (inputLabel ≠ "" -> getInputNumberFromLabel g node inputLabel ≠ -1 ->
   restoreInput_index g node inputLabel inputNodeScriptName isMaskInput
   = (getInputNumberFromLabel g node inputLabel, []))
  /\ (inputLabel = "" \/ getInputNumberFromLabel g node inputLabel = -1 ->
      toInt inputLabel = None \/ toInt inputLabel = Some (-1) ->
      restoreInput_index g node inputLabel inputNodeScriptName isMaskInput
      = (-1, [LogCouldNotFindInput node inputNodeScriptName])).
Proof.
  unfold restoreInput_index. split.
  - intros Hlabel Hindex. rewrite bool_decide_eq_false_2 by done.
    by rewrite (proj2 (Z.eqb_neq _ _) Hindex).
  - intros Hlabel Hint.
    assert (Hidx : (if bool_decide (inputLabel = "") then -1
                    else getInputNumberFromLabel g node inputLabel) = -1).
    { destruct Hlabel as [->| ->]; [done | by case_bool_decide]. }
    rewrite Hidx. simpl.
    assert (Hk : match toInt inputLabel with Some k => k | None => -1 end = -1).
    { by destruct Hint as [-> | ->]. }
    rewrite Hk. simpl. destruct isMaskInput; [|done].
    by rewrite findMaskIndex_minus_one.
Qed.
End ReferenceProperties.

(** ** What a reconstruction touches *)

(** Induction on a record with its nested child records. *)
Lemma NodeSerialization_nested_ind (P : NodeSerialization -> Prop) :
  (forall s, Forall P (_children s) -> P s) -> forall s, P s.
Proof.
  intros step. fix IH 1. intros s. apply step.
  destruct s as [a pid maj mnr name ins masks children]; simpl.
  induction children as [|c l IHl]; constructor; [apply IH | exact IHl].
Qed.

Section ReconstructionProperties.
Context {G : Type} `{!NodeApi G} `{!Externals}.

Variable P : G -> Prop.
Hypothesis factory_keeps :
  forall s thisShared g, P g -> P (createNodeForProjectLoading s thisShared g).2.
Hypothesis swapInput_keeps :
  forall node input inputNumber g, P g -> P (swapInput node input inputNumber g).
Hypothesis restoreKnobsLinks_keeps :
  forall node s createdNodes g, P g -> P (restoreKnobsLinks node s createdNodes g).

Lemma restoreInput_keeps node inputLabel name createdNodes allNodesInGroup
    allow isMaskInput g :
  P g ->
  P (restoreInput node inputLabel name createdNodes allNodesInGroup allow
       isMaskInput g).1.
Proof.
  intros Hg. unfold restoreInput. case_bool_decide; [done|].
  destruct (restoreInput_index _ _ _ _ _) as [index log].
  destruct (getGroup g node); [|done].
  destruct (findSerializedNodeWithScriptName _ _ _ _ _); [|done].
  by apply swapInput_keeps.
Qed.

Lemma restoreInputs_keeps node inputsMap createdNodes allNodesInGroup allow
    isMaskInputs g :
  P g ->
  P (restoreInputs node inputsMap createdNodes allNodesInGroup allow
       isMaskInputs g).1.
Proof.
  unfold restoreInputs. intros Hg.
  assert (Hgen : forall st : G * list AppEvent, P st.1 ->
    P (fold_left
         (fun (st : G * list AppEvent) (it : string * string) =>
            let '(g', log) :=
              restoreInput node it.1 it.2 createdNodes allNodesInGroup allow
                isMaskInputs st.1 in
            (g', st.2 ++ log)) inputsMap st).1).
  { induction inputsMap as [|it l IH]; intros st Hst; simpl; [done|].
    apply IH.
    pose proof (restoreInput_keeps node it.1 it.2 createdNodes
                  allNodesInGroup allow isMaskInputs st.1 Hst) as Hstep.
    by destruct (restoreInput _ _ _ _ _ _ _ _). }
  by apply Hgen.
Qed.

Lemma connect_fold_keeps createdNodes allNodesInGroup allow
    (l : CreatedNodesMap) (st : G * list AppEvent) :
  P st.1 ->
  P (fold_left (connect_step createdNodes allNodesInGroup allow) l st).1.
Proof.
  revert st. induction l as [|it l IH]; intros st Hst; simpl; [done|].
  apply IH. unfold connect_step.
  pose proof (restoreInputs_keeps it.2 (_inputs it.1) createdNodes
                allNodesInGroup allow false st.1 Hst) as H1.
  destruct (restoreInputs it.2 (_inputs it.1) _ _ _ false _) as [g1 log1].
  pose proof (restoreInputs_keeps it.2 (_masks it.1) createdNodes
                allNodesInGroup allow true g1 H1) as H2.
  by destruct (restoreInputs it.2 (_masks it.1) _ _ _ true _) as [g2 log2].
Qed.

Lemma restoreLinks_record_keeps it :
  forall group createdNodes g,
    P g -> P (restoreLinks_record group createdNodes it g).
Proof.
  induction it as [it IH] using NodeSerialization_nested_ind.
  intros group createdNodes g Hg.
  destruct it as [a pid maj mnr name ins masks children]; simpl in *.
  destruct (match match createdNodes with
                  | Some m => findSerializedNodeWithScriptName g name m [] false
                  | None => None
                  end with
            | Some n => Some n
            | None => getNodeByName g group name
            end) as [n|]; [|done].
  set (g1 := restoreKnobsLinks n _ _ g).
  assert (Hg1 : P g1) by (by apply restoreKnobsLinks_keeps).
  destruct (toNodeGroup g1 n) as [sub|]; [|done].
  clearbody g1. revert g1 Hg1.
  induction IH as [|c l Hc _ IHl]; intros g1 Hg1; [done|].
  apply IHl. by apply Hc.
Qed.

Lemma restoreLinksRecursive_keeps group l createdNodes g :
  P g -> P (restoreLinksRecursive group l createdNodes g).
Proof.
  unfold restoreLinksRecursive. revert g.
  induction l as [|it l IH]; intros g Hg; simpl; [done|].
  by apply IH, restoreLinks_record_keeps.
Qed.

Lemma createNode_fold_keeps thisShared l (st : CreateState (G := G)) :
  P (world st) -> P (world (fold_left (createNode_step thisShared) l st)).
Proof.
  revert st. induction l as [|it l IH]; intros st Hst; simpl; [done|].
  apply IH. unfold createNode_step.
  pose proof (factory_keeps it thisShared (world st) Hst) as Hstep.
  destruct (createNodeForProjectLoading it thisShared (world st)) as [[n|] g'];
    simpl in *; [|done].
  case_bool_decide; [done|]. by destruct (_ && _).
Qed.

(** X19: [createNodesFromSerialization] acts on the node objects only by
    creating nodes through the factory, by [swapInput] and by
    [restoreKnobsLinks]: whatever these three keep true of the node
    objects is still true after the call. *)
Theorem createNodesFromSerialization_keeps (thisShared : CollectionId)
    (serializedNodes : NodeSerializationList)
    (connectToExternalNodes : bool) (out : option (list NodePtr)) (g : G) :
  P g ->
  P (createNodesFromSerialization thisShared serializedNodes
       connectToExternalNodes out g).2.
Proof.
  intros Hg. unfold createNodesFromSerialization.
  set (st := fold_left (createNode_step thisShared) serializedNodes
               (mkCreateState false out [] [StatusCreatingNodes] g)).
  assert (Hst : P (world st)) by (by apply createNode_fold_keeps).
  pose proof (connect_fold_keeps (localCreatedNodes st)
                (getNodes (world st) thisShared) connectToExternalNodes
                (localCreatedNodes st) (world st, []) Hst) as Hconn.
  destruct (fold_left (connect_step _ _ _) _ _) as [g2 log2]. simpl in *.
  by apply restoreLinksRecursive_keeps.
Qed.
End ReconstructionProperties.

(** X19 on the reconstruction of the "Blur1" record: the table of loaded
    plug-ins is the same afterwards. *)
Lemma createNodesFromSerialization_keeps_witness :
  Simple.plugins loadWorld = Simple.plugins loadWorld
  /\ Simple.plugins
       (createNodesFromSerialization 0 [blurRecord] false None loadWorld).2
     = Simple.plugins loadWorld.
Proof.
  split; [reflexivity|].
  apply (createNodesFromSerialization_keeps
           (fun w => Simple.plugins w = Simple.plugins loadWorld)).
  - intros s coll w Hw. simpl. unfold Simple.createNode.
    destruct (list_find _ _) as [[i [name p]]|]; [|done].
    by destruct (Simple.plugCreates p).
  - intros node input i w Hw. simpl. unfold Simple.swap.
    by destruct (0 <=? i).
  - by intros node s m w Hw.
  - reflexivity.
Defined.

Section CreatedNodesOutProperties.
Context {G : Type} `{!NodeApi G} `{!Externals}.

(** X20: [*createdNodesOut] receives one pointer per record, after what
    the list held; the pointer is null for
    the records for which no node could be created, as many as there are
    "does not exist in the loaded plug-ins" entries in the error log.  An
    empty batch creates nothing, logs nothing and returns true. *)
Theorem createNodesFromSerialization_out (thisShared : CollectionId)
    (serializedNodes : NodeSerializationList)
    (connectToExternalNodes : bool) (l : list NodePtr) (g : G) :
  (exists created,
     (createNodesFromSerialization thisShared serializedNodes
        connectToExternalNodes (Some l) g).1.1.2 = Some (l ++ created)
     /\ length created = length serializedNodes
     /\ length (List.filter isNull created)
        = length (List.filter isNodeDoesNotExist
                    (createNodesFromSerialization thisShared serializedNodes
                       connectToExternalNodes (Some l) g).1.2))
  /\ createNodesFromSerialization thisShared [] connectToExternalNodes
       (Some l) g
     = (true, Some l, [StatusCreatingNodes; StatusRestoringLinks], g).
Proof.
  split; [|reflexivity].
  unfold createNodesFromSerialization.
  set (st0 := mkCreateState false (Some l) [] [StatusCreatingNodes] g).
  assert (Hgen : forall recs (st : CreateState (G := G)) created,
    createdNodesOut st = Some (l ++ created) ->
    length (List.filter isNull created)
    = length (List.filter isNodeDoesNotExist (appEvents st)) ->
    exists created',
      createdNodesOut (fold_left (createNode_step thisShared) recs st)
      = Some (l ++ created')
      /\ length created' = (length created + length recs)%nat
      /\ length (List.filter isNull created')
         = length (List.filter isNodeDoesNotExist
                     (appEvents (fold_left (createNode_step thisShared) recs st)))).
  { induction recs as [|it recs IH]; intros st created Hout Hcount; simpl.
    - exists created. split_and!; [done | lia | done].
    - assert (Hstep : exists created1,
        createdNodesOut (createNode_step thisShared st it) = Some (l ++ created1)
        /\ length created1 = S (length created)
        /\ length (List.filter isNull created1)
           = length (List.filter isNodeDoesNotExist
                       (appEvents (createNode_step thisShared st it)))).
      { unfold createNode_step.
        destruct (createNodeForProjectLoading it thisShared (world st))
          as [[n|] g']; rewrite Hout.
        - exists (created ++ [Some n]).
          case_bool_decide; [|destruct (_ && _)]; simpl;
            (split_and!; [by rewrite app_assoc
                         | rewrite length_app; simpl; lia |]);
            rewrite !List.filter_app, !length_app, Hcount; simpl; lia.
        - exists (created ++ [None]). simpl.
          split_and!; [by rewrite app_assoc | rewrite length_app; simpl; lia |].
          rewrite !List.filter_app, !length_app, Hcount. simpl. lia. }
      destruct Hstep as (created1 & Hout1 & Hlen1 & Hcount1).
      destruct (IH _ created1 Hout1 Hcount1) as (created' & ? & ? & ?).
      exists created'. split_and!; [done | lia | done]. }
  destruct (Hgen serializedNodes st0 []) as (created & Hout & Hlen & Hcount).
  { simpl. by rewrite app_nil_r. }
  { done. }
  pose proof (connect_fold_log
                (localCreatedNodes (fold_left (createNode_step thisShared)
                                      serializedNodes st0))
                (getNodes (world (fold_left (createNode_step thisShared)
                                    serializedNodes st0)) thisShared)
                connectToExternalNodes
                (localCreatedNodes (fold_left (createNode_step thisShared)
                                      serializedNodes st0))
                (world (fold_left (createNode_step thisShared)
                          serializedNodes st0), []) eq_refl) as Hlog2.
  destruct (fold_left (connect_step _ _ _) _ _) as [g2 log2]. simpl in *.
  exists created. split_and!; [done | done |].
  rewrite Hcount, List.filter_app, length_app. simpl.
  assert (Hnone : List.filter isNodeDoesNotExist log2 = []).
  { clear -Hlog2. induction log2 as [|e log2 IH]; [done|]. simpl in Hlog2.
    apply orb_false_iff in Hlog2 as [He Hrest]. simpl.
    destruct e; simpl in *; try congruence; by apply IH. }
  rewrite Hnone. simpl. lia.
Qed.
End CreatedNodesOutProperties.

(** ** The outcome of autoConnectNodes *)

Section AutoConnectOutcome.
Context {G : Type} `{!NodeApi G}.

(** X21: [autoConnectNodes] returns true exactly when it connects the two
    nodes: the nodes are not both without input nor both output nodes, and
    the node that receives the other has a preferred input, looked up for
    [created] after the outputs of [selected] were moved to it.  The
    connection is then one [swapInput] on that preferred input, and the
    two assertions of the function hold whenever they are reached. *)
Theorem autoConnectNodes_returns_true_iff (g : G) (selected created : NodeId) :
  ((autoConnectNodes g selected created).2 = true
   <-> ~ bothSourceless g selected created
       /\ ~ bothOutputs g selected created
       /\ (if connectAsInput g selected created
           then getPreferredInputForConnection g selected ≠ -1
           else getPreferredInputForConnection
                  (if isOutputNode g created then g
                   else moveOutputs selected created g) created ≠ -1))
  /\ ((autoConnectNodes g selected created).2 = true ->
      connectAsInput g selected created = true ->
      (autoConnectNodes g selected created).1
      = swapInput selected (Some created)
          (getPreferredInputForConnection g selected) g)
  /\ ((autoConnectNodes g selected created).2 = true ->
      connectAsInput g selected created = false ->
      (autoConnectNodes g selected created).1
      = swapInput created (Some selected)
          (getPreferredInputForConnection
             (if isOutputNode g created then g
              else moveOutputs selected created g) created)
          (if isOutputNode g created then g
           else moveOutputs selected created g))
  /\ (~ bothOutputs g selected created ->
      isOutputNode g selected = true -> isOutputNode g created = false)
  /\ (~ bothSourceless g selected created ->
      getMaxInputCount g created = 0 -> getMaxInputCount g selected ≠ 0).
Proof.
  unfold autoConnectNodes, bothSourceless, bothOutputs.
  split_and!.
  - destruct ((getMaxInputCount g selected =? 0)
              && (getMaxInputCount g created =? 0)) eqn:Hsrc.
    { apply andb_true_iff in Hsrc as [Hs Hc]. apply Z.eqb_eq in Hs, Hc.
      simpl. split; [done | tauto]. }
    assert (Hnsrc : ~ (getMaxInputCount g selected = 0
                       /\ getMaxInputCount g created = 0)).
    { intros [Hs Hc]. rewrite Hs, Hc in Hsrc. done. }
    destruct (isOutputNode g selected && isOutputNode g created) eqn:Hout.
    { apply andb_true_iff in Hout as [Hs Hc]. simpl. split; [done | tauto]. }
    assert (Hnout : ~ (isOutputNode g selected = true
                       /\ isOutputNode g created = true)).
    { intros [Hs Hc]. rewrite Hs, Hc in Hout. done. }
    destruct (connectAsInput g selected created).
    + case_bool_decide; simpl; split; try done; tauto.
    + destruct (isOutputNode g created); simpl;
        case_bool_decide; simpl; split; try done; tauto.
  - destruct (_ && _); [done|]. destruct (_ && _); [done|].
    intros Hret Hdir. rewrite Hdir in *.
    by destruct (bool_decide (getPreferredInputForConnection g selected ≠ -1)).
  - destruct (_ && _); [done|]. destruct (_ && _); [done|].
    intros Hret Hdir. rewrite Hdir in *.
    destruct (isOutputNode g created); simpl in *;
      by destruct (bool_decide (_ ≠ -1)).
  - intros Hnot Hs. destruct (isOutputNode g created); [tauto | done].
  - intros Hnot Hc Hs. tauto.
Qed.
End AutoConnectOutcome.

(** ** The path token of a file value *)

Lemma string_split_get (n : nat) (s : string) (ch : ascii) :
  String.get n s = Some ch ->
  s = String.substring 0 n s +:+ String ch (substr_from (S n) s).
Proof.
  revert n. induction s as [|c s IH]; intros n Hget.
  - by destruct n.
  - destruct n as [|n].
    + cbn [String.get] in Hget. injection Hget as ->.
      unfold substr_from. cbn [String.length String.substring].
      rewrite ?Nat.sub_0_r.
      replace (S (String.length s) - 1)%nat with (String.length s) by lia.
      by rewrite string_substring_full.
    + cbn [String.get] in Hget. cbn [String.substring].
      rewrite string_app_cons. f_equal.
      assert (Hshift : substr_from (S (S n)) (String c s)
                       = substr_from (S n) s).
      { unfold substr_from. cbn [String.length].
        by replace (S (String.length s) - S (S n))%nat
          with (String.length s - S n)%nat by lia. }
      rewrite Hshift. by apply IH.
Qed.

Lemma fixPathName_value_token oldName newName rest :
  fixPathName_value oldName newName ("[" +:+ oldName +:+ "]" +:+ rest)
  = "[" +:+ newName +:+ "]" +:+ rest.
Proof.
  unfold fixPathName_value.
  change ("[" +:+ oldName +:+ "]" +:+ rest)
    with (String "["%char (oldName +:+ String "]"%char rest)).
  assert (Hlen : String.length (String "["%char (oldName +:+ String "]"%char rest))
                 = (String.length oldName + 2 + String.length rest)%nat).
  { simpl. rewrite string_length_app. simpl. lia. }
  rewrite Hlen.
  replace (String.length oldName + 2 <=? String.length oldName + 2
           + String.length rest)%nat with true
    by (symmetry; apply Nat.leb_le; lia).
  replace (String.length oldName + 1)%nat with (S (String.length oldName + 0))
    by lia.
  cbn [String.get String.substring].
  rewrite string_get_app_r, string_substring_app. simpl String.get.
  rewrite !bool_decide_eq_true_2 by done. simpl andb. cbv iota.
  unfold substr_from. rewrite Hlen.
  replace (String.length oldName + 2 + String.length rest
           - (1 + String.length oldName))%nat
    with (S (String.length rest)) by lia.
  change (1 + String.length oldName)%nat with (S (String.length oldName)).
  cbn [String.substring].
  rewrite <- (Nat.add_0_r (String.length oldName)) at 1.
  rewrite string_substring_app_r.
  change (String.substring 0 (S (String.length rest)) (String "]"%char rest))
    with (String "]"%char (String.substring 0 (String.length rest) rest)).
  rewrite string_substring_full.
  change (String.substring 0 1
            (String "["%char (oldName +:+ String "]"%char rest)))
    with (String "["%char
            (String.substring 0 0 (oldName +:+ String "]"%char rest))).
  by destruct (oldName +:+ String "]"%char rest).
Qed.

(** X22: the rewrite [fixPathName] applies to a file value.  A value that
    starts with the old name in brackets has it replaced by the new name
    and keeps what follows; renaming back restores the value; every other
    value is kept as it is. *)
Theorem fixPathName_value_renames (oldName newName : string) :
  (forall rest,
     fixPathName_value oldName newName ("[" +:+ oldName +:+ "]" +:+ rest)
     = "[" +:+ newName +:+ "]" +:+ rest)
  /\ (forall rest,
        fixPathName_value newName oldName
          (fixPathName_value oldName newName
             ("[" +:+ oldName +:+ "]" +:+ rest))
        = "[" +:+ oldName +:+ "]" +:+ rest)
  /\ (forall filepath,
        (forall rest, filepath ≠ "[" +:+ oldName +:+ "]" +:+ rest) ->
        fixPathName_value oldName newName filepath = filepath).
Proof.
  split_and!.
  - apply fixPathName_value_token.
  - intros rest. by rewrite !fixPathName_value_token.
  - intros filepath Hother. unfold fixPathName_value.
    destruct (String.length oldName + 2 <=? String.length filepath)%nat
      eqn:Hlen; [|done].
    case_bool_decide as Hopen; [|done].
    case_bool_decide as Hclose; [|done].
    case_bool_decide as Hsub; [|done]. simpl.
    exfalso. destruct filepath as [|c0 tail]; [done|].
    cbn [String.get] in Hopen. injection Hopen as ->.
    replace (String.length oldName + 1)%nat with (S (String.length oldName))
      in Hclose by lia.
    cbn [String.get] in Hclose. cbn [String.substring] in Hsub.
    apply (Hother (substr_from (S (String.length oldName)) tail)).
    change ("[" +:+ oldName +:+ "]"
            +:+ substr_from (S (String.length oldName)) tail)
      with (String "["%char
              (oldName +:+ String "]"%char
                 (substr_from (S (String.length oldName)) tail))).
    f_equal. pose proof (string_split_get _ _ _ Hclose) as Hsplit.
    by rewrite Hsub in Hsplit.
Qed.

(** ** The ports of a group *)

(** X23: the ports of a group follow the activations.  After
    [notifyNodeActivated] on a sequence of nodes the input list holds what
    it held, then the group-input nodes of the sequence in the order of
    the calls, and the output list likewise the group-output nodes;
    [getMaxInputCount] has grown by the number of group-input nodes, and a
    group that had an output node keeps returning it from [getOutputNode].
    While the group is being activated the calls change nothing. *)
Theorem notifyNodeActivated_sequence (g : NodeGroupPrivate) (l : list Node) :
  (isActivatingGroup g = false ->
   inputs (fold_left notifyNodeActivated l g)
   = inputs g
     ++ map (fun n => Some (nodeAddr n)) (List.filter isEffectGroupInput l)
   /\ outputs (fold_left notifyNodeActivated l g)
      = outputs g
        ++ map (fun n => Some (nodeAddr n)) (List.filter isGroupOutput l)
   /\ NodeGroup_getMaxInputCount (fold_left notifyNodeActivated l g)
      = NodeGroup_getMaxInputCount g
        + Z.of_nat (length (List.filter isEffectGroupInput l))
   /\ (outputs g ≠ [] ->
       getOutputNode (fold_left notifyNodeActivated l g) = getOutputNode g))
  /\ (isActivatingGroup g = true -> fold_left notifyNodeActivated l g = g).
Proof.
  split.
  - intros Hflag.
    assert (Hlists :
      inputs (fold_left notifyNodeActivated l g)
      = inputs g
        ++ map (fun n => Some (nodeAddr n)) (List.filter isEffectGroupInput l)
      /\ outputs (fold_left notifyNodeActivated l g)
         = outputs g
           ++ map (fun n => Some (nodeAddr n)) (List.filter isGroupOutput l)).
    { revert g Hflag. induction l as [|n l IH]; intros g Hflag; simpl.
      - by rewrite !app_nil_r.
      - destruct (IH (notifyNodeActivated g n)) as [Hin Hout].
        { unfold notifyNodeActivated. by rewrite Hflag. }
        rewrite Hin, Hout. unfold notifyNodeActivated. rewrite Hflag. simpl.
        destruct (isEffectGroupInput n), (isGroupOutput n); simpl;
          by rewrite <- ?app_assoc. }
    destruct Hlists as [Hin Hout]. split_and!; [done | done | |].
    + unfold NodeGroup_getMaxInputCount. rewrite Hin, length_app, length_map.
      lia.
    + intros Hne. unfold getOutputNode. rewrite Hout.
      by destruct (outputs g).
  - intros Hflag. induction l as [|n l IH]; simpl; [done|].
    unfold notifyNodeActivated at 2. by rewrite Hflag.
Qed.

(** ** The further functions at work *)

Example getNodeNameAndRemainder_both_ways :
  getNodeNameAndRemainder_LeftToRight "Group1.Group2.Blur1" "" ""
  = ("Group1", "Group2.Blur1")
  /\ getNodeNameAndRemainder_RightToLeft "Group1.Group2.Blur1" "" ""
     = ("Blur1", "Group1.Group")
  /\ fixPathName_value "Project" "Shots" "[Project]/plates/a.exr"
     = "[Shots]/plates/a.exr"
  /\ fixPathName_value "Project" "Shots" "/plates/[Project]/a.exr"
     = "/plates/[Project]/a.exr".
Proof. split_and!; reflexivity. Qed.

Example getNodeByFullySpecifiedName_nested :
  getNodeByFullySpecifiedName
    (mkNodeCollection
       [plainNode 1 "Blur1";
        groupNode 2 "Group1"
          [plainNode 3 "Grade1"; groupNode 4 "Group2" [plainNode 5 "Merge1"]]]
       false None) "Group1.Group2.Merge1"
  = Some (plainNode 5 "Merge1")
  /\ getNodeByFullySpecifiedName
       (mkNodeCollection
          [plainNode 1 "Blur1";
           groupNode 2 "Group1" [plainNode 3 "Grade1"]] false None)
       "Blur1.Grade1"
     = None
  /\ map nodeAddr
       (getActiveNodesExpandGroups
          (mkNodeCollection
             [plainNode 1 "Blur1";
              groupNode 2 "Group1"
                [plainNode 3 "Grade1";
                 groupNode 4 "Group2" [plainNode 5 "Merge1"]];
              plainNode 6 "Write1"] false None) [])
     = [1; 2; 3; 4; 5; 6]%nat
  /\ map nodeAddr
       (getNodes_recursive
          (mkNodeCollection
             [plainNode 1 "Blur1";
              groupNode 2 "Group1"
                [plainNode 3 "Grade1";
                 groupNode 4 "Group2" [plainNode 5 "Merge1"]];
              plainNode 6 "Write1"] false None) false [])
     = [1; 2; 6; 3; 4; 5]%nat.
Proof. split_and!; reflexivity. Qed.
